(** * AI Wargame: rules engine, heuristics and adversarial search

    A shallow embedding of [AI_Wargame_D1.py].  Python integers are [Z];
    Python exceptions are the [Raise] constructor of [result]; objects
    mutated in place (the board, the units stored in it) are threaded
    through as explicit state.  Scores produced with true division are
    rationals ([Q]): the embedding keeps the exact quotient where CPython
    rounds to a binary double, so only definedness (never a rounded value)
    of the float-valued evaluators [e1] and [e2] is ever stated. *)

From Stdlib Require Import ZArith QArith List Lia Ascii.
From stdpp Require Import base option list strings gmap sorting.

Local Open Scope Z_scope.

(** ** Exceptions *)

Inductive exn : Set :=
| IndexError
| TypeError
| AttributeError
| ZeroDivisionError
| RecursionError.

Inductive result (A : Type) : Type :=
| Ret (a : A)
| Raise (e : exn).
Arguments Ret {A} a.
Arguments Raise {A} e.

#[global] Instance result_ret : MRet result := fun A a => Ret a.
#[global] Instance result_bind : MBind result := fun A B f m =>
  match m with
  | Ret a => f a
  | Raise e => Raise e
  end.

(** Sequenced loop with an accumulator: [for x in l: acc = f acc x]. *)
Fixpoint foldM {A B : Type} (f : B -> A -> result B) (acc : B) (l : list A)
  : result B :=
  match l with
  | [] => Ret acc
  | x :: l' => acc' ← f acc x; foldM f acc' l'
  end.

(** [seq[i]] with Python's negative indices. *)
Definition py_index {A : Type} (l : list A) (i : Z) : result A :=
  let n := Z.of_nat (length l) in
  let j := if i <? 0 then i + n else i in
  if (j <? 0) || (n <=? j) then Raise IndexError
  else match l !! Z.to_nat j with
       | Some x => Ret x
       | None => Raise IndexError
       end.

(** [range(a, b)]. *)
Definition range (a b : Z) : list Z := seqZ a (b - a).

(** ** Text

    A [string] is a sequence of code points below 256.  On that range
    [str.upper] and [str.lower] take no character outside ASCII to an
    ASCII letter, so leaving those characters alone gives the same
    [find] results as CPython. *)

(** [str.isspace] on one character. *)
Definition is_space (c : ascii) : bool :=
  let n := nat_of_ascii c in
  ((9 <=? n) && (n <=? 13) || (28 <=? n) && (n <=? 32)
   || (n =? 133) || (n =? 160))%nat.

Fixpoint py_lstrip (s : string) : string :=
  match s with
  | EmptyString => EmptyString
  | String c s' => if is_space c then py_lstrip s' else s
  end.

Fixpoint py_rstrip (s : string) : string :=
  match s with
  | EmptyString => EmptyString
  | String c s' =>
      match py_rstrip s' with
      | EmptyString => if is_space c then EmptyString else String c EmptyString
      | r => String c r
      end
  end.

(** [s.strip()]. *)
Definition py_strip (s : string) : string := py_rstrip (py_lstrip s).

(** [s.replace(sep, "")] for a one-character [sep]. *)
Fixpoint py_remove (sep : ascii) (s : string) : string :=
  match s with
  | EmptyString => EmptyString
  | String c s' =>
      if Ascii.eqb c sep then py_remove sep s' else String c (py_remove sep s')
  end.

(** [for sep in " ,.:;-_": s = s.replace(sep, "")]. *)
Definition strip_separators (s : string) : string :=
  foldl (fun s sep => py_remove sep s) s (String.list_ascii_of_string " ,.:;-_").

Definition upper_char (c : ascii) : ascii :=
  let n := nat_of_ascii c in
  if ((97 <=? n) && (n <=? 122))%nat then ascii_of_nat (n - 32) else c.

Definition lower_char (c : ascii) : ascii :=
  let n := nat_of_ascii c in
  if ((65 <=? n) && (n <=? 90))%nat then ascii_of_nat (n + 32) else c.

Fixpoint py_upper (s : string) : string :=
  match s with
  | EmptyString => EmptyString
  | String c s' => String (upper_char c) (py_upper s')
  end.

Fixpoint py_lower (s : string) : string :=
  match s with
  | EmptyString => EmptyString
  | String c s' => String (lower_char c) (py_lower s')
  end.

(** [s.find(sub)]. *)
Definition py_find (s sub : string) : Z :=
  match String.index 0 sub s with
  | Some i => Z.of_nat i
  | None => -1
  end.

(** ** Enumerations *)

Inductive UnitType : Set := AI | Tech | Virus | Program | Firewall.

Inductive Player : Set := Attacker | Defender.

#[global] Instance UnitType_eq_dec : EqDecision UnitType.
Proof. solve_decision. Defined.

#[global] Instance Player_eq_dec : EqDecision Player.
Proof. solve_decision. Defined.

Module UnitTypeM.
Definition value (t : UnitType) : nat :=
  match t with
  | AI => 0 | Tech => 1 | Virus => 2 | Program => 3 | Firewall => 4
  end%nat.
End UnitTypeM.

Module PlayerM.
Definition next (self : Player) : Player :=
  match self with
  | Attacker => Defender
  | Defender => Attacker
  end.

Definition name (self : Player) : string :=
  match self with
  | Attacker => "Attacker"
  | Defender => "Defender"
  end.
End PlayerM.

Definition MAX_HEURISTIC_SCORE : Z := 2000000000.
Definition MIN_HEURISTIC_SCORE : Z := -2000000000.

(** ** Units *)

Module Unit.

Record t : Set := mk { player : Player; type : UnitType; health : Z }.

Definition damage_table : list (list Z) :=
  [ [3;3;3;3;1]   (* AI *)
  ; [1;1;6;1;1]   (* Tech *)
  ; [9;6;1;6;1]   (* Virus *)
  ; [3;3;3;3;1]   (* Program *)
  ; [1;1;1;1;1]   (* Firewall *)
  ].

Definition repair_table : list (list Z) :=
  [ [0;1;1;0;0]   (* AI *)
  ; [3;0;0;3;3]   (* Tech *)
  ; [0;0;0;0;0]   (* Virus *)
  ; [0;0;0;0;0]   (* Program *)
  ; [0;0;0;0;0]   (* Firewall *)
  ].

(** [table[a.value][b.value]]; both indices range over the five unit
    types, so the access is always inside the 5x5 table. *)
Definition entry (table : list (list Z)) (a b : UnitType) : Z :=
  nth (UnitTypeM.value b) (nth (UnitTypeM.value a) table []) 0.

Definition is_alive (self : t) : bool := 0 <? health self.

Definition with_health (self : t) (h : Z) : t :=
  mk (player self) (type self) h.

Definition mod_health (self : t) (health_delta : Z) : t :=
  let h := health self + health_delta in
  if h <? 0 then with_health self 0
  else if 9 <? h then with_health self 9
  else with_health self h.

Definition damage_amount (self target : t) : Z :=
  let amount := entry damage_table (type self) (type target) in
  if health target - amount <? 0 then health target else amount.

Definition repair_amount (self target : t) : Z :=
  let amount := entry repair_table (type self) (type target) in
  if 9 <? health target + amount then 9 - health target else amount.

End Unit.

#[global] Instance Unit_eq_dec : EqDecision Unit.t.
Proof. solve_decision. Defined.

(** ** Coordinates *)

Module Coord.

Record t : Set := mk { row : Z; col : Z }.

Definition col_string (self : t) : result string :=
  if col self <? 16 then
    c ← py_index (String.list_ascii_of_string "0123456789abcdef") (col self);
    Ret (String c EmptyString)
  else Ret "?"%string.

Definition row_string (self : t) : result string :=
  if row self <? 26 then
    c ← py_index (String.list_ascii_of_string "ABCDEFGHIJKLMNOPQRSTUVWXYZ") (row self);
    Ret (String c EmptyString)
  else Ret "?"%string.

Definition to_string (self : t) : result string :=
  r ← row_string self;
  c ← col_string self;
  Ret (r +:+ c).

(** The generator is represented by the list of the values it yields,
    in order. *)
Definition iter_range (self : t) (dist : Z) : list t :=
  r ← range (row self - dist) (row self + 1 + dist);
  c ← range (col self - dist) (col self + 1 + dist);
  [mk r c].

Definition iter_adjacent (self : t) : list t :=
  [ mk (row self - 1) (col self)
  ; mk (row self) (col self - 1)
  ; mk (row self + 1) (col self)
  ; mk (row self) (col self + 1) ].

(** The class method [from_string]; [None] is Python's [None]. *)
Definition from_string (s : string) : option t :=
  let s := py_strip s in
  let s := strip_separators s in
  if decide (String.length s = 2%nat) then
    Some (mk (py_find "ABCDEFGHIJKLMNOPQRSTUVWXYZ" (py_upper (String.substring 0 1 s)))
             (py_find "0123456789abcdef" (py_lower (String.substring 1 1 s))))
  else None.

End Coord.

#[global] Instance Coord_eq_dec : EqDecision Coord.t.
Proof. solve_decision. Defined.

Module CoordPair.

Record t : Set := mk { src : Coord.t; dst : Coord.t }.

Definition to_string (self : t) : result string :=
  s ← Coord.to_string (src self);
  d ← Coord.to_string (dst self);
  Ret (s +:+ " " +:+ d).

Definition iter_rectangle (self : t) : list Coord.t :=
  r ← range (Coord.row (src self)) (Coord.row (dst self) + 1);
  c ← range (Coord.col (src self)) (Coord.col (dst self) + 1);
  [Coord.mk r c].

Definition from_dim (dim : Z) : t :=
  mk (Coord.mk 0 0) (Coord.mk (dim - 1) (dim - 1)).

Definition from_quad (row0 col0 row1 col1 : Z) : t :=
  mk (Coord.mk row0 col0) (Coord.mk row1 col1).

Definition from_string (s : string) : option t :=
  let s := py_strip s in
  let s := strip_separators s in
  if decide (String.length s = 4%nat) then
    Some (mk (Coord.mk
                (py_find "ABCDEFGHIJKLMNOPQRSTUVWXYZ" (py_upper (String.substring 0 1 s)))
                (py_find "0123456789abcdef" (py_lower (String.substring 1 1 s))))
             (Coord.mk
                (py_find "ABCDEFGHIJKLMNOPQRSTUVWXYZ" (py_upper (String.substring 2 1 s)))
                (py_find "0123456789abcdef" (py_lower (String.substring 3 1 s)))))
  else None.

End CoordPair.

#[global] Instance CoordPair_eq_dec : EqDecision CoordPair.t.
Proof. solve_decision. Defined.

(** A generator consumed by a membership test: [x in gen] advances the
    generator up to and including the first element equal to [x] (or to
    exhaustion).  Returns the answer and what the generator still holds. *)
Fixpoint gen_contains (x : Coord.t) (gen : list Coord.t) : bool * list Coord.t :=
  match gen with
  | [] => (false, [])
  | y :: rest => if decide (y = x) then (true, rest) else gen_contains x rest
  end.

(** ** Options and statistics *)

Inductive GameType : Set :=
| AttackerVsDefender | AttackerVsComp | CompVsDefender | CompVsComp.

Module Options.
Record t : Type := mk {
  dim : Z;
  max_depth : option Z;
  min_depth : option Z;
  max_time : option Q;
  game_type : GameType;
  alpha_beta : bool;
  max_turns : option Z;
  randomize_moves : bool;
  broker : option string;
  heuristic : option Z
}.

Definition default : t :=
  mk 5 (Some 4) (Some 2) (Some 5%Q) AttackerVsDefender true (Some 100) true
     None (Some 0).
End Options.

(** The [Stats] object is shared by reference between a game and all of
    its clones; it is therefore kept outside the game record and threaded
    through the search as the one store every recursion frame updates. *)
Module Stats.
Record t : Type := mk {
  evaluations_per_depth : gmap Z Z;
  total_seconds : Q
}.
Definition default : t := mk ∅ 0%Q.
End Stats.

(** [seq[i] = x] with Python's negative indices. *)
Definition py_store {A : Type} (l : list A) (i : Z) (x : A) : result (list A) :=
  let n := Z.of_nat (length l) in
  let j := if i <? 0 then i + n else i in
  if (j <? 0) || (n <=? j) then Raise IndexError
  else Ret (<[Z.to_nat j := x]> l).

(** ** Game state and rules engine *)

Module Game.

Record t : Type := mk {
  board : list (list (option Unit.t));
  next_player : Player;
  turns_played : Z;
  options : Options.t;
  _attacker_has_ai : bool;
  _defender_has_ai : bool
}.

Definition with_board (self : t) (b : list (list (option Unit.t))) : t :=
  mk b (next_player self) (turns_played self) (options self)
     (_attacker_has_ai self) (_defender_has_ai self).

Definition with_attacker_has_ai (self : t) (f : bool) : t :=
  mk (board self) (next_player self) (turns_played self) (options self)
     f (_defender_has_ai self).

Definition with_defender_has_ai (self : t) (f : bool) : t :=
  mk (board self) (next_player self) (turns_played self) (options self)
     (_attacker_has_ai self) f.

(** [copy.copy] of the record plus [copy.deepcopy] of the board: with
    value semantics the clone is the same value; what the clone does not
    share with the original (board, flags) lives in [t], what it does
    share (statistics) lives outside. *)
Definition clone (self : t) : t := self.

Definition is_valid_coord (self : t) (coord : Coord.t) : bool :=
  let dim := Options.dim (options self) in
  if (Coord.row coord <? 0) || (dim <=? Coord.row coord)
     || (Coord.col coord <? 0) || (dim <=? Coord.col coord)
  then false else true.

Definition is_empty (self : t) (coord : Coord.t) : result bool :=
  r ← py_index (board self) (Coord.row coord);
  cell ← py_index r (Coord.col coord);
  Ret (match cell with None => true | Some _ => false end).

Definition get (self : t) (coord : Coord.t) : result (option Unit.t) :=
  if is_valid_coord self coord then
    r ← py_index (board self) (Coord.row coord);
    py_index r (Coord.col coord)
  else Ret None.

Definition set (self : t) (coord : Coord.t) (unit : option Unit.t) : result t :=
  if is_valid_coord self coord then
    r ← py_index (board self) (Coord.row coord);
    r' ← py_store r (Coord.col coord) unit;
    b' ← py_store (board self) (Coord.row coord) r';
    Ret (with_board self b')
  else Ret self.

(** A method call that mutates a unit object obtained from [get self
    coord]: the object is the one stored in that cell, so the cell holds
    the mutated unit afterwards. *)
Definition mutate (self : t) (coord : Coord.t) (unit : Unit.t) : result t :=
  set self coord (Some unit).

Definition remove_dead (self : t) (coord : Coord.t) : result t :=
  unit ← get self coord;
  match unit with
  | Some u =>
      if negb (Unit.is_alive u) then
        self ← set self coord None;
        if decide (Unit.type u = AI) then
          if decide (Unit.player u = Attacker)
          then Ret (with_attacker_has_ai self false)
          else Ret (with_defender_has_ai self false)
        else Ret self
      else Ret self
  | None => Ret self
  end.

Definition mod_health (self : t) (coord : Coord.t) (health_delta : Z) : result t :=
  target ← get self coord;
  match target with
  | Some u =>
      self ← mutate self coord (Unit.mod_health u health_delta);
      remove_dead self coord
  | None => Ret self
  end.

(** [for coord in adjacent_coords: ... return False] of the two legality
    predicates: does one of the coordinates the generator still yields
    hold a unit of the other player?  *)
Fixpoint engaged (self : t) (unit : Unit.t) (adjacent_coords : list Coord.t)
  : result bool :=
  match adjacent_coords with
  | [] => Ret false
  | coord :: rest =>
      adjacent_unit ← get self coord;
      match adjacent_unit with
      | Some a =>
          if decide (Unit.player a <> Unit.player unit) then Ret true
          else engaged self unit rest
      | None => engaged self unit rest
      end
  end.

(** The part of both legality predicates that follows the engagement
    loop: the faction's advance directions. *)
Definition advances (unit : Unit.t) (coords : CoordPair.t) : bool :=
  let s := CoordPair.src coords in
  let d := CoordPair.dst coords in
  if decide (Unit.player unit = Attacker) then
    if bool_decide (d = Coord.mk (Coord.row s - 1) (Coord.col s))
       || bool_decide (d = Coord.mk (Coord.row s) (Coord.col s - 1))
    then true else false
  else
    if bool_decide (d = Coord.mk (Coord.row s + 1) (Coord.col s))
       || bool_decide (d = Coord.mk (Coord.row s) (Coord.col s + 1))
    then true else false.

Definition is_valid_move (self : t) (coords : CoordPair.t) : result bool :=
  if negb (is_valid_coord self (CoordPair.src coords))
     || negb (is_valid_coord self (CoordPair.dst coords))
  then Ret false else
  unit ← get self (CoordPair.src coords);
  match unit with
  | None => Ret false
  | Some unit =>
    if decide (Unit.player unit <> next_player self) then Ret false else
    if decide (CoordPair.src coords = CoordPair.dst coords) then Ret true else
    let adjacent_coords := Coord.iter_adjacent (CoordPair.src coords) in
    (* [coords.dst not in adjacent_coords] advances the generator *)
    let '(found, adjacent_coords) :=
      gen_contains (CoordPair.dst coords) adjacent_coords in
    if negb found then Ret false else
    target ← get self (CoordPair.dst coords);
    match target with
    | None =>
        if bool_decide (Unit.type unit = Tech) || bool_decide (Unit.type unit = Virus)
        then Ret true else
        e ← engaged self unit adjacent_coords;
        if (e : bool) then Ret false else Ret (advances unit coords)
    | Some target =>
        if bool_decide (Unit.player target = Unit.player unit)
           && (0 <? Unit.repair_amount unit target)
        then Ret true
        else if decide (Unit.player target <> Unit.player unit) then Ret true
        else Ret false
    end
  end.

Definition is_valid_move_for_AI (self : t) (coords : CoordPair.t) (player : Player)
  : result bool :=
  if negb (is_valid_coord self (CoordPair.src coords))
     || negb (is_valid_coord self (CoordPair.dst coords))
  then Ret false else
  unit ← get self (CoordPair.src coords);
  match unit with
  | None => Ret false
  | Some unit =>
    if decide (Unit.player unit <> player) then Ret false else
    if decide (CoordPair.src coords = CoordPair.dst coords) then Ret true else
    let adjacent_coords := Coord.iter_adjacent (CoordPair.src coords) in
    target ← get self (CoordPair.dst coords);
    match target with
    | None =>
        if bool_decide (Unit.type unit = Tech) || bool_decide (Unit.type unit = Virus)
        then Ret true else
        e ← engaged self unit adjacent_coords;
        if (e : bool) then Ret false else Ret (advances unit coords)
    | Some target =>
        if bool_decide (Unit.player target = Unit.player unit)
           && (0 <? Unit.repair_amount unit target)
        then Ret true
        else if decide (Unit.player target <> Unit.player unit) then Ret true
        else Ret false
    end
  end.

(** Move resolution.  [print] is console output and is left out. *)
Definition perform_move (self : t) (coords : CoordPair.t)
  : result (t * (bool * string)) :=
  valid ← is_valid_move self coords;
  if (valid : bool) then
    dst_unit ← get self (CoordPair.dst coords);
    src_unit ← get self (CoordPair.src coords);
    match dst_unit with
    | None =>
        self ← set self (CoordPair.dst coords) src_unit;
        self ← set self (CoordPair.src coords) None;
        s ← Coord.to_string (CoordPair.src coords);
        d ← Coord.to_string (CoordPair.dst coords);
        Ret (self, (true, PlayerM.name (next_player self) +:+ " has moved " +:+ s
                            +:+ " to " +:+ d))
    | Some dst_unit =>
        match src_unit with
        | None => Raise AttributeError
        | Some src_unit =>
          if decide (CoordPair.dst coords = CoordPair.src coords) then
            self ← mutate self (CoordPair.src coords)
                     (Unit.mod_health src_unit (- Unit.health src_unit));
            self ← remove_dead self (CoordPair.src coords);
            self ← foldM (fun g unit_in_range => mod_health g unit_in_range (-2))
                     self (Coord.iter_range (CoordPair.src coords) 1);
            s ← Coord.to_string (CoordPair.src coords);
            Ret (self, (true, PlayerM.name (next_player self)
                                +:+ " has self destructed unit " +:+ s))
          else if decide (Unit.player dst_unit = next_player self) then
            self ← mutate self (CoordPair.dst coords)
                     (Unit.mod_health dst_unit (Unit.repair_amount src_unit dst_unit));
            s ← Coord.to_string (CoordPair.src coords);
            d ← Coord.to_string (CoordPair.dst coords);
            Ret (self, (true, PlayerM.name (next_player self) +:+ " has moved " +:+ s
                                +:+ " to repair " +:+ d))
          else
            let dst_unit' :=
              Unit.mod_health dst_unit (- Unit.damage_amount src_unit dst_unit) in
            let src_unit' :=
              Unit.mod_health src_unit (- Unit.damage_amount dst_unit' src_unit) in
            self ← mutate self (CoordPair.dst coords) dst_unit';
            self ← mutate self (CoordPair.src coords) src_unit';
            self ← remove_dead self (CoordPair.dst coords);
            self ← remove_dead self (CoordPair.src coords);
            s ← Coord.to_string (CoordPair.src coords);
            d ← Coord.to_string (CoordPair.dst coords);
            Ret (self, (true, PlayerM.name (next_player self) +:+ " has moved " +:+ s
                                +:+ " to damage " +:+ d))
        end
    end
  else
    s ← Coord.to_string (CoordPair.src coords);
    d ← Coord.to_string (CoordPair.dst coords);
    Ret (self, (false, "Invalid move " +:+ s +:+ " to " +:+ d)).

Definition perform_move_for_AI (self : t) (coords : CoordPair.t) (player : Player)
  : result (t * (bool * string)) :=
  dst_unit ← get self (CoordPair.dst coords);
  src_unit ← get self (CoordPair.src coords);
  match dst_unit with
  | None =>
      self ← set self (CoordPair.dst coords) src_unit;
      self ← set self (CoordPair.src coords) None;
      s ← Coord.to_string (CoordPair.src coords);
      d ← Coord.to_string (CoordPair.dst coords);
      Ret (self, (true, PlayerM.name player +:+ " has moved " +:+ s
                          +:+ " to " +:+ d))
  | Some dst_unit =>
      match src_unit with
      | None => Raise AttributeError
      | Some src_unit =>
        if decide (CoordPair.dst coords = CoordPair.src coords) then
          self ← mutate self (CoordPair.src coords)
                   (Unit.mod_health src_unit (- Unit.health src_unit));
          self ← remove_dead self (CoordPair.src coords);
          self ← foldM (fun g unit_in_range => mod_health g unit_in_range (-2))
                   self (Coord.iter_range (CoordPair.src coords) 1);
          s ← Coord.to_string (CoordPair.src coords);
          Ret (self, (true, PlayerM.name player
                              +:+ " has self destructed unit " +:+ s))
        else if decide (Unit.player dst_unit = player) then
          self ← mutate self (CoordPair.dst coords)
                   (Unit.mod_health dst_unit (Unit.repair_amount src_unit dst_unit));
          s ← Coord.to_string (CoordPair.src coords);
          d ← Coord.to_string (CoordPair.dst coords);
          Ret (self, (true, PlayerM.name player +:+ " has moved " +:+ s
                              +:+ " to repair " +:+ d))
        else
          let dst_unit' :=
            Unit.mod_health dst_unit (- Unit.damage_amount src_unit dst_unit) in
          let src_unit' :=
            Unit.mod_health src_unit (- Unit.damage_amount dst_unit' src_unit) in
          self ← mutate self (CoordPair.dst coords) dst_unit';
          self ← mutate self (CoordPair.src coords) src_unit';
          self ← remove_dead self (CoordPair.dst coords);
          self ← remove_dead self (CoordPair.src coords);
          s ← Coord.to_string (CoordPair.src coords);
          d ← Coord.to_string (CoordPair.dst coords);
          Ret (self, (true, PlayerM.name player +:+ " has moved " +:+ s
                              +:+ " to damage " +:+ d))
      end
  end.

Definition next_turn (self : t) : t :=
  mk (board self) (PlayerM.next (next_player self)) (turns_played self + 1)
     (options self) (_attacker_has_ai self) (_defender_has_ai self).

(** [human_turn] from the point where a move [mv] has been handed over,
    by [get_move_from_broker] when a broker is configured and by
    [read_move] otherwise ([print] and the waiting loops are left out).
    With a broker the turn passes whatever [perform_move] answers; without
    one a rejected move leaves the turn with the same player. *)
Definition human_turn (self : t) (mv : CoordPair.t) : result (t * string) :=
  match Options.broker (options self) with
  | Some _ =>
      '(self, (_, result)) ← perform_move self mv;
      Ret (next_turn self, result)
  | None =>
      '(self, (success, result)) ← perform_move self mv;
      if (success : bool) then Ret (next_turn self, result) else Ret (self, result)
  end.

Definition player_units (self : t) (player : Player)
  : result (list (Coord.t * Unit.t)) :=
  foldM (fun acc coord =>
           unit ← get self coord;
           match unit with
           | Some u =>
               if decide (Unit.player u = player) then Ret (acc ++ [(coord, u)])
               else Ret acc
           | None => Ret acc
           end)
        [] (CoordPair.iter_rectangle (CoordPair.from_dim (Options.dim (options self)))).

Definition has_winner (self : t) : option Player :=
  if match Options.max_turns (options self) with
     | Some max_turns => max_turns <=? turns_played self
     | None => false
     end
  then Some Defender
  else if _attacker_has_ai self then
    if _defender_has_ai self then None else Some Attacker
  else Some Defender.

Definition is_finished (self : t) : bool :=
  match has_winner self with Some _ => true | None => false end.

Definition move_candidates (self : t) : result (list CoordPair.t) :=
  units ← player_units self (next_player self);
  foldM (fun acc '(src, _) =>
           adj ← foldM (fun acc' dst =>
                          ok ← is_valid_move self (CoordPair.mk src dst);
                          if (ok : bool) then Ret (acc' ++ [CoordPair.mk src dst])
                          else Ret acc')
                       [] (Coord.iter_adjacent src);
           Ret (acc ++ adj ++ [CoordPair.mk src src]))
        [] units.

Definition move_candidates_for_AI (self : t) (player : Player)
  : result (list CoordPair.t) :=
  match has_winner self with
  | Some _ => Ret []
  | None =>
      units ← player_units self player;
      foldM (fun acc '(src, _) =>
               adj ← foldM (fun acc' dst =>
                              ok ← is_valid_move_for_AI self (CoordPair.mk src dst) player;
                              if (ok : bool) then Ret (acc' ++ [CoordPair.mk src dst])
                              else Ret acc')
                           [] (Coord.iter_adjacent src);
               Ret (acc ++ adj ++ [CoordPair.mk src src]))
            [] units
  end.

(** ** Heuristic evaluators *)

(** True division [a / b]. *)
Definition true_div (a b : Q) : result Q :=
  if Qeq_bool b 0 then Raise ZeroDivisionError else Ret (a / b)%Q.

Definition whole_board (self : t) : list Coord.t :=
  CoordPair.iter_rectangle (CoordPair.from_dim (Options.dim (options self))).

Definition compute_heuristic_e0 (self : t) : result Z :=
  foldM (fun heuristic_score coord =>
           unit ← get self coord;
           match unit with
           | Some u =>
               if decide (Unit.player u = Attacker) then
                 if decide (Unit.type u = AI) then Ret (heuristic_score + 9999)
                 else Ret (heuristic_score + 3)
               else
                 if decide (Unit.type u = AI) then Ret (heuristic_score - 9999)
                 else Ret (heuristic_score - 3)
           | None => Ret heuristic_score
           end)
        0 (whole_board self).

(** [k*(unit.health/9)]. *)
Definition health_share (k : Q) (u : Unit.t) : result Q :=
  q ← true_div (inject_Z (Unit.health u)) 9;
  Ret (k * q)%Q.

Definition compute_heuristic_e1 (self : t) : result Q :=
  foldM (fun heuristic_score coord =>
           unit ← get self coord;
           match unit with
           | Some u =>
               if decide (Unit.player u = Attacker) then
                 if decide (Unit.type u = AI) then
                   v ← health_share 999 u; Ret (heuristic_score + v)%Q
                 else if decide (Unit.type u = Virus) then
                   v ← health_share 9 u; Ret (heuristic_score + v)%Q
                 else if decide (Unit.type u = Program) then
                   v ← health_share 7 u; Ret (heuristic_score + v)%Q
                 else
                   v ← health_share 3 u; Ret (heuristic_score + v)%Q
               else
                 if decide (Unit.type u = AI) then
                   v ← health_share 999 u; Ret (heuristic_score - v)%Q
                 else if decide (Unit.type u = Tech) then
                   v ← health_share 8 u; Ret (heuristic_score - v)%Q
                 else if decide (Unit.type u = Program) then
                   v ← health_share 8 u; Ret (heuristic_score - v)%Q
                 else
                   v ← health_share 3 u; Ret (heuristic_score - v)%Q
           | None => Ret heuristic_score
           end)
        0%Q (whole_board self).

(** The local variables of [compute_heuristic_e2]. *)
Record e2_locals : Type := mk_e2 {
  heuristic_score : Q;
  Attacker_AI_coord : option Coord.t;
  Defender_AI_coord : option Coord.t;
  Virus_coord_1 : option Coord.t;
  Virus_coord_2 : option Coord.t;
  Tech_coord_1 : option Coord.t;
  Tech_coord_2 : option Coord.t
}.

Definition with_score (l : e2_locals) (s : Q) : e2_locals :=
  mk_e2 s (Attacker_AI_coord l) (Defender_AI_coord l) (Virus_coord_1 l)
        (Virus_coord_2 l) (Tech_coord_1 l) (Tech_coord_2 l).

(** Inner loop of [e2] around the Attacker's AI: the accumulator is
    [(adjacent_units, heuristic_score)]. *)
Definition e2_attacker_escort (self : t) (unit : Unit.t) (coord : Coord.t) (score : Q)
  : result (Z * Q) :=
  foldM (fun '(adjacent_units, score) coord_around =>
           unit_around ← get self coord_around;
           match unit_around with
           | Some a =>
               if decide (Unit.player a = Unit.player unit) then
                 let adjacent_units := adjacent_units + 1 in
                 q ← true_div 9 (inject_Z (Unit.health unit));
                 let score := (score + 3 * q)%Q in
                 if decide (adjacent_units = 4) then Ret (adjacent_units, (score + 5)%Q)
                 else Ret (adjacent_units, score)
               else Ret (adjacent_units, score)
           | None => Ret (adjacent_units, score)
           end)
        (0, score) (Coord.iter_adjacent coord).

(** Inner loop of [e2] around the Defender's AI. *)
Definition e2_defender_escort (self : t) (unit : Unit.t) (coord : Coord.t) (score : Q)
  : result (Z * Q) :=
  foldM (fun '(adjacent_units, score) coord_around =>
           unit_around ← get self coord_around;
           match unit_around with
           | Some a =>
               if decide (Unit.player a = Unit.player unit) then
                 let adjacent_units := adjacent_units + 1 in
                 let score := (score - 40)%Q in
                 if decide (adjacent_units = 2) then Ret (adjacent_units, (score - 50)%Q)
                 else Ret (adjacent_units, score)
               else Ret (adjacent_units, score)
           | None => Ret (adjacent_units, score)
           end)
        (0, score) (Coord.iter_adjacent coord).

Definition e2_scan (self : t) (l : e2_locals) (coord : Coord.t) : result e2_locals :=
  unit ← get self coord;
  match unit with
  | Some u =>
      if decide (Unit.player u = Attacker) then
        if decide (Unit.type u = AI) then
          v ← health_share 999 u;
          '(_, s) ← e2_attacker_escort self u coord (heuristic_score l + v)%Q;
          Ret (mk_e2 s (Some coord) (Defender_AI_coord l) (Virus_coord_1 l)
                     (Virus_coord_2 l) (Tech_coord_1 l) (Tech_coord_2 l))
        else if decide (Unit.type u = Virus) then
          v ← health_share 9 u;
          let s := (heuristic_score l + v)%Q in
          match Virus_coord_1 l with
          | Some _ =>
              Ret (mk_e2 s (Attacker_AI_coord l) (Defender_AI_coord l) (Virus_coord_1 l)
                         (Some coord) (Tech_coord_1 l) (Tech_coord_2 l))
          | None =>
              Ret (mk_e2 s (Attacker_AI_coord l) (Defender_AI_coord l) (Some coord)
                         (Virus_coord_2 l) (Tech_coord_1 l) (Tech_coord_2 l))
          end
        else if decide (Unit.type u = Program) then
          v ← health_share 7 u; Ret (with_score l (heuristic_score l + v)%Q)
        else
          v ← health_share 3 u; Ret (with_score l (heuristic_score l + v)%Q)
      else
        if decide (Unit.type u = AI) then
          v ← health_share 999 u;
          '(_, s) ← e2_defender_escort self u coord (heuristic_score l - v)%Q;
          Ret (mk_e2 s (Attacker_AI_coord l) (Some coord) (Virus_coord_1 l)
                     (Virus_coord_2 l) (Tech_coord_1 l) (Tech_coord_2 l))
        else if decide (Unit.type u = Tech) then
          v ← health_share 50 u;
          let s := (heuristic_score l - v)%Q in
          match Tech_coord_1 l with
          | Some _ =>
              Ret (mk_e2 s (Attacker_AI_coord l) (Defender_AI_coord l) (Virus_coord_1 l)
                         (Virus_coord_2 l) (Tech_coord_1 l) (Some coord))
          | None =>
              Ret (mk_e2 s (Attacker_AI_coord l) (Defender_AI_coord l) (Virus_coord_1 l)
                         (Virus_coord_2 l) (Some coord) (Tech_coord_2 l))
          end
        else if decide (Unit.type u = Program) then
          v ← health_share 40 u; Ret (with_score l (heuristic_score l - v)%Q)
        else
          v ← health_share 40 u; Ret (with_score l (heuristic_score l - v)%Q)
  | None => Ret l
  end.

(** [abs(a.row - b.row) + abs(a.col - b.col)]. *)
Definition manhattan (a b : Coord.t) : Z :=
  Z.abs (Coord.row a - Coord.row b) + Z.abs (Coord.col a - Coord.col b).

(** The closing [if] statements of [e2].  [e2_both] is the guard
    [(c1 is not None and c2 is not None) and target is not None],
    [e2_either] the guard [(c1 is not None or c2 is not None) and target is
    not None] with [c = c1 if c2 is None else c2]; [combine] is the
    arithmetic done with the quotient. *)
Definition e2_both (combine : Q -> Q -> Q) (k : Q) (c1 c2 target : option Coord.t)
    (score : Q) : result Q :=
  match c1, c2, target with
  | Some a, Some b, Some t =>
      v ← true_div k (inject_Z (Z.max (manhattan a t) (manhattan b t)));
      Ret (combine score v)
  | _, _, _ => Ret score
  end.

Definition e2_either (combine : Q -> Q -> Q) (k : Q) (c1 c2 target : option Coord.t)
    (score : Q) : result Q :=
  match target with
  | Some t =>
      match c1, c2 with
      | None, None => Ret score
      | _, Some c | Some c, None =>
          v ← true_div k (inject_Z (manhattan c t));
          Ret (combine score v)
      end
  | None => Ret score
  end.

Definition compute_heuristic_e2 (self : t) : result Q :=
  l ← foldM (e2_scan self) (mk_e2 0%Q None None None None None None) (whole_board self);
  s ← e2_both (fun s v => s + v)%Q 100
        (Virus_coord_1 l) (Virus_coord_2 l) (Defender_AI_coord l) (heuristic_score l);
  s ← e2_either (fun s v => s + v - 9)%Q 100
        (Virus_coord_1 l) (Virus_coord_2 l) (Defender_AI_coord l) s;
  s ← e2_both (fun s v => s - v)%Q 50
        (Tech_coord_1 l) (Tech_coord_2 l) (Attacker_AI_coord l) s;
  e2_either (fun s v => s - v + 9)%Q 50
        (Tech_coord_1 l) (Tech_coord_2 l) (Attacker_AI_coord l) s.

(** ** Construction *)

(** [Game(options=options)]: the dataclass defaults followed by
    [__post_init__]. *)
Definition new (options : Options.t) : result t :=
  let dim := Options.dim options in
  let self :=
    mk (replicate (Z.to_nat dim) (replicate (Z.to_nat dim) None))
       Attacker 0 options true true in
  let md := dim - 1 in
  self ← set self (Coord.mk 0 0) (Some (Unit.mk Defender AI 9));
  self ← set self (Coord.mk 1 0) (Some (Unit.mk Defender Tech 9));
  self ← set self (Coord.mk 0 1) (Some (Unit.mk Defender Tech 9));
  self ← set self (Coord.mk 2 0) (Some (Unit.mk Defender Firewall 9));
  self ← set self (Coord.mk 0 2) (Some (Unit.mk Defender Firewall 9));
  self ← set self (Coord.mk 1 1) (Some (Unit.mk Defender Program 9));
  self ← set self (Coord.mk md md) (Some (Unit.mk Attacker AI 9));
  self ← set self (Coord.mk (md - 1) md) (Some (Unit.mk Attacker Virus 9));
  self ← set self (Coord.mk md (md - 1)) (Some (Unit.mk Attacker Virus 9));
  self ← set self (Coord.mk (md - 2) md) (Some (Unit.mk Attacker Program 9));
  self ← set self (Coord.mk md (md - 2)) (Some (Unit.mk Attacker Program 9));
  set self (Coord.mk (md - 1) (md - 1)) (Some (Unit.mk Attacker Firewall 9)).

(** ** Search engine *)

(** What the search shares between all recursion frames: the statistics
    object, and how many times the wall clock has been read so far. *)
Record world : Type := mk_world {
  stats : Stats.t;
  clock_reads : nat
}.

Definition Qlt_bool (a b : Q) : bool := negb (Qle_bool b a).

(** [a if player == Player.Defender else b] on the two sentinel scores. *)
Definition worst_for (player : Player) : Q :=
  if decide (player = Defender) then inject_Z MAX_HEURISTIC_SCORE
  else inject_Z MIN_HEURISTIC_SCORE.

Definition opponent (player : Player) : Player :=
  if decide (player = Defender) then Attacker else Defender.

(** The three-way [if] on [options.heuristic] found at each return. *)
Definition evaluate (self : t) : result Q :=
  if decide (Options.heuristic (options self) = Some 0) then
    z ← compute_heuristic_e0 self; Ret (inject_Z z)
  else if decide (Options.heuristic (options self) = Some 1) then
    compute_heuristic_e1 self
  else compute_heuristic_e2 self.

(** [stats.evaluations_per_depth[depth] = stats.evaluations_per_depth.get(depth, 0) + n]. *)
Definition count_evaluations (w : world) (depth : Z) (n : Z) : world :=
  let m := Stats.evaluations_per_depth (stats w) in
  mk_world (Stats.mk (<[depth := default 0 (m !! depth) + n]> m)
                     (Stats.total_seconds (stats w)))
           (clock_reads w).

Section Clock.

(** [now k] is what the [k]-th call of [datetime.now()] returns, in
    seconds. *)
Variable now : nat -> Q.

Definition read_clock (w : world) : Q * world :=
  (now (clock_reads w), mk_world (stats w) (S (clock_reads w))).

(** [(datetime.now() - start_time).total_seconds() >= (self.options.max_time-0.1)]. *)
Definition cutoff (self : t) (start_time : Q) (w : world) : result (bool * world) :=
  let '(t, w) := read_clock w in
  match Options.max_time (options self) with
  | Some max_time => Ret (Qle_bool (max_time - (1 # 10)) (t - start_time), w)
  | None => Raise TypeError
  end.

Definition search_result : Type := option (Q * option CoordPair.t).

(** The [for move_candidate in move_candidates] loop of [minimax]; [recur]
    is the recursive call on the clone. *)
Fixpoint minimax_loop (recur : t -> world -> result (search_result * world))
    (self : t) (player : Player) (start_time : Q)
    (move_candidates : list CoordPair.t)
    (best_heuristic : Q) (best_move : option CoordPair.t) (best_clone_game : option t)
    (w : world) : result (Q * option CoordPair.t * option t * world) :=
  match move_candidates with
  | [] => Ret (best_heuristic, best_move, best_clone_game, w)
  | move_candidate :: rest =>
      '(clone_game, _) ← perform_move_for_AI (clone self) move_candidate player;
      '(r, w) ← recur clone_game w;
      match r with
      | None => Raise TypeError
      | Some (current_heuristic, _) =>
          let '(best_heuristic, best_move, best_clone_game) :=
            if bool_decide (player = Attacker) && Qlt_bool best_heuristic current_heuristic
               || bool_decide (player = Defender) && Qlt_bool current_heuristic best_heuristic
            then (current_heuristic, Some move_candidate, Some clone_game)
            else (best_heuristic, best_move, best_clone_game) in
          '(stop, w) ← cutoff self start_time w;
          if (stop : bool) then Ret (best_heuristic, best_move, best_clone_game, w)
          else minimax_loop recur self player start_time rest
                 best_heuristic best_move best_clone_game w
      end
  end.

(** [fuel] bounds the recursion depth; running out of it is Python's
    [RecursionError]. *)
Fixpoint minimax (fuel : nat) (self : t) (depth : Z) (player : Player)
    (start_time : Q) (w : world) : result (search_result * world) :=
  match fuel with
  | O => Raise RecursionError
  | S fuel =>
      if bool_decide (Some depth = Options.max_depth (options self))
         || is_finished self
      then s ← evaluate self; Ret (Some (s, None), w)
      else
        move_candidates ← move_candidates_for_AI self player;
        let best_heuristic := worst_for player in
        let w := count_evaluations w depth (Z.of_nat (length move_candidates)) in
        if 0 <? Z.of_nat (length move_candidates) then
          '(_, best_move, best_clone_game, w) ←
            minimax_loop
              (fun g w => minimax fuel g (depth + 1) (opponent player) start_time w)
              self player start_time move_candidates best_heuristic None None w;
          match best_clone_game with
          | Some g => s ← evaluate g; Ret (Some (s, best_move), w)
          | None => Raise AttributeError
          end
        else Ret (None, w)
  end.

(** The loop of [minimax_alphabeta]; [recur] receives the current window. *)
Fixpoint alphabeta_loop (recur : t -> Q -> Q -> world -> result (search_result * world))
    (self : t) (player : Player) (start_time : Q)
    (move_candidates : list CoordPair.t) (alpha beta : Q)
    (best_heuristic : Q) (best_move : option CoordPair.t) (best_clone_game : option t)
    (w : world) : result (Q * option CoordPair.t * option t * world) :=
  match move_candidates with
  | [] => Ret (best_heuristic, best_move, best_clone_game, w)
  | move_candidate :: rest =>
      '(clone_game, _) ← perform_move_for_AI (clone self) move_candidate player;
      '(r, w) ← recur clone_game alpha beta w;
      match r with
      | None => Raise TypeError
      | Some (current_heuristic, _) =>
          let improves :=
            if decide (player = Attacker)
            then Qlt_bool best_heuristic current_heuristic
            else Qlt_bool current_heuristic best_heuristic in
          let '(best_heuristic, best_move, best_clone_game) :=
            if improves then (current_heuristic, Some move_candidate, Some clone_game)
            else (best_heuristic, best_move, best_clone_game) in
          (* alpha = max(alpha, best_heuristic) / beta = min(beta, best_heuristic) *)
          let alpha :=
            if decide (player = Attacker)
            then (if Qlt_bool alpha best_heuristic then best_heuristic else alpha)
            else alpha in
          let beta :=
            if decide (player = Defender)
            then (if Qlt_bool best_heuristic beta then best_heuristic else beta)
            else beta in
          if Qle_bool beta alpha then Ret (best_heuristic, best_move, best_clone_game, w)
          else
            '(stop, w) ← cutoff self start_time w;
            if (stop : bool) then Ret (best_heuristic, best_move, best_clone_game, w)
            else alphabeta_loop recur self player start_time rest alpha beta
                   best_heuristic best_move best_clone_game w
      end
  end.

Fixpoint minimax_alphabeta (fuel : nat) (self : t) (depth : Z) (player : Player)
    (alpha beta : Q) (start_time : Q) (w : world) : result (search_result * world) :=
  match fuel with
  | O => Raise RecursionError
  | S fuel =>
      if bool_decide (Some depth = Options.max_depth (options self))
         || is_finished self
      then s ← evaluate self; Ret (Some (s, None), w)
      else
        move_candidates ← move_candidates_for_AI self player;
        let best_heuristic := worst_for player in
        let w := count_evaluations w depth (Z.of_nat (length move_candidates)) in
        if 0 <? Z.of_nat (length move_candidates) then
          '(_, best_move, best_clone_game, w) ←
            alphabeta_loop
              (fun g alpha beta w =>
                 minimax_alphabeta fuel g (depth + 1) (opponent player)
                   alpha beta start_time w)
              self player start_time move_candidates alpha beta
              best_heuristic None None w;
          match best_clone_game with
          | Some g => s ← evaluate g; Ret (Some (s, best_move), w)
          | None => Raise AttributeError
          end
        else Ret (None, w)
  end.

Definition run_algorithm (fuel : nat) (self : t) (player : Player) (start_time : Q)
    (w : world) : result (search_result * world) :=
  if negb (Options.alpha_beta (options self)) then
    minimax fuel self 1 player start_time w
  else
    minimax_alphabeta fuel self 1 player
      (inject_Z MIN_HEURISTIC_SCORE) (inject_Z MAX_HEURISTIC_SCORE) start_time w.

(** What [suggest_move] returns next to the move: the literal timeout
    text, or the summary.  The summary is kept as the quantities the
    source formats into text (number formatting is not modelled). *)
Inductive report : Type :=
| Text (s : string)
| Summary (score : Q) (evals_per_depth : list (Z * Z))
          (percent_per_depth : list (Z * Q)) (total_evals : Z)
          (evals_per_second : option Q) (elapsed_seconds : Q).

(** The timeout loop [for coord,unit in self.player_units(self.next_player)]
    with its [return] inside: the generator is consumed only up to the
    first AI unit of the player.  [None] when the loop runs to its end. *)
Fixpoint forfeit (self : t) (player : Player) (coords : list Coord.t)
  : result (option t) :=
  match coords with
  | [] => Ret None
  | coord :: rest =>
      unit ← get self coord;
      match unit with
      | Some u =>
          if decide (Unit.player u = player) then
            if decide (Unit.type u = AI) then
              self ← mutate self coord (Unit.mod_health u (- Unit.health u));
              Ret (Some self)
            else forfeit self player rest
          else forfeit self player rest
      | None => forfeit self player rest
      end
  end.

Definition sorted_keys (m : gmap Z Z) : list Z :=
  merge_sort Z.le (fst <$> map_to_list m).

Definition suggest_move (fuel : nat) (self : t) (w : world)
  : result (t * world * (option CoordPair.t * report)) :=
  let '(start_time, w) := read_clock w in
  '(r, w) ← run_algorithm fuel self (next_player self) start_time w;
  match r with
  | None => Raise TypeError
  | Some (score, move) =>
      let '(t, w) := read_clock w in
      let elapsed_seconds := (t - start_time)%Q in
      match Options.max_time (options self) with
      | None => Raise TypeError
      | Some max_time =>
          timed_out ←
            (if Qlt_bool max_time elapsed_seconds
             then forfeit self (next_player self) (whole_board self)
             else Ret None);
          match timed_out with
          | Some self => Ret (self, w, (None, Text "Computer timed out!"))
          | None =>
              let total_seconds := (Stats.total_seconds (stats w) + elapsed_seconds)%Q in
              let evals := Stats.evaluations_per_depth (stats w) in
              let w := mk_world (Stats.mk evals total_seconds) (clock_reads w) in
              let per_depth := (fun k => (k, default 0 (evals !! k))) <$> sorted_keys evals in
              let total_evals := foldr Z.add 0 (snd <$> map_to_list evals) in
              percent ← foldM (fun acc '(k, n) =>
                                 q ← true_div (inject_Z n) (inject_Z total_evals);
                                 Ret (acc ++ [(k, q)]))
                              [] per_depth;
              perf ← (if Qlt_bool 0 total_seconds then
                        q ← true_div (inject_Z total_evals) total_seconds;
                        Ret (Some (q / 1000)%Q)
                      else Ret None);
              Ret (self, w, (move, Summary score per_depth percent total_evals perf
                                     elapsed_seconds))
          end
      end
  end.

(** [computer_turn]: the suggested move is played with
    [perform_move_for_AI] and the turn passes; without a move the state
    is left as [suggest_move] left it. *)
Definition computer_turn (fuel : nat) (self : t) (w : world)
  : result (t * world * option CoordPair.t) :=
  '(self, w, (mv, _)) ← suggest_move fuel self w;
  match mv with
  | Some m =>
      '(self, (success, _)) ← perform_move_for_AI self m (next_player self);
      if (success : bool) then Ret (next_turn self, w, mv) else Ret (self, w, mv)
  | None => Ret (self, w, mv)
  end.

End Clock.

End Game.

(** * Specification vocabulary *)

(** The board is a [dim] x [dim] grid. *)
Definition board_wf (g : Game.t) : Prop :=
  length (Game.board g) = Z.to_nat (Options.dim (Game.options g))
  /\ Forall (fun r => length r = Z.to_nat (Options.dim (Game.options g)))
            (Game.board g).

(** Content of a cell, [None] off the board. *)
Definition cell (g : Game.t) (c : Coord.t) : option Unit.t :=
  if Game.is_valid_coord g c then
    match Game.board g !! Z.to_nat (Coord.row c) with
    | Some r => default None (r !! Z.to_nat (Coord.col c))
    | None => None
    end
  else None.

(** The board with one cell overwritten; nothing changes off the board. *)
Definition put (g : Game.t) (c : Coord.t) (u : option Unit.t) : Game.t :=
  if Game.is_valid_coord g c then
    match Game.board g !! Z.to_nat (Coord.row c) with
    | Some r =>
        Game.with_board g
          (<[Z.to_nat (Coord.row c) := <[Z.to_nat (Coord.col c) := u]> r]> (Game.board g))
    | None => g
    end
  else g.

(** Every unit on the board has health between 1 and 9. *)
Definition healthy (g : Game.t) : Prop :=
  forall c u, cell g c = Some u -> 1 <= Unit.health u <= 9.

(** What [Game.mod_health] leaves in a cell: the unit with its health
    changed, or nothing when that health is 0. *)
Definition struck (delta : Z) (o : option Unit.t) : option Unit.t :=
  match o with
  | Some u =>
      let u' := Unit.mod_health u delta in
      if Unit.is_alive u' then Some u' else None
  | None => None
  end.

(** Chebyshev distance at most 1. *)
Definition near (a b : Coord.t) : Prop :=
  Z.abs (Coord.row a - Coord.row b) <= 1 /\ Z.abs (Coord.col a - Coord.col b) <= 1.

(** Some orthogonal neighbour of [c] holds a unit of the other player. *)
Definition enemy_adjacent (g : Game.t) (u : Unit.t) (c : Coord.t) : Prop :=
  exists c' a, c' ∈ Coord.iter_adjacent c /\ cell g c' = Some a
               /\ Unit.player a <> Unit.player u.

(** [g'] has the shape and configuration of [g]. *)
Definition same_frame (g g' : Game.t) : Prop :=
  board_wf g' /\ Game.options g' = Game.options g
  /\ Game.next_player g' = Game.next_player g
  /\ Game.turns_played g' = Game.turns_played g.

(** ** Concrete positions *)

Definition dU (t : UnitType) (h : Z) : option Unit.t := Some (Unit.mk Defender t h).
Definition aU (t : UnitType) (h : Z) : option Unit.t := Some (Unit.mk Attacker t h).

(** The opening position on the default 5x5 board. *)
Definition initial : Game.t :=
  Game.mk
    [ [dU AI 9;       dU Tech 9;    dU Firewall 9; None;          None]
    ; [dU Tech 9;     dU Program 9; None;          None;          None]
    ; [dU Firewall 9; None;         None;          None;          aU Program 9]
    ; [None;          None;         None;          aU Firewall 9; aU Virus 9]
    ; [None;          None;         aU Program 9;  aU Virus 9;    aU AI 9] ]
    Attacker 0 Options.default true true.

(** A sequence of interactive turns. *)
Definition play (g : Game.t) (moves : list CoordPair.t) : result Game.t :=
  foldM (fun g mv => '(g', _) ← Game.human_turn g mv; Ret g') g moves.

Definition step (r c r' c' : Z) : CoordPair.t :=
  CoordPair.mk (Coord.mk r c) (Coord.mk r' c').

(** A position at the turn limit in which the Defender has already lost
    its AI. *)
Definition at_turn_limit : Game.t :=
  Game.mk (Game.board initial) Attacker 100 Options.default true false.

(** Nine turns into a game: the Defender's Program at B1 has an
    Attacker Virus below it, and it is the Defender's turn. *)
Definition opening_moves : list CoordPair.t :=
  [ step 3 3 3 2; step 0 2 0 3; step 4 3 3 3; step 0 3 0 4; step 3 3 2 3;
    step 2 0 3 0; step 2 3 2 2; step 3 0 4 0; step 2 2 2 1 ].

Definition engaged_position : Game.t :=
  Game.mk
    [ [dU AI 9;       dU Tech 9;    None;          None;          dU Firewall 9]
    ; [dU Tech 9;     dU Program 9; None;          None;          None]
    ; [None;          aU Virus 9;   None;          None;          aU Program 9]
    ; [None;          None;         aU Firewall 9; None;          aU Virus 9]
    ; [dU Firewall 9; None;         aU Program 9;  None;          aU AI 9] ]
    Defender 9 Options.default true true.

(** [o], when set, is the coordinate of a unit of player [p] and type [t]. *)
Definition marks (g : Game.t) (p : Player) (t : UnitType) (o : option Coord.t) : Prop :=
  forall c, o = Some c ->
    exists u, cell g c = Some u /\ Unit.player u = p /\ Unit.type u = t.

(** What the scan of [compute_heuristic_e2] has recorded points at units of
    the right kind. *)
Definition e2_locals_ok (g : Game.t) (l : Game.e2_locals) : Prop :=
  marks g Attacker AI (Game.Attacker_AI_coord l)
  /\ marks g Defender AI (Game.Defender_AI_coord l)
  /\ marks g Attacker Virus (Game.Virus_coord_1 l)
  /\ marks g Attacker Virus (Game.Virus_coord_2 l)
  /\ marks g Defender Tech (Game.Tech_coord_1 l)
  /\ marks g Defender Tech (Game.Tech_coord_2 l).

(** Executable form of [healthy]. *)
Definition healthyb (g : Game.t) : bool :=
  forallb (forallb (fun o : option Unit.t =>
                      match o with
                      | Some u => (1 <=? Unit.health u) && (Unit.health u <=? 9)
                      | None => true
                      end))
          (Game.board g).

(** Thirty-two turns of a game that leave the Attacker's AI (health 2) at
    C3 between the Defender's Program (health 2) at B3 and Firewall
    (health 7) at C2, with the Defender's AI (health 5) at A1; the
    Attacker is to move. *)
Definition skirmish : list CoordPair.t :=
  [ step 2 4 2 3; step 2 0 3 0; step 4 2 4 2; step 1 1 1 2;
    step 3 4 3 4; step 3 0 4 0; step 2 3 2 3; step 4 0 4 0;
    step 4 4 3 4; step 1 0 1 1; step 3 3 3 3; step 0 1 0 1;
    step 4 3 4 2; step 1 2 1 3; step 3 4 3 3; step 1 1 1 0;
    step 4 2 4 1; step 0 0 1 0; step 3 3 2 3; step 1 0 1 1;
    step 4 1 4 0; step 0 2 1 2; step 4 0 4 1; step 0 0 0 1;
    step 4 1 3 1; step 1 1 1 2; step 3 1 3 0; step 1 2 2 2;
    step 3 0 2 0; step 1 3 2 3; step 2 0 2 0; step 1 1 1 1 ].

Definition endgame : Game.t :=
  Game.mk
    [ [None; dU AI 5; None;          None;         None]
    ; [None; None;    None;          dU Program 2; None]
    ; [None; None;    dU Firewall 7; aU AI 2;      None]
    ; [None; None;    None;          None;         None]
    ; [None; None;    None;          None;         None] ]
    Attacker 32 Options.default true true.

(** A clock that never advances: no search is ever cut off. *)
Definition frozen_clock : nat -> Q := fun _ => 0%Q.

(** A clock that shows ten more seconds at every reading. *)
Definition slow_clock : nat -> Q := fun k => inject_Z (10 * Z.of_nat k).

Definition fresh_world : Game.world := Game.mk_world Stats.default 0.

(** The value a search returns, without the shared store. *)
Definition answer {A : Type} (r : result (A * Game.world)) : result A :=
  match r with
  | Ret (a, _) => Ret a
  | Raise e => Raise e
  end.

(** [endgame] after the Attacker's AI has struck the Firewall. *)
Definition endgame_after_strike : Game.t :=
  Game.mk
    [ [None; dU AI 5; None;          None;         None]
    ; [None; None;    None;          dU Program 2; None]
    ; [None; None;    dU Firewall 6; aU AI 1;      None]
    ; [None; None;    None;          None;         None]
    ; [None; None;    None;          None;         None] ]
    Attacker 32 Options.default true true.

(** ** Text *)

(** Neither white space nor one of the separators [from_string] drops. *)
Definition plain (c : ascii) : bool :=
  negb (is_space c)
  && forallb (fun sep => negb (Ascii.eqb c sep)) (String.list_ascii_of_string " ,.:;-_").

Definition row_letters : string := "ABCDEFGHIJKLMNOPQRSTUVWXYZ".
Definition col_digits : string := "0123456789abcdef".

(** ** Enumeration and invariants *)

(** The unit of [p] in cell [c], with its coordinate, if there is one. *)
Definition unit_of (g : Game.t) (p : Player) (c : Coord.t) : option (Coord.t * Unit.t) :=
  match cell g c with
  | Some u => if decide (Unit.player u = p) then Some (c, u) else None
  | None => None
  end.

(** The verdict of [is_valid_move_for_AI] as a boolean ([false] when it
    raises). *)
Definition accepts_for_AI (g : Game.t) (p : Player) (m : CoordPair.t) : bool :=
  match Game.is_valid_move_for_AI g m p with
  | Ret b => b
  | Raise _ => false
  end.

(** A self-destruct or a step to an orthogonal neighbour. *)
Definition one_step (m : CoordPair.t) : Prop :=
  CoordPair.dst m = CoordPair.src m
  \/ CoordPair.dst m ∈ Coord.iter_adjacent (CoordPair.src m).

(** Player [p] has an AI on the board. *)
Definition has_ai (g : Game.t) (p : Player) : Prop :=
  exists c u, cell g c = Some u /\ Unit.player u = p /\ Unit.type u = AI.

(** A has-AI flag that is set is backed by an AI on the board. *)
Definition flags_ok (g : Game.t) : Prop :=
  (Game._attacker_has_ai g = true -> has_ai g Attacker)
  /\ (Game._defender_has_ai g = true -> has_ai g Defender).

(** [g'] has the configuration, player to move and turn count of [g], and
    no has-AI flag that [g] lacks. *)
Definition carried (g g' : Game.t) : Prop :=
  Game.options g' = Game.options g
  /\ Game.next_player g' = Game.next_player g
  /\ Game.turns_played g' = Game.turns_played g
  /\ (Game._attacker_has_ai g' = true -> Game._attacker_has_ai g = true)
  /\ (Game._defender_has_ai g' = true -> Game._defender_has_ai g = true).

(** ** Search *)

(** The invariants of play: a [dim] x [dim] board, units of health 1 to 9,
    has-AI flags backed by a unit. *)
Definition position_ok (g : Game.t) : Prop :=
  board_wf g /\ healthy g /\ flags_ok g.

(** A configuration the search can run on with heuristic e0: a depth
    limit [D], a time limit, and a board small enough for every e0 score
    to lie strictly between the two sentinel scores. *)
Definition searchable (D : Z) (g : Game.t) : Prop :=
  Options.max_depth (Game.options g) = Some D
  /\ Options.max_time (Game.options g) <> None
  /\ Options.heuristic (Game.options g) = Some 0
  /\ Options.dim (Game.options g) <= 447.

(** A score strictly between [MIN_HEURISTIC_SCORE] and
    [MAX_HEURISTIC_SCORE]. *)
Definition plausible (z : Z) : Prop :=
  MIN_HEURISTIC_SCORE < z < MAX_HEURISTIC_SCORE.

(** Every depth the statistics mention has a positive count. *)
Definition counts_ok (w : Game.world) : Prop :=
  forall k n, Stats.evaluations_per_depth (Game.stats w) !! k = Some n -> 0 < n.

(** What a node hands to its parent: it returns, with a score between the
    sentinels and statistics that are still positive. *)
Definition answers (r : result (Game.search_result * Game.world)) : Prop :=
  exists z mv w', r = Ret (Some (inject_Z z, mv), w') /\ plausible z /\ counts_ok w'.

(** What the loop of a search node holds in [best_heuristic], [best_move]
    and [best_clone_game]: the sentinel and nothing, or the score, move and
    position of one of the candidates [l] of [g], the position being what
    [perform_move_for_AI] makes of the move. *)
Definition loop_state (D : Z) (g : Game.t) (p : Player) (l : list CoordPair.t)
    (best : Q) (bm : option CoordPair.t) (bc : option Game.t) : Prop :=
  (best = Game.worst_for p /\ bm = None /\ bc = None)
  \/ exists z m child msg,
       best = inject_Z z /\ plausible z /\ bm = Some m /\ bc = Some child
       /\ m ∈ l
       /\ Game.perform_move_for_AI g m p = Ret (child, (true, msg))
       /\ position_ok child /\ searchable D child.

(** The has-AI flag of a player. *)
Definition flag (g : Game.t) (p : Player) : bool :=
  match p with
  | Attacker => Game._attacker_has_ai g
  | Defender => Game._defender_has_ai g
  end.

(** The flags say exactly who has an AI on the board, and nobody has
    two. *)
Definition ai_exact (g : Game.t) : Prop :=
  (forall p, flag g p = true <-> has_ai g p)
  /\ (forall c c' u u',
        cell g c = Some u -> cell g c' = Some u' ->
        Unit.type u = AI -> Unit.type u' = AI -> Unit.player u = Unit.player u' ->
        c = c').

(** The turn limit has been reached. *)
Definition out_of_turns (g : Game.t) : Prop :=
  exists max_turns,
    Options.max_turns (Game.options g) = Some max_turns
    /\ max_turns <= Game.turns_played g.

(** The verdict of [is_valid_move] as a boolean ([false] when it raises). *)
Definition accepts (g : Game.t) (m : CoordPair.t) : bool :=
  match Game.is_valid_move g m with
  | Ret b => b
  | Raise _ => false
  end.

(** The window of an alpha-beta node whose children are all leaves: the
    bound of the other player is still the sentinel the root started
    with, and the window is not empty. *)
Definition window_open (p : Player) (alpha beta : Q) : Prop :=
  exists a b, alpha = inject_Z a /\ beta = inject_Z b /\ a < b
              /\ (p = Attacker -> b = MAX_HEURISTIC_SCORE)
              /\ (p = Defender -> a = MIN_HEURISTIC_SCORE).

(** A best score that is the sentinel of the player or a score between
    the sentinels. *)
Definition best_so_far (p : Player) (best : Q) : Prop :=
  exists z, best = inject_Z z
            /\ (p = Attacker -> z < MAX_HEURISTIC_SCORE)
            /\ (p = Defender -> MIN_HEURISTIC_SCORE < z).

(** The opening position of a game configured with a depth limit of 2. *)
Definition shallow_opening : Game.t :=
  Game.mk (Game.board initial) Attacker 0
    (Options.mk 5 (Some 2) (Some 2) (Some 5%Q) AttackerVsDefender true (Some 100) true
       None (Some 0))
    true true.

(** The clock never reaches the time cutoff of the search. *)
Definition quiet (now : nat -> Q) (start_time : Q) (g : Game.t) : Prop :=
  forall w, exists w', Game.cutoff now g start_time w = Ret (false, w').

(** The score a player's [best_heuristic] starts from. *)
Definition sentinel (p : Player) : Z :=
  match p with
  | Attacker => MIN_HEURISTIC_SCORE
  | Defender => MAX_HEURISTIC_SCORE
  end.

(** In a node whose children are leaves, [best_clone_game] is a position
    whose score is [best_heuristic]. *)
Definition linked (p : Player) (z : Z) (bc : option Game.t) : Prop :=
  match bc with
  | Some child => Game.evaluate child = Ret (inject_Z z) /\ plausible z
  | None => z = sentinel p
  end.

(** The recursive calls of a node whose children are leaves: both
    searches answer with the score of the child and no move. *)
Definition over_leaves (D : Z)
    (recur_m : Game.t -> Game.world -> result (Game.search_result * Game.world))
    (recur_ab : Game.t -> Q -> Q -> Game.world ->
                result (Game.search_result * Game.world)) : Prop :=
  forall child, board_wf child -> searchable D child ->
    exists z, plausible z /\ Game.evaluate child = Ret (inject_Z z)
              /\ (forall w, recur_m child w = Ret (Some (inject_Z z, None), w))
              /\ (forall alpha beta w,
                     recur_ab child alpha beta w = Ret (Some (inject_Z z, None), w)).

(** The window of a node one level above the leaves: the player's own
    bound follows [best_heuristic] (score [zb]), the other bound [k] is
    the one the root handed down, and the window is not empty. *)
Definition window_above_leaves (p : Player) (k zb : Z) (alpha beta : Q) : Prop :=
  match p with
  | Defender => alpha = inject_Z k /\ beta = inject_Z zb /\ k < zb
  | Attacker => beta = inject_Z k /\ alpha = inject_Z zb /\ zb < k
  end.

(** The score [za] of an alpha-beta node one level above the leaves
    against the score [zm] of plain minimax: equal, or both beyond the
    bound [k] of the root. *)
Definition cut_or_equal (p : Player) (k zm za : Z) : Prop :=
  match p with
  | Defender => zm <= k /\ za <= k \/ k < zm /\ za = zm
  | Attacker => k <= zm /\ k <= za \/ zm < k /\ za = zm
  end.

(** The window of a root above such nodes. *)
Definition window_at_root (p : Player) (zb : Z) (alpha beta : Q) : Prop :=
  match p with
  | Attacker => alpha = inject_Z zb /\ beta = inject_Z MAX_HEURISTIC_SCORE
                /\ zb < MAX_HEURISTIC_SCORE
  | Defender => beta = inject_Z zb /\ alpha = inject_Z MIN_HEURISTIC_SCORE
                /\ MIN_HEURISTIC_SCORE < zb
  end.

(** The recursive calls of a root whose children are one level above the
    leaves, the player of the children being [o]. *)
Definition over_nodes (now : nat -> Q) (start_time : Q) (D : Z) (o : Player)
    (recur_m : Game.t -> Game.world -> result (Game.search_result * Game.world))
    (recur_ab : Game.t -> Q -> Q -> Game.world ->
                result (Game.search_result * Game.world)) : Prop :=
  forall child k alpha beta wm wa,
    position_ok child -> searchable D child -> quiet now start_time child ->
    window_above_leaves o k (sentinel o) alpha beta ->
    exists zm za mm ma wm' wa',
      recur_m child wm = Ret (Some (inject_Z zm, mm), wm')
      /\ recur_ab child alpha beta wa = Ret (Some (inject_Z za, ma), wa')
      /\ plausible zm /\ plausible za /\ cut_or_equal o k zm za.

(** The opening position of a game configured with a depth limit of 3. *)
Definition depth_three_opening : Game.t :=
  Game.mk (Game.board initial) Attacker 0
    (Options.mk 5 (Some 3) (Some 2) (Some 5%Q) AttackerVsDefender true (Some 100) true
       None (Some 0))
    true true.

(** The neighbours of the source that the generator of [is_valid_move]
    still holds once the membership test has found the destination. *)
Definition later_neighbours (m : CoordPair.t) : list Coord.t :=
  (gen_contains (CoordPair.dst m) (Coord.iter_adjacent (CoordPair.src m))).2.


(** A broker is configured: the moves of the human players come from
    it. *)
Definition via_broker (g : Game.t) : bool :=
  match Options.broker (Game.options g) with
  | Some _ => true
  | None => false
  end.

(** * Properties *)

(** ** Result monad and indexing *)

Lemma bind_Ret_inv {A B : Type} (m : result A) (f : A -> result B) (b : B) :
  m ≫= f = Ret b -> exists a, m = Ret a /\ f a = Ret b.
Proof. destruct m as [a|e]; [|done]. intros H. by exists a. Qed.

Lemma py_index_lookup {A : Type} (l : list A) (i : Z) :
  0 <= i < Z.of_nat (length l) ->
  exists x, l !! Z.to_nat i = Some x /\ py_index l i = Ret x.
Proof.
  intros Hi. unfold py_index.
  destruct (Z.ltb_spec i 0) as [?|_]; [lia|].
  destruct (Z.ltb_spec i 0) as [?|_]; [lia|].
  destruct (Z.leb_spec (Z.of_nat (length l)) i) as [?|_]; [lia|]. simpl.
  destruct (lookup_lt_is_Some_2 l (Z.to_nat i)) as [x Hx]; [lia|].
  exists x. by rewrite Hx.
Qed.

Lemma py_store_insert {A : Type} (l : list A) (i : Z) (x : A) :
  0 <= i < Z.of_nat (length l) ->
  py_store l i x = Ret (<[Z.to_nat i := x]> l).
Proof.
  intros Hi. unfold py_store.
  destruct (Z.ltb_spec i 0) as [?|_]; [lia|].
  destruct (Z.ltb_spec i 0) as [?|_]; [lia|].
  by destruct (Z.leb_spec (Z.of_nat (length l)) i) as [?|_]; [lia|].
Qed.

Lemma is_valid_coord_spec (g : Game.t) (c : Coord.t) :
  Game.is_valid_coord g c = true <->
  0 <= Coord.row c < Options.dim (Game.options g)
  /\ 0 <= Coord.col c < Options.dim (Game.options g).
Proof.
  unfold Game.is_valid_coord.
  destruct (Z.ltb_spec (Coord.row c) 0), (Z.leb_spec (Options.dim (Game.options g)) (Coord.row c)),
    (Z.ltb_spec (Coord.col c) 0), (Z.leb_spec (Options.dim (Game.options g)) (Coord.col c));
    simpl; split; (lia || congruence || auto).
Qed.

Lemma wf_row (g : Game.t) (c : Coord.t) :
  board_wf g -> Game.is_valid_coord g c = true ->
  exists r, Game.board g !! Z.to_nat (Coord.row c) = Some r
            /\ length r = Z.to_nat (Options.dim (Game.options g)).
Proof.
  intros [Hlen Hrows] [Hr Hc]%is_valid_coord_spec.
  destruct (lookup_lt_is_Some_2 (Game.board g) (Z.to_nat (Coord.row c))) as [r Hrow]; [lia|].
  exists r. split; [done|].
  rewrite Forall_lookup in Hrows. by eapply Hrows.
Qed.

Lemma get_cell (g : Game.t) (c : Coord.t) :
  board_wf g -> Game.get g c = Ret (cell g c).
Proof.
  intros Hwf. unfold Game.get, cell.
  destruct (Game.is_valid_coord g c) eqn:Hv; [|done].
  destruct (wf_row g c Hwf Hv) as (r & Hrow & Hlen).
  pose proof Hv as [Hr Hc]%is_valid_coord_spec. destruct Hwf as [Hb _].
  destruct (py_index_lookup (Game.board g) (Coord.row c)) as (r' & Hr' & ->); [lia|].
  simpl. rewrite Hrow in Hr'. injection Hr' as <-. rewrite Hrow.
  destruct (py_index_lookup r (Coord.col c)) as (x & Hx & ->); [lia|].
  by rewrite Hx.
Qed.

Lemma set_put (g : Game.t) (c : Coord.t) (u : option Unit.t) :
  board_wf g -> Game.set g c u = Ret (put g c u).
Proof.
  intros Hwf. unfold Game.set, put.
  destruct (Game.is_valid_coord g c) eqn:Hv; [|done].
  destruct (wf_row g c Hwf Hv) as (r & Hrow & Hlen).
  pose proof Hv as [Hr Hc]%is_valid_coord_spec. destruct Hwf as [Hb _].
  destruct (py_index_lookup (Game.board g) (Coord.row c)) as (r' & Hr' & ->); [lia|].
  simpl. rewrite Hrow in Hr'. injection Hr' as <-. rewrite Hrow.
  rewrite py_store_insert by lia. simpl.
  by rewrite py_store_insert by lia.
Qed.

(** ** Cells of an updated board *)

Lemma put_options (g : Game.t) (c : Coord.t) (u : option Unit.t) :
  Game.options (put g c u) = Game.options g
  /\ Game.next_player (put g c u) = Game.next_player g
  /\ Game.turns_played (put g c u) = Game.turns_played g
  /\ Game._attacker_has_ai (put g c u) = Game._attacker_has_ai g
  /\ Game._defender_has_ai (put g c u) = Game._defender_has_ai g.
Proof.
  unfold put. destruct (Game.is_valid_coord g c); [|done].
  by destruct (Game.board g !! Z.to_nat (Coord.row c)).
Qed.

Lemma put_valid (g : Game.t) (c c' : Coord.t) (u : option Unit.t) :
  Game.is_valid_coord (put g c u) c' = Game.is_valid_coord g c'.
Proof.
  unfold Game.is_valid_coord. by destruct (put_options g c u) as (-> & _).
Qed.

Lemma put_wf (g : Game.t) (c : Coord.t) (u : option Unit.t) :
  board_wf g -> board_wf (put g c u).
Proof.
  intros Hwf. pose proof Hwf as [Hlen Hrows]. unfold board_wf.
  destruct (put_options g c u) as (-> & _). unfold put.
  destruct (Game.is_valid_coord g c) eqn:Hv; [|done].
  destruct (wf_row g c Hwf Hv) as (r & -> & Hr). simpl.
  rewrite length_insert. split; [done|].
  apply Forall_insert; [done|]. by rewrite length_insert.
Qed.

Lemma cell_invalid (g : Game.t) (c : Coord.t) :
  Game.is_valid_coord g c = false -> cell g c = None.
Proof. intros H. unfold cell. by rewrite H. Qed.

Lemma cell_Some_valid (g : Game.t) (c : Coord.t) (u : Unit.t) :
  cell g c = Some u -> Game.is_valid_coord g c = true.
Proof.
  intros H. destruct (Game.is_valid_coord g c) eqn:Hv; [done|].
  by rewrite cell_invalid in H.
Qed.

Lemma cell_put_eq (g : Game.t) (c : Coord.t) (u : option Unit.t) :
  board_wf g -> Game.is_valid_coord g c = true -> cell (put g c u) c = u.
Proof.
  intros Hwf Hv. unfold cell. rewrite put_valid, Hv. unfold put. rewrite Hv.
  destruct (wf_row g c Hwf Hv) as (r & Hrow & Hr). rewrite Hrow. simpl.
  pose proof Hv as [? ?]%is_valid_coord_spec. destruct Hwf as [Hlen _].
  rewrite list_lookup_insert_eq by lia.
  by rewrite list_lookup_insert_eq by lia.
Qed.

Lemma cell_put_ne (g : Game.t) (c c' : Coord.t) (u : option Unit.t) :
  c <> c' -> cell (put g c u) c' = cell g c'.
Proof.
  intros Hne. unfold cell. rewrite put_valid.
  destruct (Game.is_valid_coord g c') eqn:Hv'; [|done].
  unfold put. destruct (Game.is_valid_coord g c) eqn:Hv; [|done].
  destruct (Game.board g !! Z.to_nat (Coord.row c)) as [r|] eqn:Hrow; [|done].
  simpl.
  apply is_valid_coord_spec in Hv as [? ?]. apply is_valid_coord_spec in Hv' as [? ?].
  destruct (decide (Coord.row c = Coord.row c')) as [Heq|Hrne].
  - rewrite <- Heq. rewrite list_lookup_insert_eq by (by eapply lookup_lt_Some).
    rewrite Hrow. rewrite list_lookup_insert_ne; [done|].
    intros Hcol. apply Hne. destruct c, c'; simpl in *. f_equal; lia.
  - rewrite list_lookup_insert_ne by lia. done.
Qed.

Lemma cell_put (g : Game.t) (c c' : Coord.t) (u : option Unit.t) :
  board_wf g -> Game.is_valid_coord g c = true ->
  cell (put g c u) c' = if decide (c' = c) then u else cell g c'.
Proof.
  intros Hwf Hv. destruct (decide (c' = c)) as [->|Hne].
  - by apply cell_put_eq.
  - by apply cell_put_ne.
Qed.

Lemma cell_flags (g : Game.t) (c : Coord.t) (f : bool) :
  cell (Game.with_attacker_has_ai g f) c = cell g c
  /\ cell (Game.with_defender_has_ai g f) c = cell g c.
Proof. done. Qed.

(** ** Removal and health changes on the board *)

Lemma same_frame_valid (g g' : Game.t) (c : Coord.t) :
  same_frame g g' -> Game.is_valid_coord g' c = Game.is_valid_coord g c.
Proof. intros (_ & Ho & _). unfold Game.is_valid_coord. by rewrite Ho. Qed.

Lemma same_frame_refl (g : Game.t) : board_wf g -> same_frame g g.
Proof. by intros. Qed.

Lemma same_frame_trans (g1 g2 g3 : Game.t) :
  same_frame g1 g2 -> same_frame g2 g3 -> same_frame g1 g3.
Proof.
  intros (? & ? & ? & ?) (? & ? & ? & ?).
  split; [done|]. repeat split; congruence.
Qed.

Lemma same_frame_put (g : Game.t) (c : Coord.t) (u : option Unit.t) :
  board_wf g -> same_frame g (put g c u).
Proof.
  intros Hwf. destruct (put_options g c u) as (? & ? & ? & _).
  repeat split; try done. by apply put_wf. by apply put_wf.
Qed.

Lemma remove_dead_spec (g : Game.t) (c : Coord.t) :
  board_wf g ->
  exists g', Game.remove_dead g c = Ret g' /\ same_frame g g'
    /\ cell g' c = match cell g c with
                   | Some u => if Unit.is_alive u then Some u else None
                   | None => None
                   end
    /\ forall c', c' <> c -> cell g' c' = cell g c'.
Proof.
  intros Hwf. unfold Game.remove_dead. rewrite get_cell by done. simpl.
  destruct (cell g c) as [u|] eqn:Hc.
  2:{ exists g. by split_and!. }
  destruct (Unit.is_alive u) eqn:Halive; simpl.
  { exists g. by split_and!. }
  rewrite set_put by done. simpl.
  pose proof (cell_Some_valid _ _ _ Hc) as Hv.
  pose proof (same_frame_put g c None Hwf) as Hsf.
  assert (forall g1, (g1 = Game.with_attacker_has_ai (put g c None) false
                      \/ g1 = Game.with_defender_has_ai (put g c None) false
                      \/ g1 = put g c None) ->
            same_frame g g1 /\ cell g1 c = None
            /\ forall c', c' <> c -> cell g1 c' = cell g c') as Hall.
  { intros g1 Hg1. assert (forall c', cell g1 c' = cell (put g c None) c') as Hcell
      by (by destruct Hg1 as [-> | [-> | ->]]).
    split; [|split].
    - destruct Hsf as ((? & ?) & ? & ? & ?). by destruct Hg1 as [-> | [-> | ->]].
    - rewrite Hcell. by apply cell_put_eq.
    - intros c' Hne. rewrite Hcell. by apply cell_put_ne. }
  destruct (decide (Unit.type u = AI)); [destruct (decide (Unit.player u = Attacker))|];
    eexists; (split; [reflexivity|]); apply Hall; auto.
Qed.

Lemma mod_health_spec (g : Game.t) (c : Coord.t) (delta : Z) :
  board_wf g ->
  exists g', Game.mod_health g c delta = Ret g' /\ same_frame g g'
    /\ cell g' c = struck delta (cell g c)
    /\ forall c', c' <> c -> cell g' c' = cell g c'.
Proof.
  intros Hwf. unfold Game.mod_health. rewrite get_cell by done. simpl.
  destruct (cell g c) as [u|] eqn:Hc.
  2:{ exists g. by split_and!. }
  unfold Game.mutate. rewrite set_put by done. simpl.
  pose proof (cell_Some_valid _ _ _ Hc) as Hv.
  destruct (remove_dead_spec (put g c (Some (Unit.mod_health u delta))) c)
    as (g' & -> & Hsf & Hc' & Hother); [by apply put_wf|].
  exists g'. split; [done|]. split; [|split].
  - eapply same_frame_trans; [by apply same_frame_put|done].
  - rewrite Hc', cell_put_eq by done. done.
  - intros c' Hne. rewrite Hother by done. by apply cell_put_ne.
Qed.

(** ** Unit model *)

Lemma entry_nonneg (a b : UnitType) :
  0 <= Unit.entry Unit.damage_table a b /\ 0 <= Unit.entry Unit.repair_table a b.
Proof. destruct a, b; vm_compute; split; discriminate. Qed.

(** The two amounts are the table entries capped by what the target has,
    resp. lacks. *)
Lemma amounts_as_min (a b : Unit.t) :
  Unit.damage_amount a b
    = Z.min (Unit.entry Unit.damage_table (Unit.type a) (Unit.type b)) (Unit.health b)
  /\ Unit.repair_amount a b
    = Z.min (Unit.entry Unit.repair_table (Unit.type a) (Unit.type b)) (9 - Unit.health b).
Proof.
  unfold Unit.damage_amount, Unit.repair_amount.
  set (d := Unit.entry Unit.damage_table _ _).
  set (r := Unit.entry Unit.repair_table _ _).
  destruct (Z.ltb_spec (Unit.health b - d) 0), (Z.ltb_spec 9 (Unit.health b + r)); lia.
Qed.

(** C10.  [damage_amount] is the damage-table entry unless that exceeds the
    target's health, in which case it is the target's health;
    [repair_amount] is the repair-table entry unless the target's health
    plus the entry exceeds 9, in which case it is 9 minus the target's
    health.  Hence neither amount takes the target's health below 0 or
    above 9. *)
Theorem damage_repair_amount_capped (a b : Unit.t) :
  Unit.damage_amount a b
    = (if decide (Unit.health b
                  < Unit.entry Unit.damage_table (Unit.type a) (Unit.type b))
       then Unit.health b
       else Unit.entry Unit.damage_table (Unit.type a) (Unit.type b))
  /\ Unit.repair_amount a b
    = (if decide (9 < Unit.health b
                      + Unit.entry Unit.repair_table (Unit.type a) (Unit.type b))
       then 9 - Unit.health b
       else Unit.entry Unit.repair_table (Unit.type a) (Unit.type b))
  /\ 0 <= Unit.health b - Unit.damage_amount a b
  /\ Unit.health b + Unit.repair_amount a b <= 9.
Proof.
  destruct (amounts_as_min a b) as [-> ->].
  repeat case_decide; lia.
Qed.

Lemma initial_is_new : Game.new Options.default = Ret initial.
Proof. reflexivity. Qed.

Lemma initial_wf : board_wf initial.
Proof. split; [done|]. repeat constructor. Qed.

(** ** End of game *)

(** C8.  Once [turns_played] has reached [max_turns] the winner is the
    Defender and the game is finished, whatever the board and the
    has-AI flags are. *)
Theorem turn_limit_defender_wins (g : Game.t) (max_turns : Z) :
  Options.max_turns (Game.options g) = Some max_turns ->
  max_turns <= Game.turns_played g ->
  Game.has_winner g = Some Defender /\ Game.is_finished g = true.
Proof.
  intros Hmax Hturns. unfold Game.is_finished, Game.has_winner. rewrite Hmax.
  by destruct (Z.leb_spec max_turns (Game.turns_played g)); [|lia].
Qed.

Lemma turn_limit_defender_wins_witness :
  Game._defender_has_ai at_turn_limit = false
  /\ Game.has_winner at_turn_limit = Some Defender
  /\ Game.is_finished at_turn_limit = true.
Proof.
  split; [reflexivity|].
  apply (turn_limit_defender_wins at_turn_limit 100); [reflexivity|simpl; lia].
Defined.

(** ** Move legality *)

Lemma get_Some_valid (g : Game.t) (c : Coord.t) (u : Unit.t) :
  Game.get g c = Ret (Some u) -> Game.is_valid_coord g c = true.
Proof.
  unfold Game.get. by destruct (Game.is_valid_coord g c).
Qed.

Lemma elem_of_iter_adjacent (s d : Coord.t) :
  d ∈ Coord.iter_adjacent s <->
  d = Coord.mk (Coord.row s - 1) (Coord.col s)
  \/ d = Coord.mk (Coord.row s) (Coord.col s - 1)
  \/ d = Coord.mk (Coord.row s + 1) (Coord.col s)
  \/ d = Coord.mk (Coord.row s) (Coord.col s + 1).
Proof.
  unfold Coord.iter_adjacent. rewrite !elem_of_cons, elem_of_nil. tauto.
Qed.

Lemma adjacent_ne (s d : Coord.t) : d ∈ Coord.iter_adjacent s -> s <> d.
Proof.
  intros [-> | [-> | [-> | ->]]]%elem_of_iter_adjacent; destruct s as [r c];
    simpl; intros [=]; lia.
Qed.

Lemma gen_contains_found (x : Coord.t) (gen : list Coord.t) :
  (gen_contains x gen).1 = true <-> x ∈ gen.
Proof.
  induction gen as [|y gen IH]; simpl.
  - split; [done|]. by intros ?%elem_of_nil.
  - rewrite elem_of_cons. destruct (decide (y = x)) as [->|Hne]; simpl.
    + by split; [left|].
    + rewrite IH. split; [by right|]. by intros [-> | ].
Qed.

(** What the generator still holds after the membership test is a suffix
    of what it held. *)
Lemma gen_contains_suffix (x : Coord.t) (gen : list Coord.t) :
  (gen_contains x gen).2 `suffix_of` gen.
Proof.
  induction gen as [|y gen IH]; simpl; [done|].
  destruct (decide (y = x)); simpl.
  - by apply suffix_cons_r.
  - by apply suffix_cons_r.
Qed.

#[local] Opaque gen_contains Coord.iter_adjacent.

(** The friendly-target branch, shared by both predicates. *)
Lemma friendly_target_legality (g : Game.t) (coords : CoordPair.t) (unit target : Unit.t) :
  Game.get g (CoordPair.src coords) = Ret (Some unit) ->
  Game.get g (CoordPair.dst coords) = Ret (Some target) ->
  CoordPair.dst coords ∈ Coord.iter_adjacent (CoordPair.src coords) ->
  Unit.player target = Unit.player unit ->
  Game.is_valid_move_for_AI g coords (Unit.player unit)
    = Ret (0 <? Unit.repair_amount unit target)
  /\ (Game.next_player g = Unit.player unit ->
      Game.is_valid_move g coords = Ret (0 <? Unit.repair_amount unit target)).
Proof.
  intros Hsrc Hdst Hadj Hfriend.
  pose proof (get_Some_valid _ _ _ Hsrc) as Hvs.
  pose proof (get_Some_valid _ _ _ Hdst) as Hvd.
  pose proof (adjacent_ne _ _ Hadj) as Hne.
  assert ((if bool_decide (Unit.player target = Unit.player unit)
              && (0 <? Unit.repair_amount unit target)
           then Ret true
           else if decide (Unit.player target <> Unit.player unit) then Ret true
                else Ret false)
          = Ret (0 <? Unit.repair_amount unit target)) as Hbranch.
  { rewrite bool_decide_eq_true_2 by done. simpl.
    destruct (0 <? Unit.repair_amount unit target); [done|].
    by destruct (decide (Unit.player target <> Unit.player unit)). }
  split.
  - unfold Game.is_valid_move_for_AI. rewrite Hvs, Hvd, Hsrc. simpl.
    destruct (decide (Unit.player unit <> Unit.player unit)); [done|].
    destruct (decide (CoordPair.src coords = CoordPair.dst coords)); [done|].
    rewrite Hdst. simpl. exact Hbranch.
  - intros Hturn. unfold Game.is_valid_move. rewrite Hvs, Hvd, Hsrc. simpl.
    destruct (decide (Unit.player unit <> Game.next_player g)); [congruence|].
    destruct (decide (CoordPair.src coords = CoordPair.dst coords)); [done|].
    apply gen_contains_found in Hadj.
    destruct (gen_contains _ _) as [found rest]. simpl in Hadj. subst found. simpl.
    rewrite Hdst. simpl. exact Hbranch.
Qed.

(** C6, as the code has it.  A move onto an adjacent friendly unit is legal
    if and only if the acting unit's repair-table entry for the target's
    type is positive and the target's health is below 9; both predicates
    agree. *)
Theorem repair_legal_iff_can_heal (g : Game.t) (coords : CoordPair.t) (unit target : Unit.t) :
  Game.get g (CoordPair.src coords) = Ret (Some unit) ->
  Game.get g (CoordPair.dst coords) = Ret (Some target) ->
  CoordPair.dst coords ∈ Coord.iter_adjacent (CoordPair.src coords) ->
  Unit.player target = Unit.player unit ->
  Game.next_player g = Unit.player unit ->
  exists legal : bool,
    Game.is_valid_move g coords = Ret legal
    /\ Game.is_valid_move_for_AI g coords (Unit.player unit) = Ret legal
    /\ (legal = true <->
        0 < Unit.entry Unit.repair_table (Unit.type unit) (Unit.type target)
        /\ Unit.health target < 9).
Proof.
  intros Hsrc Hdst Hadj Hfriend Hturn.
  destruct (friendly_target_legality g coords unit target) as [HAI Hhuman]; try done.
  exists (0 <? Unit.repair_amount unit target). split_and!; [by apply Hhuman|done|].
  destruct (amounts_as_min unit target) as (_ & ->).
  rewrite Z.ltb_lt. lia.
Qed.

Lemma repair_legal_iff_can_heal_witness :
  exists legal : bool,
    Game.is_valid_move initial (CoordPair.mk (Coord.mk 4 4) (Coord.mk 3 4)) = Ret legal
    /\ Game.is_valid_move_for_AI initial (CoordPair.mk (Coord.mk 4 4) (Coord.mk 3 4))
         Attacker = Ret legal
    /\ (legal = true <->
        0 < Unit.entry Unit.repair_table AI Virus /\ 9 < 9).
Proof.
  apply (repair_legal_iff_can_heal initial
           (CoordPair.mk (Coord.mk 4 4) (Coord.mk 3 4))
           (Unit.mk Attacker AI 9) (Unit.mk Attacker Virus 9));
    [reflexivity|reflexivity|apply elem_of_iter_adjacent; vm_compute; tauto|reflexivity|reflexivity].
Defined.

(** C6 as stated fails: in the opening position the Attacker's AI stands
    next to its own Virus; the AI's repair-table entry for a Virus is 1,
    yet the move is illegal because the Virus is at full health. *)
Lemma repair_legal_iff_table_entry_counterexample :
  ~ (forall (g : Game.t) (coords : CoordPair.t) (unit target : Unit.t),
       Game.get g (CoordPair.src coords) = Ret (Some unit) ->
       Game.get g (CoordPair.dst coords) = Ret (Some target) ->
       CoordPair.dst coords ∈ Coord.iter_adjacent (CoordPair.src coords) ->
       Unit.player target = Unit.player unit ->
       Game.next_player g = Unit.player unit ->
       (Game.is_valid_move g coords = Ret true <->
        0 < Unit.entry Unit.repair_table (Unit.type unit) (Unit.type target))
       /\ (Game.is_valid_move_for_AI g coords (Unit.player unit) = Ret true <->
           0 < Unit.entry Unit.repair_table (Unit.type unit) (Unit.type target))).
Proof.
  intros H.
  destruct (H initial (CoordPair.mk (Coord.mk 4 4) (Coord.mk 3 4))
              (Unit.mk Attacker AI 9) (Unit.mk Attacker Virus 9)) as [[_ Hlegal] _];
    [reflexivity|reflexivity|apply elem_of_iter_adjacent; vm_compute; tauto|reflexivity|reflexivity|].
  assert (Game.is_valid_move initial (CoordPair.mk (Coord.mk 4 4) (Coord.mk 3 4))
          = Ret false) as Hcode by reflexivity.
  rewrite Hcode in Hlegal. by discriminate Hlegal.
Qed.

Lemma engaged_spec (g : Game.t) (u : Unit.t) (cs : list Coord.t) :
  board_wf g ->
  exists b : bool, Game.engaged g u cs = Ret b
    /\ (b = true <->
        exists c a, c ∈ cs /\ cell g c = Some a /\ Unit.player a <> Unit.player u).
Proof.
  intros Hwf. induction cs as [|c cs (b & IH & Hb)]; simpl.
  - exists false. split; [done|]. split; [done|].
    by intros (c & a & ?%elem_of_nil & _).
  - rewrite get_cell by done. simpl.
    destruct (cell g c) as [a|] eqn:Hc.
    + destruct (decide (Unit.player a <> Unit.player u)) as [Henemy|Hfriend].
      * exists true. split; [done|]. split; [|done]. intros _.
        exists c, a. split; [by left|done].
      * exists b. split; [done|]. rewrite Hb. split.
        -- intros (c' & a' & Hin & Hrest). exists c', a'. split; [by right|done].
        -- intros (c' & a' & [-> | Hin]%elem_of_cons & Hc' & Hpl).
           ++ rewrite Hc in Hc'. by injection Hc' as <-.
           ++ by exists c', a'.
    + exists b. split; [done|]. rewrite Hb. split.
      * intros (c' & a' & Hin & Hrest). exists c', a'. split; [by right|done].
      * intros (c' & a' & [-> | Hin]%elem_of_cons & Hc' & Hpl).
        -- by rewrite Hc in Hc'.
        -- by exists c', a'.
Qed.

Lemma advances_spec (u : Unit.t) (coords : CoordPair.t) :
  Game.advances u coords = true <->
  let s := CoordPair.src coords in
  let d := CoordPair.dst coords in
  (Unit.player u = Attacker
   /\ (d = Coord.mk (Coord.row s - 1) (Coord.col s)
       \/ d = Coord.mk (Coord.row s) (Coord.col s - 1)))
  \/ (Unit.player u = Defender
      /\ (d = Coord.mk (Coord.row s + 1) (Coord.col s)
          \/ d = Coord.mk (Coord.row s) (Coord.col s + 1))).
Proof.
  unfold Game.advances. simpl.
  destruct (decide (Unit.player u = Attacker)) as [Hp|Hp].
  - match goal with |- (if ?b then _ else _) = _ <-> _ =>
      destruct b eqn:Hb end.
    + apply orb_true_iff in Hb. rewrite !bool_decide_eq_true in Hb.
      split; [by left|done].
    + apply orb_false_iff in Hb. rewrite !bool_decide_eq_false in Hb.
      split; [done|]. intros [[_ [?|?]]|[? _]]; [tauto|tauto|congruence].
  - assert (Unit.player u = Defender) as Hd by (by destruct (Unit.player u)).
    match goal with |- (if ?b then _ else _) = _ <-> _ =>
      destruct b eqn:Hb end.
    + apply orb_true_iff in Hb. rewrite !bool_decide_eq_true in Hb.
      split; [by right|done].
    + apply orb_false_iff in Hb. rewrite !bool_decide_eq_false in Hb.
      split; [done|]. intros [[? _]|[_ [?|?]]]; [congruence|tauto|tauto].
Qed.

(** The search-side predicate implements the engagement rule: onto an
    empty cell, a unit other than Tech or Virus may move exactly when no
    orthogonal neighbour holds an enemy and the step is an advance of its
    faction. *)
Lemma is_valid_move_for_AI_empty_target (g : Game.t) (coords : CoordPair.t) (unit : Unit.t) :
  board_wf g ->
  cell g (CoordPair.src coords) = Some unit ->
  Game.is_valid_coord g (CoordPair.dst coords) = true ->
  cell g (CoordPair.dst coords) = None ->
  Unit.type unit <> Tech -> Unit.type unit <> Virus ->
  exists legal : bool,
    Game.is_valid_move_for_AI g coords (Unit.player unit) = Ret legal
    /\ (legal = true <->
        ~ enemy_adjacent g unit (CoordPair.src coords)
        /\ Game.advances unit coords = true).
Proof.
  intros Hwf Hsrc Hvd Hdst HTech HVirus.
  pose proof (cell_Some_valid _ _ _ Hsrc) as Hvs.
  assert (CoordPair.src coords <> CoordPair.dst coords) as Hne by congruence.
  unfold Game.is_valid_move_for_AI. rewrite Hvs, Hvd, !get_cell, Hsrc by done. simpl.
  destruct (decide (Unit.player unit <> Unit.player unit)); [done|].
  destruct (decide (CoordPair.src coords = CoordPair.dst coords)); [done|].
  rewrite Hdst. rewrite !bool_decide_eq_false_2 by done. simpl.
  destruct (engaged_spec g unit (Coord.iter_adjacent (CoordPair.src coords)) Hwf)
    as (e & -> & He). simpl.
  fold (enemy_adjacent g unit (CoordPair.src coords)) in He.
  destruct e.
  - exists false. split; [done|]. split; [done|]. intros [Hfree _]. exfalso. apply Hfree. by apply He.
  - exists (Game.advances unit coords). split; [done|].
    split; [|tauto]. intros Hadv. split; [|done]. intros Hen. by apply He in Hen.
Qed.

(** The interactive predicate runs its engagement loop on what is left of
    the neighbour generator after the adjacency test; without an enemy
    neighbour it agrees with the rule. *)
Lemma is_valid_move_empty_target (g : Game.t) (coords : CoordPair.t) (unit : Unit.t) :
  board_wf g ->
  cell g (CoordPair.src coords) = Some unit ->
  Game.next_player g = Unit.player unit ->
  CoordPair.dst coords ∈ Coord.iter_adjacent (CoordPair.src coords) ->
  Game.is_valid_coord g (CoordPair.dst coords) = true ->
  cell g (CoordPair.dst coords) = None ->
  Unit.type unit <> Tech -> Unit.type unit <> Virus ->
  exists legal : bool,
    Game.is_valid_move g coords = Ret legal
    /\ (legal = true -> Game.advances unit coords = true)
    /\ (~ enemy_adjacent g unit (CoordPair.src coords) ->
        Game.advances unit coords = true -> legal = true).
Proof.
  intros Hwf Hsrc Hturn Hadj Hvd Hdst HTech HVirus.
  pose proof (cell_Some_valid _ _ _ Hsrc) as Hvs.
  pose proof (adjacent_ne _ _ Hadj) as Hne.
  unfold Game.is_valid_move. rewrite Hvs, Hvd, !get_cell, Hsrc by done. simpl.
  destruct (decide (Unit.player unit <> Game.next_player g)); [congruence|].
  destruct (decide (CoordPair.src coords = CoordPair.dst coords)); [done|].
  pose proof (gen_contains_suffix (CoordPair.dst coords)
                (Coord.iter_adjacent (CoordPair.src coords))) as Hsuf.
  apply gen_contains_found in Hadj.
  destruct (gen_contains _ _) as [found rest]. simpl in Hadj, Hsuf. subst found. simpl.
  rewrite Hdst. rewrite !bool_decide_eq_false_2 by done. simpl.
  destruct (engaged_spec g unit rest Hwf) as (e & -> & He). simpl.
  destruct e.
  - exists false. split; [done|]. split; [done|]. intros Hfree _.
    destruct He as [(c & a & Hin & Hc & Hpl) _]; [done|].
    exfalso. apply Hfree. exists c, a. split; [|done].
    destruct Hsuf as [k ->]. apply elem_of_app. by right.
  - exists (Game.advances unit coords). by split.
Qed.

(** Where the interactive predicate accepts a move other than a
    self-destruct, the destination is an orthogonal neighbour. *)
Lemma is_valid_move_adjacent (g : Game.t) (coords : CoordPair.t) :
  Game.is_valid_move g coords = Ret true ->
  CoordPair.src coords <> CoordPair.dst coords ->
  CoordPair.dst coords ∈ Coord.iter_adjacent (CoordPair.src coords).
Proof.
  unfold Game.is_valid_move. intros H Hne.
  destruct (negb _ || negb _); [done|].
  destruct (Game.get g (CoordPair.src coords)) as [[unit|]|]; simpl in H; try done.
  destruct (decide (Unit.player unit <> Game.next_player g)); [done|].
  destruct (decide (CoordPair.src coords = CoordPair.dst coords)); [done|].
  apply gen_contains_found.
  by destruct (gen_contains _ _) as [[] rest].
Qed.

#[local] Transparent gen_contains Coord.iter_adjacent.

Lemma foldM_preserves {A B : Type} (f : B -> A -> result B) (I : B -> Prop)
    (l : list A) (acc b : B) :
  I acc ->
  (forall b x b', x ∈ l -> I b -> f b x = Ret b' -> I b') ->
  foldM f acc l = Ret b -> I b.
Proof.
  revert acc. induction l as [|x l IH]; intros acc Hacc Hstep; simpl.
  - by intros [= <-].
  - intros (b1 & H1 & H)%bind_Ret_inv. apply (IH b1); [|intros; eapply Hstep|]; try done.
    + eapply Hstep; [by left|done..].
    + by right.
Qed.

(** The search only ever enumerates self-destructs and steps to an
    orthogonal neighbour. *)
Lemma move_candidates_for_AI_adjacent (g : Game.t) (p : Player) (l : list CoordPair.t) :
  Game.move_candidates_for_AI g p = Ret l ->
  Forall (fun m => CoordPair.dst m = CoordPair.src m
                   \/ CoordPair.dst m ∈ Coord.iter_adjacent (CoordPair.src m)) l.
Proof.
  unfold Game.move_candidates_for_AI.
  destruct (Game.has_winner g); [by intros [= <-]|].
  intros (units & _ & H)%bind_Ret_inv. revert H.
  apply foldM_preserves; [done|].
  intros acc [src u] acc' _ Hacc (adj & Hadj & [= <-])%bind_Ret_inv.
  rewrite !Forall_app. split_and!; [done| |apply Forall_singleton; by left].
  revert Hadj. apply foldM_preserves; [done|].
  intros acc2 dst acc2' Hin Hacc2 (ok & _ & H)%bind_Ret_inv.
  destruct ok; injection H as <-; [|done].
  rewrite Forall_app. split; [done|]. apply Forall_singleton. by right.
Qed.

(** The search-side predicate has no adjacency test of its own: in the
    opening position it accepts the Attacker's Virus at D4 jumping to the
    empty cell B2 and striking the Defender's AI at A0, neither of which is
    an orthogonal neighbour of D4; the interactive predicate rejects
    both. *)
Lemma is_valid_move_for_AI_accepts_distant_destination :
  let jump := CoordPair.mk (Coord.mk 3 4) (Coord.mk 1 2) in
  let strike := CoordPair.mk (Coord.mk 3 4) (Coord.mk 0 0) in
  Game.is_valid_move_for_AI initial jump Attacker = Ret true
  /\ Game.is_valid_move_for_AI initial strike Attacker = Ret true
  /\ (CoordPair.dst jump ∉ Coord.iter_adjacent (CoordPair.src jump))
  /\ (CoordPair.dst strike ∉ Coord.iter_adjacent (CoordPair.src strike))
  /\ CoordPair.dst jump <> CoordPair.src jump
  /\ CoordPair.dst strike <> CoordPair.src strike
  /\ Game.is_valid_move initial jump = Ret false
  /\ Game.is_valid_move initial strike = Ret false.
Proof.
  split_and!; try reflexivity; try discriminate.
  - intros [H|[H|[H|H]]]%elem_of_iter_adjacent; discriminate H.
  - intros [H|[H|[H|H]]]%elem_of_iter_adjacent; discriminate H.
Qed.

(** Every step the search enumerates was handed to the search-side
    predicate with a destination taken from [iter_adjacent], and was
    accepted by it. *)
Lemma move_candidates_for_AI_accepted (g : Game.t) (p : Player)
    (l : list CoordPair.t) :
  Game.move_candidates_for_AI g p = Ret l ->
  Forall (fun m => CoordPair.dst m = CoordPair.src m
                   \/ CoordPair.dst m ∈ Coord.iter_adjacent (CoordPair.src m)
                      /\ Game.is_valid_move_for_AI g m p = Ret true) l.
Proof.
  unfold Game.move_candidates_for_AI.
  destruct (Game.has_winner g); [by intros [= <-]|].
  intros (units & _ & H)%bind_Ret_inv. revert H.
  apply foldM_preserves; [done|].
  intros acc [src u] acc' _ Hacc (adj & Hadj & [= <-])%bind_Ret_inv.
  rewrite !Forall_app. split_and!; [done| |apply Forall_singleton; by left].
  revert Hadj. apply foldM_preserves; [done|].
  intros acc2 dst acc2' Hin Hacc2 (ok & Hok & H)%bind_Ret_inv.
  destruct ok; injection H as <-; [|done].
  rewrite Forall_app. split; [done|]. apply Forall_singleton. by right.
Qed.

(** C3 as stated fails: the claim is made for each of the two predicates,
    and the search-side one has no adjacency test.  In the opening
    position, asked for the Attacker, it accepts the Virus at D4 moving to
    the empty cell B2, two rows up and two columns to the left. *)
Lemma adjacent_only_for_both_predicates_counterexample :
  ~ (forall (g : Game.t) (m : CoordPair.t) (p : Player),
       CoordPair.dst m <> CoordPair.src m ->
       (Game.is_valid_move g m = Ret true ->
        CoordPair.dst m ∈ Coord.iter_adjacent (CoordPair.src m))
       /\ (Game.is_valid_move_for_AI g m p = Ret true ->
           CoordPair.dst m ∈ Coord.iter_adjacent (CoordPair.src m))).
Proof.
  intros H.
  destruct (H initial (step 3 4 1 2) Attacker) as [_ Hadj]; [discriminate|].
  assert (Game.is_valid_move_for_AI initial (step 3 4 1 2) Attacker = Ret true)
    as Hcode by reflexivity.
  apply Hadj, elem_of_iter_adjacent in Hcode.
  destruct Hcode as [E|[E|[E|E]]]; discriminate E.
Qed.

(** C3, scoped to where the search-side predicate is called.  For a move
    whose destination differs from its source: [is_valid_move] returns
    True only if the destination is one of the four orthogonal neighbours
    of the source; and if the move is among those that
    [move_candidates_for_AI], the only caller of [is_valid_move_for_AI],
    yields for a player, then [is_valid_move_for_AI] returned True for it
    and its destination is one of the four orthogonal neighbours of the
    source. *)
Theorem accepted_destinations_adjacent (g : Game.t) (m : CoordPair.t) :
  CoordPair.dst m <> CoordPair.src m ->
  (Game.is_valid_move g m = Ret true ->
   CoordPair.dst m ∈ Coord.iter_adjacent (CoordPair.src m))
  /\ (forall (p : Player) (l : list CoordPair.t),
        Game.move_candidates_for_AI g p = Ret l ->
        m ∈ l ->
        Game.is_valid_move_for_AI g m p = Ret true
        /\ CoordPair.dst m ∈ Coord.iter_adjacent (CoordPair.src m)).
Proof.
  intros Hne. split.
  - intros Hok. by apply (is_valid_move_adjacent g m).
  - intros p l Hl Hm.
    pose proof (move_candidates_for_AI_accepted g p l Hl) as Hall.
    rewrite Forall_forall in Hall.
    by destruct (Hall m Hm) as [?|[? ?]].
Qed.

Lemma accepted_destinations_adjacent_witness :
  CoordPair.dst (step 2 4 1 4) <> CoordPair.src (step 2 4 1 4)
  /\ Game.is_valid_move initial (step 2 4 1 4) = Ret true
  /\ (exists l, Game.move_candidates_for_AI initial Attacker = Ret l
                /\ step 2 4 1 4 ∈ l)
  /\ Game.is_valid_move_for_AI initial (step 2 4 1 4) Attacker = Ret true
  /\ CoordPair.dst (step 2 4 1 4) ∈ Coord.iter_adjacent (CoordPair.src (step 2 4 1 4)).
Proof.
  assert (CoordPair.dst (step 2 4 1 4) <> CoordPair.src (step 2 4 1 4)) as Hne.
  { discriminate. }
  destruct (accepted_destinations_adjacent initial (step 2 4 1 4) Hne) as [Hi Hs].
  destruct (Hs Attacker
              [ step 2 4 1 4; step 2 4 2 3; step 2 4 2 4; step 3 3 2 3; step 3 3 3 2;
                step 3 3 3 3; step 3 4 3 4; step 4 2 3 2; step 4 2 4 1; step 4 2 4 2;
                step 4 3 4 3; step 4 4 4 4 ]) as [Hok Hadj].
  - reflexivity.
  - apply list_elem_of_here.
  - split; [exact Hne|]. split; [reflexivity|]. split; [|by split].
    eexists. split; [reflexivity|]. apply list_elem_of_here.
Defined.

Lemma engaged_position_reached : play initial opening_moves = Ret engaged_position.
Proof. vm_compute. reflexivity. Qed.

(** C2 fails on the interactive predicate: the Defender's Program at B1
    has an Attacker Virus on its lower neighbour C1, yet its move to the
    empty cell B2 is accepted.  B2 is the last neighbour the generator
    yields, so the membership test leaves nothing for the engagement loop.
    The search-side predicate rejects the same move. *)
Theorem is_valid_move_lets_engaged_unit_move :
  let coords := CoordPair.mk (Coord.mk 1 1) (Coord.mk 1 2) in
  cell engaged_position (CoordPair.src coords) = Some (Unit.mk Defender Program 9)
  /\ cell engaged_position (CoordPair.dst coords) = None
  /\ cell engaged_position (Coord.mk 2 1) = Some (Unit.mk Attacker Virus 9)
  /\ Coord.mk 2 1 ∈ Coord.iter_adjacent (CoordPair.src coords)
  /\ gen_contains (CoordPair.dst coords) (Coord.iter_adjacent (CoordPair.src coords))
     = (true, [])
  /\ Game.is_valid_move engaged_position coords = Ret true
  /\ Game.is_valid_move_for_AI engaged_position coords Defender = Ret false.
Proof.
  split_and!; try reflexivity.
  apply elem_of_iter_adjacent. vm_compute. tauto.
Qed.

(** ** Move resolution *)

Lemma set_next_player (g g' : Game.t) (c : Coord.t) (u : option Unit.t) :
  Game.set g c u = Ret g' -> Game.next_player g' = Game.next_player g.
Proof.
  unfold Game.set. destruct (Game.is_valid_coord g c); [|by intros [= <-]].
  intros (r & _ & (r' & _ & (b' & _ & [= <-])%bind_Ret_inv)%bind_Ret_inv)%bind_Ret_inv.
  done.
Qed.

Lemma remove_dead_next_player (g g' : Game.t) (c : Coord.t) :
  Game.remove_dead g c = Ret g' -> Game.next_player g' = Game.next_player g.
Proof.
  unfold Game.remove_dead. intros ([u|] & _ & H)%bind_Ret_inv; [|by injection H as <-].
  destruct (negb (Unit.is_alive u)); [|by injection H as <-].
  apply bind_Ret_inv in H as (g1 & H1%set_next_player & H).
  destruct (decide (Unit.type u = AI)); [destruct (decide (Unit.player u = Attacker))|];
    by injection H as <-.
Qed.

Lemma mod_health_next_player (g g' : Game.t) (c : Coord.t) (delta : Z) :
  Game.mod_health g c delta = Ret g' -> Game.next_player g' = Game.next_player g.
Proof.
  unfold Game.mod_health. intros ([u|] & _ & H)%bind_Ret_inv; [|by injection H as <-].
  apply bind_Ret_inv in H as (g1 & H1%set_next_player & H2%remove_dead_next_player).
  congruence.
Qed.

Lemma blast_next_player (cs : list Coord.t) (g g' : Game.t) (delta : Z) :
  foldM (fun g c => Game.mod_health g c delta) g cs = Ret g' ->
  Game.next_player g' = Game.next_player g.
Proof.
  revert g. induction cs as [|c cs IH]; intros g; simpl.
  - by intros [= <-].
  - intros (g1 & H1%mod_health_next_player & H)%bind_Ret_inv.
    rewrite <- H1. by apply IH.
Qed.

(** Under its legality guard, [perform_move] is [perform_move_for_AI] for
    the player to move. *)
Lemma perform_move_as_AI (g : Game.t) (coords : CoordPair.t) :
  Game.is_valid_move g coords = Ret true ->
  Game.perform_move g coords = Game.perform_move_for_AI g coords (Game.next_player g).
Proof.
  intros Hvalid. unfold Game.perform_move, Game.perform_move_for_AI.
  rewrite Hvalid. simpl.
  destruct (Game.get g (CoordPair.dst coords)) as [dst_unit|]; [|done]. simpl.
  destruct (Game.get g (CoordPair.src coords)) as [src_unit|]; [|done]. simpl.
  destruct dst_unit as [dst_unit|].
  - destruct src_unit as [src_unit|]; [|done].
    destruct (decide (CoordPair.dst coords = CoordPair.src coords)).
    + unfold Game.mutate.
      destruct (Game.set g _ _) as [g1|] eqn:H1; [|done]. simpl.
      destruct (Game.remove_dead g1 _) as [g2|] eqn:H2; [|done]. simpl.
      destruct (foldM _ g2 _) as [g3|] eqn:H3; [|done]. simpl.
      apply blast_next_player in H3. apply remove_dead_next_player in H2.
      apply set_next_player in H1. by rewrite H3, H2, H1.
    + destruct (decide (Unit.player dst_unit = Game.next_player g)).
      * unfold Game.mutate.
        destruct (Game.set g _ _) as [g1|] eqn:H1; [|done]. simpl.
        apply set_next_player in H1. by rewrite H1.
      * unfold Game.mutate.
        destruct (Game.set g _ _) as [g1|] eqn:H1; [|done]. simpl.
        destruct (Game.set g1 _ _) as [g2|] eqn:H2; [|done]. simpl.
        destruct (Game.remove_dead g2 _) as [g3|] eqn:H3; [|done]. simpl.
        destruct (Game.remove_dead g3 _) as [g4|] eqn:H4; [|done]. simpl.
        apply remove_dead_next_player in H4, H3. apply set_next_player in H2, H1.
        by rewrite H4, H3, H2, H1.
  - destruct (Game.set g _ _) as [g1|] eqn:H1; [|done]. simpl.
    destruct (Game.set g1 _ _) as [g2|] eqn:H2; [|done]. simpl.
    apply set_next_player in H2, H1. by rewrite H2, H1.
Qed.

Lemma to_string_valid (g : Game.t) (c : Coord.t) :
  Game.is_valid_coord g c = true -> exists s, Coord.to_string c = Ret s.
Proof.
  intros [Hr Hc]%is_valid_coord_spec. unfold Coord.to_string.
  assert (exists s, Coord.row_string c = Ret s) as [rs ->].
  { unfold Coord.row_string. destruct (Z.ltb_spec (Coord.row c) 26); [|by eexists].
    destruct (py_index_lookup
                (String.list_ascii_of_string "ABCDEFGHIJKLMNOPQRSTUVWXYZ") (Coord.row c))
      as (x & _ & ->); [simpl; lia|]. by eexists. }
  assert (exists s, Coord.col_string c = Ret s) as [cs ->].
  { unfold Coord.col_string. destruct (Z.ltb_spec (Coord.col c) 16); [|by eexists].
    destruct (py_index_lookup
                (String.list_ascii_of_string "0123456789abcdef") (Coord.col c))
      as (x & _ & ->); [simpl; lia|]. by eexists. }
  by eexists.
Qed.

Lemma damage_amount_after_hit (b a : Unit.t) (delta : Z) :
  Unit.damage_amount (Unit.mod_health b delta) a = Unit.damage_amount b a.
Proof.
  unfold Unit.damage_amount, Unit.mod_health.
  by destruct (Unit.health b + delta <? 0); [|destruct (9 <? Unit.health b + delta)].
Qed.

(** A unit that takes the damage reported by [damage_amount] loses exactly
    that much health. *)
Lemma mod_health_damage (a b : Unit.t) :
  Unit.health b <= 9 ->
  Unit.mod_health b (- Unit.damage_amount a b)
  = Unit.with_health b (Unit.health b - Unit.damage_amount a b).
Proof.
  intros Hb. destruct (amounts_as_min a b) as (Hd & _).
  destruct (entry_nonneg (Unit.type a) (Unit.type b)) as [Hnn _].
  unfold Unit.mod_health.
  replace (Unit.health b + - Unit.damage_amount a b)
    with (Unit.health b - Unit.damage_amount a b) by lia.
  destruct (Z.ltb_spec (Unit.health b - Unit.damage_amount a b) 0); [lia|].
  destruct (Z.ltb_spec 9 (Unit.health b - Unit.damage_amount a b)); [lia|done].
Qed.

#[local] Opaque gen_contains Coord.iter_adjacent.

(** An adjacent enemy is always a legal target, for both predicates. *)
Lemma enemy_target_legality (g : Game.t) (coords : CoordPair.t) (unit target : Unit.t) :
  Game.get g (CoordPair.src coords) = Ret (Some unit) ->
  Game.get g (CoordPair.dst coords) = Ret (Some target) ->
  CoordPair.dst coords ∈ Coord.iter_adjacent (CoordPair.src coords) ->
  Unit.player target <> Unit.player unit ->
  Game.is_valid_move_for_AI g coords (Unit.player unit) = Ret true
  /\ (Game.next_player g = Unit.player unit -> Game.is_valid_move g coords = Ret true).
Proof.
  intros Hsrc Hdst Hadj Henemy.
  pose proof (get_Some_valid _ _ _ Hsrc) as Hvs.
  pose proof (get_Some_valid _ _ _ Hdst) as Hvd.
  pose proof (adjacent_ne _ _ Hadj) as Hne.
  split.
  - unfold Game.is_valid_move_for_AI. rewrite Hvs, Hvd, Hsrc. simpl.
    destruct (decide (Unit.player unit <> Unit.player unit)); [done|].
    destruct (decide (CoordPair.src coords = CoordPair.dst coords)); [done|].
    rewrite Hdst. simpl. rewrite bool_decide_eq_false_2 by done. simpl.
    by destruct (decide (Unit.player target <> Unit.player unit)).
  - intros Hturn. unfold Game.is_valid_move. rewrite Hvs, Hvd, Hsrc. simpl.
    destruct (decide (Unit.player unit <> Game.next_player g)); [congruence|].
    destruct (decide (CoordPair.src coords = CoordPair.dst coords)); [done|].
    apply gen_contains_found in Hadj.
    destruct (gen_contains _ _) as [found rest]. simpl in Hadj. subst found. simpl.
    rewrite Hdst. simpl. rewrite bool_decide_eq_false_2 by done. simpl.
    by destruct (decide (Unit.player target <> Unit.player unit)).
Qed.

#[local] Transparent gen_contains Coord.iter_adjacent.

(** Resolution of an attack, in terms of [damage_amount]. *)
Lemma attack_resolution (g : Game.t) (coords : CoordPair.t)
    (attacker target : Unit.t) :
  board_wf g ->
  cell g (CoordPair.src coords) = Some attacker ->
  cell g (CoordPair.dst coords) = Some target ->
  CoordPair.dst coords ∈ Coord.iter_adjacent (CoordPair.src coords) ->
  Unit.player target <> Unit.player attacker ->
  Unit.health attacker <= 9 ->
  Unit.health target <= 9 ->
  exists g' msg,
    Game.perform_move_for_AI g coords (Unit.player attacker) = Ret (g', (true, msg))
    /\ (Game.next_player g = Unit.player attacker ->
        Game.perform_move g coords = Ret (g', (true, msg)))
    /\ cell g' (CoordPair.dst coords)
       = (let h := Unit.health target - Unit.damage_amount attacker target in
          if 0 <? h then Some (Unit.with_health target h) else None)
    /\ cell g' (CoordPair.src coords)
       = (let h := Unit.health attacker - Unit.damage_amount target attacker in
          if 0 <? h then Some (Unit.with_health attacker h) else None)
    /\ forall c, c <> CoordPair.src coords -> c <> CoordPair.dst coords ->
                 cell g' c = cell g c.
Proof.
  intros Hwf Hsrc Hdst Hadj Henemy Hha Hht.
  pose proof (cell_Some_valid _ _ _ Hsrc) as Hvs.
  pose proof (cell_Some_valid _ _ _ Hdst) as Hvd.
  pose proof (adjacent_ne _ _ Hadj) as Hne.
  destruct (to_string_valid g _ Hvs) as [ss Hss].
  destruct (to_string_valid g _ Hvd) as [ds Hds].
  set (target' := Unit.with_health target
                    (Unit.health target - Unit.damage_amount attacker target)).
  set (attacker' := Unit.with_health attacker
                      (Unit.health attacker - Unit.damage_amount target attacker)).
  (* the four state changes, in program order *)
  set (g1 := put g (CoordPair.dst coords) (Some target')).
  set (g2 := put g1 (CoordPair.src coords) (Some attacker')).
  assert (board_wf g1) as Hwf1 by (by apply put_wf).
  assert (board_wf g2) as Hwf2 by (by apply put_wf).
  destruct (remove_dead_spec g2 (CoordPair.dst coords) Hwf2)
    as (g3 & Hr3 & Hsf3 & Hc3 & Ho3).
  destruct (remove_dead_spec g3 (CoordPair.src coords) (proj1 Hsf3))
    as (g4 & Hr4 & Hsf4 & Hc4 & Ho4).
  assert (Game.perform_move_for_AI g coords (Unit.player attacker)
          = Ret (g4, (true, PlayerM.name (Unit.player attacker) +:+ " has moved "
                              +:+ ss +:+ " to damage " +:+ ds))) as Hrun.
  { unfold Game.perform_move_for_AI. rewrite !get_cell, Hsrc, Hdst by done. simpl.
    destruct (decide (CoordPair.dst coords = CoordPair.src coords)); [congruence|].
    destruct (decide (Unit.player target = Unit.player attacker)); [done|].
    rewrite damage_amount_after_hit, !mod_health_damage by done.
    unfold Game.mutate. rewrite set_put by done. simpl.
    fold target' attacker' g1. rewrite set_put by done. simpl. fold g2.
    rewrite Hr3. simpl. rewrite Hr4. simpl. by rewrite Hss, Hds. }
  exists g4, (PlayerM.name (Unit.player attacker) +:+ " has moved "
                +:+ ss +:+ " to damage " +:+ ds).
  assert (Game.is_valid_coord g1 (CoordPair.src coords) = true) as Hvs1
    by (unfold g1; by rewrite put_valid).
  split_and!.
  - done.
  - intros Hturn.
    destruct (enemy_target_legality g coords attacker target) as [_ Hlegal];
      rewrite ?get_cell; try done; try congruence.
    rewrite perform_move_as_AI by auto. by rewrite Hturn.
  - rewrite Ho4, Hc3 by done. unfold g2. rewrite cell_put_ne by done.
    unfold g1. rewrite cell_put_eq by done. done.
  - rewrite Hc4, Ho3 by done. unfold g2. rewrite cell_put_eq by done. done.
  - intros c Hcs Hcd. rewrite Ho4, Ho3 by done.
    unfold g2, g1. by rewrite !cell_put_ne.
Qed.

Lemma health_after_damage (a b : Unit.t) :
  Unit.health b - Unit.damage_amount a b
  = Z.max 0 (Unit.health b - Unit.entry Unit.damage_table (Unit.type a) (Unit.type b)).
Proof. destruct (amounts_as_min a b) as (-> & _). lia. Qed.

(** C4.  An attack on an adjacent enemy always hits both sides: the
    target's health goes down by the attacker-to-target damage-table entry
    and the attacker's health by the target-to-attacker entry (health never
    drops below 0), and whichever unit is left without health is removed;
    no other cell changes.  [perform_move] and [perform_move_for_AI]
    resolve it alike. *)
Theorem attack_damages_both_sides (g : Game.t) (coords : CoordPair.t)
    (attacker target : Unit.t) :
  board_wf g ->
  cell g (CoordPair.src coords) = Some attacker ->
  cell g (CoordPair.dst coords) = Some target ->
  CoordPair.dst coords ∈ Coord.iter_adjacent (CoordPair.src coords) ->
  Unit.player target <> Unit.player attacker ->
  Unit.health attacker <= 9 ->
  Unit.health target <= 9 ->
  exists g' msg,
    Game.perform_move_for_AI g coords (Unit.player attacker) = Ret (g', (true, msg))
    /\ (Game.next_player g = Unit.player attacker ->
        Game.perform_move g coords = Ret (g', (true, msg)))
    /\ cell g' (CoordPair.dst coords)
       = (let h := Z.max 0 (Unit.health target
                            - Unit.entry Unit.damage_table
                                (Unit.type attacker) (Unit.type target)) in
          if 0 <? h then Some (Unit.with_health target h) else None)
    /\ cell g' (CoordPair.src coords)
       = (let h := Z.max 0 (Unit.health attacker
                            - Unit.entry Unit.damage_table
                                (Unit.type target) (Unit.type attacker)) in
          if 0 <? h then Some (Unit.with_health attacker h) else None)
    /\ forall c, c <> CoordPair.src coords -> c <> CoordPair.dst coords ->
                 cell g' c = cell g c.
Proof.
  intros Hwf Hsrc Hdst Hadj Henemy Hha Hht.
  destruct (attack_resolution g coords attacker target)
    as (g' & msg & Hai & Hhuman & Hd & Hs & Hrest); try done.
  exists g', msg. rewrite <- !health_after_damage. by split_and!.
Qed.

Lemma attack_damages_both_sides_witness :
  exists g' msg,
    Game.perform_move_for_AI engaged_position
      (CoordPair.mk (Coord.mk 1 1) (Coord.mk 2 1)) Defender = Ret (g', (true, msg))
    /\ (Game.next_player engaged_position = Defender ->
        Game.perform_move engaged_position
          (CoordPair.mk (Coord.mk 1 1) (Coord.mk 2 1)) = Ret (g', (true, msg)))
    /\ cell g' (Coord.mk 2 1) = Some (Unit.mk Attacker Virus 6)
    /\ cell g' (Coord.mk 1 1) = Some (Unit.mk Defender Program 3)
    /\ forall c, c <> Coord.mk 1 1 -> c <> Coord.mk 2 1 ->
                 cell g' c = cell engaged_position c.
Proof.
  apply (attack_damages_both_sides engaged_position
           (CoordPair.mk (Coord.mk 1 1) (Coord.mk 2 1))
           (Unit.mk Defender Program 9) (Unit.mk Attacker Virus 9)).
  - split; [reflexivity|repeat constructor].
  - reflexivity.
  - reflexivity.
  - apply elem_of_iter_adjacent; vm_compute; tauto.
  - discriminate.
  - simpl; lia.
  - simpl; lia.
Defined.

Lemma elem_of_iter_range (s c : Coord.t) (dist : Z) :
  c ∈ Coord.iter_range s dist <->
  Coord.row s - dist <= Coord.row c <= Coord.row s + dist
  /\ Coord.col s - dist <= Coord.col c <= Coord.col s + dist.
Proof.
  unfold Coord.iter_range, range. rewrite list_elem_of_bind. split.
  - intros (r & (k & ->%list_elem_of_singleton & Hk%elem_of_seqZ)%list_elem_of_bind
              & Hr%elem_of_seqZ).
    simpl. lia.
  - intros [Hr Hc]. exists (Coord.row c). split.
    + apply list_elem_of_bind. exists (Coord.col c). split.
      * destruct c. simpl. by apply list_elem_of_singleton.
      * apply elem_of_seqZ. lia.
    + apply elem_of_seqZ. lia.
Qed.

Lemma near_iter_range (s c : Coord.t) : c ∈ Coord.iter_range s 1 <-> near c s.
Proof. rewrite elem_of_iter_range. unfold near. lia. Qed.

Lemma NoDup_iter_range (s : Coord.t) (dist : Z) : NoDup (Coord.iter_range s dist).
Proof.
  unfold Coord.iter_range, range. apply NoDup_bind.
  - intros r1 r2 c _ _
      (k1 & ->%list_elem_of_singleton & _)%list_elem_of_bind
      (k2 & [= -> _]%list_elem_of_singleton & _)%list_elem_of_bind.
    done.
  - intros r _. apply NoDup_bind.
    + by intros k1 k2 c _ _ ->%list_elem_of_singleton [= ->]%list_elem_of_singleton.
    + intros k _. apply NoDup_singleton.
    + apply NoDup_seqZ.
  - apply NoDup_seqZ.
Qed.

(** The area loop: every listed cell is struck once, the others are left
    alone. *)
Lemma blast_spec (cs : list Coord.t) (g : Game.t) (delta : Z) :
  board_wf g -> NoDup cs ->
  exists g', foldM (fun g c => Game.mod_health g c delta) g cs = Ret g'
    /\ same_frame g g'
    /\ forall c, cell g' c = if decide (c ∈ cs) then struck delta (cell g c)
                             else cell g c.
Proof.
  revert g. induction cs as [|c0 cs IH]; intros g Hwf Hnd; simpl.
  - exists g. by split_and!.
  - apply NoDup_cons in Hnd as [Hnotin Hnd].
    destruct (mod_health_spec g c0 delta Hwf) as (g1 & -> & Hsf1 & Hc1 & Ho1). simpl.
    destruct (IH g1 (proj1 Hsf1) Hnd) as (g' & -> & Hsf' & Hcells).
    exists g'. split_and!; [done|by eapply same_frame_trans|].
    intros c. rewrite Hcells.
    destruct (decide (c = c0)) as [->|Hne].
    + rewrite decide_False by done. rewrite decide_True by (by left). done.
    + rewrite Ho1 by done.
      destruct (decide (c ∈ cs)) as [Hin|Hout].
      * by rewrite decide_True by (by right).
      * rewrite decide_False; [done|]. by intros [?|?]%elem_of_cons.
Qed.

Lemma self_destruct_legality (g : Game.t) (src : Coord.t) (unit : Unit.t) :
  board_wf g -> cell g src = Some unit ->
  Game.is_valid_move_for_AI g (CoordPair.mk src src) (Unit.player unit) = Ret true
  /\ (Game.next_player g = Unit.player unit ->
      Game.is_valid_move g (CoordPair.mk src src) = Ret true).
Proof.
  intros Hwf Hsrc. pose proof (cell_Some_valid _ _ _ Hsrc) as Hv. split.
  - unfold Game.is_valid_move_for_AI. cbn [CoordPair.src CoordPair.dst].
    rewrite Hv, get_cell, Hsrc by done. simpl.
    destruct (decide (Unit.player unit <> Unit.player unit)); [done|].
    by destruct (decide (src = src)).
  - intros Hturn. unfold Game.is_valid_move. cbn [CoordPair.src CoordPair.dst].
    rewrite Hv, get_cell, Hsrc by done. simpl.
    destruct (decide (Unit.player unit <> Game.next_player g)); [congruence|].
    by destruct (decide (src = src)).
Qed.

Lemma struck_by_two (v : Unit.t) :
  Unit.health v <= 9 ->
  struck (-2) (Some v)
  = if 2 <? Unit.health v then Some (Unit.with_health v (Unit.health v - 2)) else None.
Proof.
  intros Hv. unfold struck, Unit.mod_health, Unit.is_alive.
  replace (Unit.health v + -2) with (Unit.health v - 2) by lia.
  destruct (Z.ltb_spec (Unit.health v - 2) 0); simpl.
  - by destruct (Z.ltb_spec 2 (Unit.health v)); [lia|].
  - destruct (Z.ltb_spec 9 (Unit.health v - 2)); [lia|]. simpl.
    destruct (Z.ltb_spec 0 (Unit.health v - 2)), (Z.ltb_spec 2 (Unit.health v));
      (done || lia).
Qed.

(** C5.  A self-destruct removes the acting unit; every other unit within
    Chebyshev distance 1, friend or foe, loses exactly 2 health and is
    removed when nothing is left; empty cells stay empty and cells farther
    away are untouched. *)
Theorem self_destruct_blast (g : Game.t) (src : Coord.t) (unit : Unit.t) :
  board_wf g ->
  cell g src = Some unit ->
  Game.next_player g = Unit.player unit ->
  exists g' msg,
    Game.perform_move g (CoordPair.mk src src) = Ret (g', (true, msg))
    /\ cell g' src = None
    /\ (forall c v, c <> src -> near c src -> cell g c = Some v -> Unit.health v <= 9 ->
          cell g' c = if 2 <? Unit.health v
                      then Some (Unit.with_health v (Unit.health v - 2))
                      else None)
    /\ (forall c, cell g c = None -> cell g' c = None)
    /\ (forall c, ~ near c src -> cell g' c = cell g c).
Proof.
  intros Hwf Hsrc Hturn.
  pose proof (cell_Some_valid _ _ _ Hsrc) as Hv.
  destruct (to_string_valid g _ Hv) as [ss Hss].
  destruct (self_destruct_legality g src unit Hwf Hsrc) as [_ Hlegal].
  set (g1 := put g src (Some (Unit.mod_health unit (- Unit.health unit)))).
  assert (board_wf g1) as Hwf1 by (by apply put_wf).
  destruct (remove_dead_spec g1 src Hwf1) as (g2 & Hr2 & Hsf2 & Hc2 & Ho2).
  destruct (blast_spec (Coord.iter_range src 1) g2 (-2) (proj1 Hsf2)
              (NoDup_iter_range src 1)) as (g3 & Hr3 & Hsf3 & Hc3).
  assert (cell g2 src = None) as Hgone.
  { rewrite Hc2. unfold g1. rewrite cell_put_eq by done.
    unfold Unit.mod_health, Unit.is_alive.
    replace (Unit.health unit + - Unit.health unit) with 0 by lia. done. }
  assert (forall c, c <> src -> cell g2 c = cell g c) as Hrest.
  { intros c Hne. rewrite Ho2 by done. unfold g1. by rewrite cell_put_ne. }
  exists g3, (PlayerM.name (Game.next_player g) +:+ " has self destructed unit " +:+ ss).
  split_and!.
  - rewrite perform_move_as_AI by auto. unfold Game.perform_move_for_AI.
    cbn [CoordPair.src CoordPair.dst]. rewrite !get_cell, Hsrc by done. simpl.
    destruct (decide (src = src)); [|done].
    unfold Game.mutate. rewrite set_put by done. simpl. fold g1.
    rewrite Hr2. simpl. rewrite Hr3. simpl. by rewrite Hss.
  - rewrite Hc3, Hgone. by destruct (decide (src ∈ Coord.iter_range src 1)).
  - intros c v Hne Hnear Hc Hhealth. rewrite Hc3, Hrest, Hc by done.
    rewrite decide_True by (by apply near_iter_range). by apply struck_by_two.
  - intros c Hc. rewrite Hc3.
    destruct (decide (c = src)) as [->|Hne].
    + rewrite Hgone. by destruct (decide (src ∈ Coord.iter_range src 1)).
    + rewrite Hrest, Hc by done. by destruct (decide (c ∈ Coord.iter_range src 1)).
  - intros c Hfar. rewrite Hc3.
    rewrite decide_False by (by rewrite near_iter_range).
    apply Hrest. intros ->. apply Hfar. unfold near. lia.
Qed.

Lemma self_destruct_blast_witness :
  exists g' msg,
    Game.perform_move initial (CoordPair.mk (Coord.mk 3 3) (Coord.mk 3 3))
      = Ret (g', (true, msg))
    /\ cell g' (Coord.mk 3 3) = None
    /\ (forall c v, c <> Coord.mk 3 3 -> near c (Coord.mk 3 3) ->
          cell initial c = Some v -> Unit.health v <= 9 ->
          cell g' c = if 2 <? Unit.health v
                      then Some (Unit.with_health v (Unit.health v - 2))
                      else None)
    /\ (forall c, cell initial c = None -> cell g' c = None)
    /\ (forall c, ~ near c (Coord.mk 3 3) -> cell g' c = cell initial c).
Proof.
  apply (self_destruct_blast initial (Coord.mk 3 3) (Unit.mk Attacker Firewall 9)).
  - exact initial_wf.
  - reflexivity.
  - reflexivity.
Defined.

(** ** Heuristic evaluators *)

Lemma foldM_invariant {A B : Type} (f : B -> A -> result B) (I : B -> Prop)
    (l : list A) (acc : B) :
  I acc ->
  (forall b x, I b -> exists b', f b x = Ret b' /\ I b') ->
  exists b', foldM f acc l = Ret b' /\ I b'.
Proof.
  intros Hacc Hstep. revert acc Hacc.
  induction l as [|x l IH]; intros acc Hacc; simpl.
  - by exists acc.
  - destruct (Hstep acc x Hacc) as (b & -> & Hb). simpl. by apply IH.
Qed.

Lemma true_div_defined (a : Q) (z : Z) :
  z <> 0 -> exists q, Game.true_div a (inject_Z z) = Ret q.
Proof.
  intros Hz. unfold Game.true_div.
  destruct (Qeq_bool (inject_Z z) 0) eqn:Heq; [|by eexists].
  apply Qeq_bool_iff in Heq. unfold Qeq in Heq. simpl in Heq. lia.
Qed.

Lemma compute_heuristic_e0_total (g : Game.t) :
  board_wf g -> exists z, Game.compute_heuristic_e0 g = Ret z.
Proof.
  intros Hwf. unfold Game.compute_heuristic_e0.
  destruct (foldM_invariant
              (fun heuristic_score coord =>
                 unit ← Game.get g coord;
                 match unit with
                 | Some u =>
                     if decide (Unit.player u = Attacker) then
                       if decide (Unit.type u = AI) then Ret (heuristic_score + 9999)
                       else Ret (heuristic_score + 3)
                     else
                       if decide (Unit.type u = AI) then Ret (heuristic_score - 9999)
                       else Ret (heuristic_score - 3)
                 | None => Ret heuristic_score
                 end)
              (fun _ => True) (Game.whole_board g) 0 I) as (z & Hz & _); [|by exists z].
  intros b c _. rewrite get_cell by done. simpl.
  destruct (cell g c) as [u|]; [|by eexists].
  destruct (decide (Unit.player u = Attacker)), (decide (Unit.type u = AI)); by eexists.
Qed.

Lemma compute_heuristic_e1_total (g : Game.t) :
  board_wf g -> exists q, Game.compute_heuristic_e1 g = Ret q.
Proof.
  intros Hwf. unfold Game.compute_heuristic_e1.
  match goal with |- exists q, foldM ?f ?a ?l = Ret q =>
    destruct (foldM_invariant f (fun _ => True) l a I) as (q & Hq & _); [|by exists q]
  end.
  intros b c _. rewrite get_cell by done. simpl.
  destruct (cell g c) as [u|]; [|by eexists].
  repeat match goal with
         | |- context [decide ?P] => destruct (decide P)
         end; by eexists.
Qed.

Lemma manhattan_pos (a b : Coord.t) : a <> b -> Game.manhattan a b <> 0.
Proof.
  intros Hne Hz. apply Hne. unfold Game.manhattan in Hz.
  destruct a, b; simpl in *. f_equal; lia.
Qed.

Lemma marks_distinct (g : Game.t) (p1 p2 : Player) (t1 t2 : UnitType) (a b : Coord.t) :
  marks g p1 t1 (Some a) -> marks g p2 t2 (Some b) -> p1 <> p2 -> a <> b.
Proof.
  intros Ha Hb Hp ->.
  destruct (Ha b eq_refl) as (u & Hu & Hpu & _).
  destruct (Hb b eq_refl) as (u' & Hu' & Hpu' & _).
  congruence.
Qed.

Lemma marks_None (g : Game.t) (p : Player) (t : UnitType) : marks g p t None.
Proof. by intros c. Qed.

Lemma marks_Some (g : Game.t) (c : Coord.t) (u : Unit.t) :
  cell g c = Some u -> marks g (Unit.player u) (Unit.type u) (Some c).
Proof. intros Hc c' [= <-]. by exists u. Qed.

Lemma e2_attacker_escort_defined (g : Game.t) (unit : Unit.t) (coord : Coord.t) (score : Q) :
  board_wf g -> Unit.health unit <> 0 ->
  exists r, Game.e2_attacker_escort g unit coord score = Ret r.
Proof.
  intros Hwf Hh. unfold Game.e2_attacker_escort.
  match goal with |- exists r, foldM ?f ?a ?l = Ret r =>
    destruct (foldM_invariant f (fun _ => True) l a I) as (r & Hr & _); [|by exists r]
  end.
  intros [n s] c _. rewrite get_cell by done. simpl.
  destruct (cell g c) as [a|]; [|by eexists].
  destruct (decide (Unit.player a = Unit.player unit)); [|by eexists].
  destruct (true_div_defined 9 (Unit.health unit) Hh) as [q ->]. simpl.
  destruct (decide (n + 1 = 4)); by eexists.
Qed.

Lemma e2_defender_escort_defined (g : Game.t) (unit : Unit.t) (coord : Coord.t) (score : Q) :
  board_wf g -> exists r, Game.e2_defender_escort g unit coord score = Ret r.
Proof.
  intros Hwf. unfold Game.e2_defender_escort.
  match goal with |- exists r, foldM ?f ?a ?l = Ret r =>
    destruct (foldM_invariant f (fun _ => True) l a I) as (r & Hr & _); [|by exists r]
  end.
  intros [n s] c _. rewrite get_cell by done. simpl.
  destruct (cell g c) as [a|]; [|by eexists].
  destruct (decide (Unit.player a = Unit.player unit)); [|by eexists].
  destruct (decide (n + 1 = 2)); by eexists.
Qed.

Lemma healthyb_healthy (g : Game.t) : healthyb g = true -> healthy g.
Proof.
  unfold healthyb, healthy, cell. intros H c u Hc.
  destruct (Game.is_valid_coord g c); [|done].
  destruct (Game.board g !! Z.to_nat (Coord.row c)) as [r|] eqn:Hr; [|done].
  destruct (r !! Z.to_nat (Coord.col c)) as [o|] eqn:Ho; [|done].
  simpl in Hc. subst o.
  rewrite forallb_forall in H.
  apply list_elem_of_lookup_2, list_elem_of_In, H in Hr.
  rewrite forallb_forall in Hr.
  apply list_elem_of_lookup_2, list_elem_of_In, Hr in Ho.
  apply andb_true_iff in Ho as [?%Z.leb_le ?%Z.leb_le]. lia.
Qed.

#[local] Opaque Game.e2_attacker_escort Game.e2_defender_escort.

Lemma e2_scan_ok (g : Game.t) (l : Game.e2_locals) (c : Coord.t) :
  board_wf g -> healthy g -> e2_locals_ok g l ->
  exists l', Game.e2_scan g l c = Ret l' /\ e2_locals_ok g l'.
Proof.
  intros Hwf Hh (HA & HD & HV1 & HV2 & HT1 & HT2).
  unfold Game.e2_scan. rewrite get_cell by done. simpl.
  destruct (cell g c) as [u|] eqn:Hc; [|by eexists].
  pose proof (marks_Some g c u Hc) as Hm. pose proof (Hh c u Hc) as Hhu.
  destruct u as [p t h]; simpl in Hm, Hhu.
  destruct p, t; simpl;
    try match goal with
      | |- context [Game.e2_attacker_escort ?g ?u ?c ?s] =>
          destruct (e2_attacker_escort_defined g u c s Hwf) as [[n s'] ->];
          [simpl; lia|]
      | |- context [Game.e2_defender_escort ?g ?u ?c ?s] =>
          destruct (e2_defender_escort_defined g u c s Hwf) as [[n s'] ->]
      end;
    try destruct (Game.Virus_coord_1 l) eqn:HV;
    try destruct (Game.Tech_coord_1 l) eqn:HT;
    (eexists; split; [reflexivity|]); unfold e2_locals_ok; simpl;
    rewrite ?HV, ?HT; split_and!; done.
Qed.

#[local] Transparent Game.e2_attacker_escort Game.e2_defender_escort.

Lemma e2_both_defined (g : Game.t) (combine : Q -> Q -> Q) (k score : Q)
    (p p' : Player) (t t' : UnitType) (c1 c2 target : option Coord.t) :
  marks g p t c1 -> marks g p t c2 -> marks g p' t' target -> p <> p' ->
  exists q, Game.e2_both combine k c1 c2 target score = Ret q.
Proof.
  intros H1 H2 Ht Hp. unfold Game.e2_both.
  destruct c1 as [a|], c2 as [b|], target as [x|]; try by eexists.
  destruct (true_div_defined k (Z.max (Game.manhattan a x) (Game.manhattan b x)))
    as [q ->]; [|by eexists].
  pose proof (manhattan_pos a x (marks_distinct _ _ _ _ _ _ _ H1 Ht Hp)).
  unfold Game.manhattan in *. lia.
Qed.

Lemma e2_either_defined (g : Game.t) (combine : Q -> Q -> Q) (k score : Q)
    (p p' : Player) (t t' : UnitType) (c1 c2 target : option Coord.t) :
  marks g p t c1 -> marks g p t c2 -> marks g p' t' target -> p <> p' ->
  exists q, Game.e2_either combine k c1 c2 target score = Ret q.
Proof.
  intros H1 H2 Ht Hp. unfold Game.e2_either.
  destruct target as [x|]; [|by eexists].
  destruct c1 as [a|], c2 as [b|]; try by eexists.
  - destruct (true_div_defined k (Game.manhattan b x)) as [q ->]; [|by eexists].
    by eapply manhattan_pos, marks_distinct.
  - destruct (true_div_defined k (Game.manhattan a x)) as [q ->]; [|by eexists].
    by eapply manhattan_pos, marks_distinct.
  - destruct (true_div_defined k (Game.manhattan b x)) as [q ->]; [|by eexists].
    by eapply manhattan_pos, marks_distinct.
Qed.

Lemma compute_heuristic_e2_total (g : Game.t) :
  board_wf g -> healthy g -> exists q, Game.compute_heuristic_e2 g = Ret q.
Proof.
  intros Hwf Hh. unfold Game.compute_heuristic_e2.
  destruct (foldM_invariant (Game.e2_scan g) (e2_locals_ok g) (Game.whole_board g)
              (Game.mk_e2 0%Q None None None None None None))
    as (l & -> & HA & HD & HV1 & HV2 & HT1 & HT2).
  { unfold e2_locals_ok. simpl. split_and!; apply marks_None. }
  { intros b c Hb. by apply e2_scan_ok. }
  simpl.
  destruct (e2_both_defined g (fun s v => s + v)%Q 100 (Game.heuristic_score l)
              _ _ _ _ _ _ _ HV1 HV2 HD) as [s1 ->]; [done|]. simpl.
  destruct (e2_either_defined g (fun s v => s + v - 9)%Q 100 s1
              _ _ _ _ _ _ _ HV1 HV2 HD) as [s2 ->]; [done|]. simpl.
  destruct (e2_both_defined g (fun s v => s - v)%Q 50 s2
              _ _ _ _ _ _ _ HT1 HT2 HA) as [s3 ->]; [done|]. simpl.
  destruct (e2_either_defined g (fun s v => s - v + 9)%Q 50 s3
              _ _ _ _ _ _ _ HT1 HT2 HA) as [s4 ->]; [done|].
  by eexists.
Qed.

(** C9.  On a [dim] x [dim] board whose units all have health between 1
    and 9, each of the three evaluators returns a score: no access leaves
    the board and no divisor is zero.  The divisors of [e2] are the
    Attacker AI's health and Manhattan distances between a cell holding an
    Attacker Virus (resp. Defender Tech) and the cell holding the other
    side's AI, which are different cells. *)
Theorem heuristics_total (g : Game.t) :
  board_wf g -> healthy g ->
  (exists z, Game.compute_heuristic_e0 g = Ret z)
  /\ (exists q, Game.compute_heuristic_e1 g = Ret q)
  /\ (exists q, Game.compute_heuristic_e2 g = Ret q).
Proof.
  intros Hwf Hh. split_and!.
  - by apply compute_heuristic_e0_total.
  - by apply compute_heuristic_e1_total.
  - by apply compute_heuristic_e2_total.
Qed.

Lemma heuristics_total_witness :
  (exists z, Game.compute_heuristic_e0 initial = Ret z)
  /\ (exists q, Game.compute_heuristic_e1 initial = Ret q)
  /\ (exists q, Game.compute_heuristic_e2 initial = Ret q).
Proof.
  apply (heuristics_total initial).
  - split; [reflexivity|repeat constructor].
  - apply healthyb_healthy. reflexivity.
Defined.

(** ** Search *)

(** C1 fails at the default depth 4.  In [endgame], a position reached by
    play from the opening, the Attacker's AI can strike the Program (both
    die: score -10002), strike the Firewall (score -6 right after the
    move) or self-destruct (score -10002).  Plain minimax looks at all
    seven Defender replies to the second move, the node reports the static
    score -10005 of the reply it prefers, and the root keeps the first move
    with score -10002.  Alpha-beta enters the second move with alpha =
    -10002; the first Defender reply already returns -10002, so the node
    is cut and reports the static score -6 of that reply's position, which
    the root then prefers: it selects the second move with score -6. *)
Theorem alphabeta_differs_from_minimax :
  play initial skirmish = Ret endgame
  /\ Game.has_winner endgame = None
  /\ answer (Game.minimax frozen_clock 4 endgame 1 Attacker 0%Q fresh_world)
     = Ret (Some ((-10002)%Q, Some (step 2 3 1 3)))
  /\ answer (Game.minimax_alphabeta frozen_clock 4 endgame 1 Attacker
               (inject_Z MIN_HEURISTIC_SCORE) (inject_Z MAX_HEURISTIC_SCORE)
               0%Q fresh_world)
     = Ret (Some ((-6)%Q, Some (step 2 3 2 2))).
Proof. split_and!; vm_compute; reflexivity. Qed.

(** The subtree under the Attacker's second candidate, where the two
    searches part. *)
Lemma endgame_second_candidate :
  Game.move_candidates_for_AI endgame Attacker
  = Ret [step 2 3 1 3; step 2 3 2 2; step 2 3 2 3]
  /\ match Game.perform_move_for_AI endgame (step 2 3 2 2) Attacker with
     | Ret (g', _) => g' = endgame_after_strike
     | Raise _ => False
     end
  /\ Game.evaluate endgame_after_strike = Ret (-6)%Q
  /\ Game.move_candidates_for_AI endgame_after_strike Defender
     = Ret [ step 0 1 1 1; step 0 1 0 2; step 0 1 0 1; step 1 3 2 3; step 1 3 1 3;
             step 2 2 2 3; step 2 2 2 2 ]
  /\ answer (Game.minimax frozen_clock 3 endgame_after_strike 2 Defender 0%Q fresh_world)
     = Ret (Some ((-10005)%Q, Some (step 2 2 2 3)))
  /\ answer (Game.minimax_alphabeta frozen_clock 3 endgame_after_strike 2 Defender
               (-10002)%Q (inject_Z MAX_HEURISTIC_SCORE) 0%Q fresh_world)
     = Ret (Some ((-6)%Q, Some (step 0 1 1 1))).
Proof. split_and!; vm_compute; reflexivity. Qed.

Lemma forfeit_flags (cs : list Coord.t) (g g' : Game.t) (p : Player) :
  Game.forfeit g p cs = Ret (Some g') ->
  Game._attacker_has_ai g' = Game._attacker_has_ai g
  /\ Game._defender_has_ai g' = Game._defender_has_ai g
  /\ Game.options g' = Game.options g
  /\ Game.turns_played g' = Game.turns_played g.
Proof.
  induction cs as [|c cs IH]; simpl; [done|].
  intros ([u|] & _ & H)%bind_Ret_inv; [|by apply IH].
  destruct (decide (Unit.player u = p)); [|by apply IH].
  destruct (decide (Unit.type u = AI)); [|by apply IH].
  apply bind_Ret_inv in H as (g1 & Hset & [= <-]).
  unfold Game.mutate, Game.set in Hset.
  destruct (Game.is_valid_coord g c); [|by injection Hset as <-].
  apply bind_Ret_inv in Hset as (r & _ & (r' & _ & (b' & _ & [= <-])%bind_Ret_inv)%bind_Ret_inv).
  done.
Qed.

(** Whatever the clock does, [suggest_move] leaves the has-AI flags, and
    with them the winner, as they were: its timeout branch only sets the
    health of the unit object to 0. *)
Lemma suggest_move_keeps_winner (now : nat -> Q) (fuel : nat) (g g' : Game.t)
    (w w' : Game.world) (r : option CoordPair.t * Game.report) :
  Game.suggest_move now fuel g w = Ret (g', w', r) ->
  Game._attacker_has_ai g' = Game._attacker_has_ai g
  /\ Game._defender_has_ai g' = Game._defender_has_ai g
  /\ Game.has_winner g' = Game.has_winner g.
Proof.
  unfold Game.suggest_move.
  destruct (Game.read_clock now w) as [start_time w1].
  intros ([[[score move]|] w2] & _ & H)%bind_Ret_inv; [|done].
  destruct (Game.read_clock now w2) as [t w3].
  destruct (Options.max_time (Game.options g)) as [max_time|]; [|done].
  apply bind_Ret_inv in H as (timed_out & Ht & H).
  destruct timed_out as [g1|].
  - injection H as <- _ _.
    destruct (Game.Qlt_bool max_time (t - start_time)); [|done].
    apply forfeit_flags in Ht as (Ha & Hd & Ho & Htp).
    unfold Game.has_winner. by rewrite Ha, Hd, Ho, Htp.
  - apply bind_Ret_inv in H as (percent & _ & H).
    apply bind_Ret_inv in H as (perf & _ & H).
    by injection H as <- _ _.
Qed.

(** C7 fails: after a search that overran the time budget, [suggest_move]
    answers with no move and the timeout text, but the Attacker's AI is
    still on the board (with health 0), the Attacker's has-AI flag is
    still set, and the game has no winner. *)
Theorem suggest_move_timeout_does_not_forfeit :
  match Game.suggest_move slow_clock 4 initial fresh_world with
  | Ret (g', _, reply) =>
      reply = (None, Game.Text "Computer timed out!")
      /\ cell g' (Coord.mk 4 4) = Some (Unit.mk Attacker AI 0)
      /\ Game._attacker_has_ai g' = true
      /\ Game.has_winner g' = None
      /\ Game.is_finished g' = false
  | Raise _ => False
  end.
Proof. vm_compute. by split_and!. Qed.

(** ** Coordinates as text *)

Lemma Z_below_cases (P : Z -> Prop) (n : nat) :
  (forall i : nat, (i < n)%nat -> P (Z.of_nat i)) ->
  forall z, 0 <= z < Z.of_nat n -> P z.
Proof.
  intros H z Hz. replace z with (Z.of_nat (Z.to_nat z)) by lia. apply H. lia.
Qed.

Lemma row_string_text (c : Coord.t) :
  0 <= Coord.row c < 26 ->
  exists a, Coord.row_string c = Ret (String a EmptyString) /\ plain a = true
            /\ py_find row_letters (py_upper (String a EmptyString)) = Coord.row c.
Proof.
  destruct c as [r c]. unfold Coord.row_string. simpl. revert r.
  apply (Z_below_cases _ 26). intros i Hi.
  do 26 (destruct i as [|i]; [by eexists|]). lia.
Qed.

Lemma col_string_text (c : Coord.t) :
  0 <= Coord.col c < 16 ->
  exists b, Coord.col_string c = Ret (String b EmptyString) /\ plain b = true
            /\ py_find col_digits (py_lower (String b EmptyString)) = Coord.col c.
Proof.
  destruct c as [r c]. unfold Coord.col_string. simpl. revert c.
  apply (Z_below_cases _ 16). intros i Hi.
  do 16 (destruct i as [|i]; [by eexists|]). lia.
Qed.

Lemma plain_spec (c : ascii) :
  plain c = true ->
  is_space c = false
  /\ Ascii.eqb c " " = false /\ Ascii.eqb c "," = false /\ Ascii.eqb c "." = false
  /\ Ascii.eqb c ":" = false /\ Ascii.eqb c ";" = false /\ Ascii.eqb c "-" = false
  /\ Ascii.eqb c "_" = false.
Proof.
  unfold plain. simpl. rewrite !andb_true_iff, !negb_true_iff. tauto.
Qed.

Lemma py_remove_plain (sep c : ascii) (s : string) :
  Ascii.eqb c sep = false -> py_remove sep (String c s) = String c (py_remove sep s).
Proof. intros H. simpl. by rewrite H. Qed.

Lemma strip_separators_plain (c : ascii) (s : string) :
  plain c = true -> strip_separators (String c s) = String c (strip_separators s).
Proof.
  intros (_ & H1 & H2 & H3 & H4 & H5 & H6 & H7)%plain_spec.
  unfold strip_separators. cbn [String.list_ascii_of_string foldl].
  by rewrite !py_remove_plain.
Qed.

Lemma strip_separators_space (s : string) :
  strip_separators (String " " s) = strip_separators s.
Proof. reflexivity. Qed.

Lemma py_rstrip_plain_last (c : ascii) :
  is_space c = false -> py_rstrip (String c EmptyString) = String c EmptyString.
Proof. intros H. simpl. by rewrite H. Qed.

Lemma py_rstrip_cons (c : ascii) (s : string) :
  py_rstrip s <> EmptyString -> py_rstrip (String c s) = String c (py_rstrip s).
Proof. intros H. simpl. by destruct (py_rstrip s). Qed.

(** Cleaning the text of a coordinate, resp. of a pair of coordinates. *)
Lemma clean_two (a b : ascii) :
  plain a = true -> plain b = true ->
  strip_separators (py_strip (String a (String b EmptyString)))
  = String a (String b EmptyString).
Proof.
  intros Ha Hb.
  pose proof (plain_spec a Ha) as (Hsa & _). pose proof (plain_spec b Hb) as (Hsb & _).
  unfold py_strip. cbn [py_lstrip]. rewrite Hsa.
  rewrite py_rstrip_cons; rewrite py_rstrip_plain_last by done; [|done].
  by rewrite !strip_separators_plain.
Qed.

Lemma clean_five (a b c d : ascii) :
  plain a = true -> plain b = true -> plain c = true -> plain d = true ->
  strip_separators
    (py_strip (String a (String b (String " " (String c (String d EmptyString))))))
  = String a (String b (String c (String d EmptyString))).
Proof.
  intros Ha Hb Hc Hd.
  pose proof (plain_spec a Ha) as (Hsa & _). pose proof (plain_spec d Hd) as (Hsd & _).
  unfold py_strip. cbn [py_lstrip]. rewrite Hsa.
  assert (py_rstrip (String d EmptyString) = String d EmptyString) as Hd1
    by (by apply py_rstrip_plain_last).
  assert (py_rstrip (String c (String d EmptyString)) = String c (String d EmptyString))
    as Hd2 by (rewrite py_rstrip_cons; rewrite Hd1; done).
  assert (py_rstrip (String " " (String c (String d EmptyString)))
          = String " " (String c (String d EmptyString)))
    as Hd3 by (rewrite py_rstrip_cons; rewrite Hd2; done).
  assert (py_rstrip (String b (String " " (String c (String d EmptyString))))
          = String b (String " " (String c (String d EmptyString))))
    as Hd4 by (rewrite py_rstrip_cons; rewrite Hd3; done).
  rewrite py_rstrip_cons; rewrite Hd4; [|done].
  rewrite !strip_separators_plain by done. rewrite strip_separators_space.
  by rewrite !strip_separators_plain.
Qed.

(** X1.  For a coordinate with row in [0,26) and column in [0,16),
    [to_string] returns a text and [from_string] reads the coordinate back
    from it. *)
Theorem coord_text_round_trip (c : Coord.t) :
  0 <= Coord.row c < 26 -> 0 <= Coord.col c < 16 ->
  exists s, Coord.to_string c = Ret s /\ Coord.from_string s = Some c.
Proof.
  intros Hr Hc.
  destruct (row_string_text c Hr) as (a & Ha & Hpa & Hfa).
  destruct (col_string_text c Hc) as (b & Hb & Hpb & Hfb).
  exists (String a (String b EmptyString)). split.
  - unfold Coord.to_string. by rewrite Ha, Hb.
  - unfold Coord.from_string. rewrite clean_two by done.
    cbn [String.length String.substring]. rewrite decide_True by done.
    fold row_letters col_digits. rewrite Hfa, Hfb. by destruct c.
Qed.

Lemma coord_text_round_trip_witness :
  exists s, Coord.to_string (Coord.mk 3 2) = Ret s
            /\ Coord.from_string s = Some (Coord.mk 3 2).
Proof. apply (coord_text_round_trip (Coord.mk 3 2)); simpl; lia. Defined.

(** X2.  A move whose four components are in range is read back by
    [CoordPair.from_string] from the text [CoordPair.to_string] gives it
    (the blank between the two coordinates is one of the dropped
    separators). *)
Theorem coord_pair_text_round_trip (p : CoordPair.t) :
  0 <= Coord.row (CoordPair.src p) < 26 -> 0 <= Coord.col (CoordPair.src p) < 16 ->
  0 <= Coord.row (CoordPair.dst p) < 26 -> 0 <= Coord.col (CoordPair.dst p) < 16 ->
  exists s, CoordPair.to_string p = Ret s /\ CoordPair.from_string s = Some p.
Proof.
  intros Hr Hc Hr' Hc'.
  destruct (row_string_text _ Hr) as (a & Ha & Hpa & Hfa).
  destruct (col_string_text _ Hc) as (b & Hb & Hpb & Hfb).
  destruct (row_string_text _ Hr') as (a' & Ha' & Hpa' & Hfa').
  destruct (col_string_text _ Hc') as (b' & Hb' & Hpb' & Hfb').
  exists (String a (String b (String " " (String a' (String b' EmptyString))))). split.
  - unfold CoordPair.to_string, Coord.to_string. by rewrite Ha, Hb, Ha', Hb'.
  - unfold CoordPair.from_string. rewrite clean_five by done.
    cbn [String.length String.substring]. rewrite decide_True by done.
    fold row_letters col_digits. rewrite Hfa, Hfb, Hfa', Hfb'.
    by destruct p as [[] []].
Qed.

Lemma coord_pair_text_round_trip_witness :
  exists s, CoordPair.to_string (step 0 3 1 2) = Ret s
            /\ CoordPair.from_string s = Some (step 0 3 1 2).
Proof. apply (coord_pair_text_round_trip (step 0 3 1 2)); simpl; lia. Defined.

Lemma find_letter_bounds (a : ascii) :
  -1 <= py_find row_letters (py_upper (String a EmptyString)) <= 25.
Proof. destruct a as [[] [] [] [] [] [] [] []]; vm_compute; split; discriminate. Qed.

Lemma find_digit_bounds (a : ascii) :
  -1 <= py_find col_digits (py_lower (String a EmptyString)) <= 15.
Proof. destruct a as [[] [] [] [] [] [] [] []]; vm_compute; split; discriminate. Qed.

(** X3.  [Coord.from_string] answers [None] only by length: a text that
    has two characters left after cleaning always gives a coordinate, whose
    row is the position of the first character among the 26 letters and
    whose column is the position of the second among the 16 hex digits, or
    -1 for a character that is neither.  So every coordinate it returns
    has row in [-1,25] and column in [-1,15]. *)
Theorem from_string_bounds (s : string) (c : Coord.t) :
  Coord.from_string s = Some c ->
  -1 <= Coord.row c <= 25 /\ -1 <= Coord.col c <= 15.
Proof.
  unfold Coord.from_string.
  destruct (strip_separators (py_strip s)) as [|a [|b [|x t]]]; simpl;
    try (intros [=]; fail).
  intros [= <-]. simpl.
  split; [apply find_letter_bounds|apply find_digit_bounds].
Qed.

Lemma from_string_bounds_witness :
  -1 <= Coord.row (Coord.mk 25 (-1)) <= 25 /\ -1 <= Coord.col (Coord.mk 25 (-1)) <= 15.
Proof. apply (from_string_bounds "zz" (Coord.mk 25 (-1))). reflexivity. Defined.

(** ** Geometry *)

(** X4.  [iter_adjacent] yields four different coordinates, and they are
    exactly the coordinates at Manhattan distance 1. *)
Theorem iter_adjacent_manhattan (c c' : Coord.t) :
  NoDup (Coord.iter_adjacent c)
  /\ (c' ∈ Coord.iter_adjacent c <->
      Z.abs (Coord.row c' - Coord.row c) + Z.abs (Coord.col c' - Coord.col c) = 1).
Proof.
  split.
  - unfold Coord.iter_adjacent. repeat apply NoDup_cons_2; try apply NoDup_nil_2;
      rewrite ?elem_of_cons, ?elem_of_nil; intros H;
      repeat destruct H as [H|H]; try done; injection H; lia.
  - rewrite elem_of_iter_adjacent. destruct c as [r k], c' as [r' k']. simpl. split.
    + intros [H|[H|[H|H]]]; injection H as -> ->; lia.
    + intros H.
      assert ((r' = r - 1 /\ k' = k) \/ (r' = r /\ k' = k - 1)
              \/ (r' = r + 1 /\ k' = k) \/ (r' = r /\ k' = k + 1)) as Hcases by lia.
      destruct Hcases as [[-> ->]|[[-> ->]|[[-> ->]|[-> ->]]]]; tauto.
Qed.

Lemma length_bind_const {A B : Type} (f : A -> list B) (l : list A) (k : nat) :
  (forall x, length (f x) = k) -> length (l ≫= f) = (length l * k)%nat.
Proof.
  intros Hf. induction l as [|x l IH]; [done|].
  rewrite bind_cons, length_app, Hf, IH. simpl. lia.
Qed.

(** X5.  [iter_range dist] yields each coordinate within Chebyshev
    distance [dist] exactly once and nothing else: (2 dist + 1)^2
    coordinates for a non-negative [dist], none for a negative one. *)
Theorem iter_range_square (c c' : Coord.t) (dist : Z) :
  NoDup (Coord.iter_range c dist)
  /\ (c' ∈ Coord.iter_range c dist <->
      Z.abs (Coord.row c' - Coord.row c) <= dist
      /\ Z.abs (Coord.col c' - Coord.col c) <= dist)
  /\ Z.of_nat (length (Coord.iter_range c dist)) = Z.max 0 (2 * dist + 1) ^ 2.
Proof.
  split_and!.
  - apply NoDup_iter_range.
  - rewrite elem_of_iter_range. lia.
  - unfold Coord.iter_range, range.
    rewrite (length_bind_const _ _ (Z.to_nat (Coord.col c + 1 + dist - (Coord.col c - dist)))).
    + rewrite length_seqZ. lia.
    + intros r. rewrite (length_bind_const _ _ 1); [|done]. rewrite length_seqZ. lia.
Qed.

(** ** Enumeration of units and candidate moves *)

Lemma elem_of_whole_board (g : Game.t) (c : Coord.t) :
  c ∈ Game.whole_board g <-> Game.is_valid_coord g c = true.
Proof.
  rewrite is_valid_coord_spec.
  unfold Game.whole_board, CoordPair.iter_rectangle, CoordPair.from_dim, range. simpl.
  rewrite list_elem_of_bind. split.
  - intros (r & (k & ->%list_elem_of_singleton & Hk%elem_of_seqZ)%list_elem_of_bind
              & Hr%elem_of_seqZ).
    simpl. lia.
  - intros [Hr Hc]. exists (Coord.row c). split.
    + apply list_elem_of_bind. exists (Coord.col c). split.
      * destruct c. by apply list_elem_of_singleton.
      * apply elem_of_seqZ. lia.
    + apply elem_of_seqZ. lia.
Qed.

Lemma player_units_fold (g : Game.t) (p : Player) (l : list Coord.t)
    (acc : list (Coord.t * Unit.t)) :
  board_wf g ->
  foldM (fun acc coord =>
           unit ← Game.get g coord;
           match unit with
           | Some u =>
               if decide (Unit.player u = p) then Ret (acc ++ [(coord, u)])
               else Ret acc
           | None => Ret acc
           end) acc l
  = Ret (acc ++ omap (unit_of g p) l).
Proof.
  intros Hwf. revert acc. induction l as [|c l IH]; intros acc; simpl.
  - by rewrite app_nil_r.
  - rewrite get_cell by done. simpl. unfold unit_of at 1.
    destruct (cell g c) as [u|]; [|simpl; apply IH].
    destruct (decide (Unit.player u = p)); [|simpl; apply IH].
    simpl. rewrite IH. by rewrite <- app_assoc.
Qed.

Lemma player_units_omap (g : Game.t) (p : Player) :
  board_wf g ->
  Game.player_units g p = Ret (omap (unit_of g p) (Game.whole_board g)).
Proof. intros Hwf. unfold Game.player_units. by rewrite player_units_fold. Qed.

Lemma NoDup_omap_inj {A B : Type} (f : A -> option B) (l : list A) :
  (forall x1 x2 y, f x1 = Some y -> f x2 = Some y -> x1 = x2) ->
  NoDup l -> NoDup (omap f l).
Proof.
  intros Hinj. induction 1 as [|x l Hx Hl IH]; simpl; [constructor|].
  destruct (f x) as [y|] eqn:Hfx; [|done].
  constructor; [|done].
  intros (x' & Hx' & Hfx')%list_elem_of_omap.
  by rewrite (Hinj x x' y) in Hx.
Qed.

Lemma NoDup_whole_board (g : Game.t) : NoDup (Game.whole_board g).
Proof.
  unfold Game.whole_board, CoordPair.iter_rectangle, range.
  apply NoDup_bind; [| |apply NoDup_seqZ].
  - intros r1 r2 c _ _
      (k1 & ->%list_elem_of_singleton & _)%list_elem_of_bind
      (k2 & [= -> _]%list_elem_of_singleton & _)%list_elem_of_bind.
    done.
  - intros r _. apply NoDup_bind; [| |apply NoDup_seqZ].
    + by intros k1 k2 c _ _ ->%list_elem_of_singleton [= ->]%list_elem_of_singleton.
    + intros k _. apply NoDup_singleton.
Qed.

Lemma unit_of_Some (g : Game.t) (p : Player) (c c' : Coord.t) (u : Unit.t) :
  unit_of g p c = Some (c', u) <-> c' = c /\ cell g c = Some u /\ Unit.player u = p.
Proof.
  unfold unit_of. destruct (cell g c) as [u'|]; [|by split; [|intros (_ & ? & _)]].
  destruct (decide (Unit.player u' = p)) as [Hp|Hp].
  - split; [by intros [= <- <-]|]. by intros (-> & [= ->] & _).
  - split; [done|]. by intros (_ & [= ->] & ?).
Qed.

(** X6.  On a [dim] x [dim] board [player_units] returns, each once,
    exactly the occupied cells whose unit belongs to the player, paired
    with that unit. *)
Theorem player_units_spec (g : Game.t) (p : Player) :
  board_wf g ->
  exists l, Game.player_units g p = Ret l
    /\ NoDup l
    /\ forall c u, (c, u) ∈ l <-> cell g c = Some u /\ Unit.player u = p.
Proof.
  intros Hwf. exists (omap (unit_of g p) (Game.whole_board g)).
  split_and!; [by apply player_units_omap| |].
  - apply NoDup_omap_inj; [|apply NoDup_whole_board].
    intros c1 c2 [c u] (-> & _)%unit_of_Some (-> & _)%unit_of_Some. done.
  - intros c u. rewrite list_elem_of_omap. split.
    + by intros (c' & _ & (-> & ? & ?)%unit_of_Some).
    + intros [Hc Hp]. exists c. split.
      * apply elem_of_whole_board. by eapply cell_Some_valid.
      * by apply unit_of_Some.
Qed.

Lemma player_units_spec_witness :
  exists l, Game.player_units initial Attacker = Ret l
    /\ NoDup l
    /\ forall c u, (c, u) ∈ l <-> cell initial c = Some u /\ Unit.player u = Attacker.
Proof. apply (player_units_spec initial Attacker). exact initial_wf. Defined.

#[local] Opaque gen_contains Coord.iter_adjacent.

Lemma is_valid_move_for_AI_total (g : Game.t) (m : CoordPair.t) (p : Player) :
  board_wf g -> exists b, Game.is_valid_move_for_AI g m p = Ret b.
Proof.
  intros Hwf. unfold Game.is_valid_move_for_AI.
  destruct (negb _ || negb _); [by eexists|].
  rewrite !get_cell by done. simpl.
  destruct (cell g (CoordPair.src m)) as [unit|]; [|by eexists].
  destruct (decide (Unit.player unit <> p)); [by eexists|].
  destruct (decide (CoordPair.src m = CoordPair.dst m)); [by eexists|].
  destruct (cell g (CoordPair.dst m)) as [target|].
  - destruct (bool_decide _ && _); [by eexists|].
    destruct (decide (Unit.player target <> Unit.player unit)); by eexists.
  - destruct (bool_decide _ || bool_decide _); [by eexists|].
    destruct (engaged_spec g unit (Coord.iter_adjacent (CoordPair.src m)) Hwf)
      as (e & -> & _). simpl. destruct e; by eexists.
Qed.

(** What the search-side predicate accepts on an orthogonal neighbour (or
    as a self-destruct) for the player to move, the interactive predicate
    accepts too. *)
Lemma accepted_for_AI_accepted (g : Game.t) (m : CoordPair.t) :
  board_wf g -> one_step m ->
  Game.is_valid_move_for_AI g m (Game.next_player g) = Ret true ->
  Game.is_valid_move g m = Ret true.
Proof.
  intros Hwf Hstep. unfold Game.is_valid_move_for_AI, Game.is_valid_move.
  destruct (negb _ || negb _); [done|].
  rewrite !get_cell by done. simpl.
  destruct (cell g (CoordPair.src m)) as [unit|]; [|done].
  destruct (decide (Unit.player unit <> Game.next_player g)); [done|].
  destruct (decide (CoordPair.src m = CoordPair.dst m)) as [Heq|Hne]; [done|].
  destruct Hstep as [?|Hadj]; [congruence|].
  pose proof (gen_contains_suffix (CoordPair.dst m)
                (Coord.iter_adjacent (CoordPair.src m))) as Hsuf.
  apply gen_contains_found in Hadj.
  destruct (gen_contains _ _) as [found rest]. simpl in Hadj, Hsuf. subst found. simpl.
  destruct (cell g (CoordPair.dst m)) as [target|]; [done|].
  destruct (bool_decide _ || bool_decide _); [done|].
  destruct (engaged_spec g unit (Coord.iter_adjacent (CoordPair.src m)) Hwf)
    as (e & -> & He).
  destruct (engaged_spec g unit rest Hwf) as (e' & -> & He'). simpl.
  destruct e; [done|]. destruct e'; [|done].
  destruct He' as [(c & a & Hin & Hc & Hpl) _]; [done|].
  assert (false = true) as Habs; [|done].
  apply He. exists c, a. split; [|done].
  destruct Hsuf as [k ->]. apply elem_of_app. by right.
Qed.

#[local] Transparent gen_contains Coord.iter_adjacent.

Lemma accepts_for_AI_true (g : Game.t) (p : Player) (m : CoordPair.t) :
  accepts_for_AI g p m = true <-> Game.is_valid_move_for_AI g m p = Ret true.
Proof.
  unfold accepts_for_AI. destruct (Game.is_valid_move_for_AI g m p) as [[]|]; split; try done.
  all: by intros [=].
Qed.

Lemma accepted_source (g : Game.t) (m : CoordPair.t) (p : Player) :
  board_wf g -> Game.is_valid_move_for_AI g m p = Ret true ->
  Game.is_valid_coord g (CoordPair.src m) = true
  /\ Game.is_valid_coord g (CoordPair.dst m) = true
  /\ exists u, cell g (CoordPair.src m) = Some u /\ Unit.player u = p.
Proof.
  intros Hwf. unfold Game.is_valid_move_for_AI.
  destruct (Game.is_valid_coord g (CoordPair.src m)); [|by intros [=]].
  destruct (Game.is_valid_coord g (CoordPair.dst m)); simpl; [|by intros [=]].
  rewrite (get_cell g (CoordPair.src m)) by done. simpl.
  destruct (cell g (CoordPair.src m)) as [unit|]; [|by intros [=]].
  destruct (decide (Unit.player unit <> p)) as [|Hp]; [by intros [=]|].
  intros _. split_and!; try done. exists unit. split; [done|].
  by destruct (decide (Unit.player unit = p)).
Qed.

Lemma adjacent_candidates_fold (g : Game.t) (p : Player) (src : Coord.t)
    (l : list Coord.t) (acc : list CoordPair.t) :
  board_wf g ->
  foldM (fun acc' dst =>
           ok ← Game.is_valid_move_for_AI g (CoordPair.mk src dst) p;
           if (ok : bool) then Ret (acc' ++ [CoordPair.mk src dst]) else Ret acc')
        acc l
  = Ret (acc ++ filter (fun m => accepts_for_AI g p m = true) (CoordPair.mk src <$> l)).
Proof.
  intros Hwf. revert acc. induction l as [|d l IH]; intros acc.
  - simpl. by rewrite app_nil_r.
  - cbn [foldM]. rewrite fmap_cons, filter_cons.
    destruct (is_valid_move_for_AI_total g (CoordPair.mk src d) p Hwf) as [b Hb].
    assert (accepts_for_AI g p (CoordPair.mk src d) = b) as Hacc
      by (unfold accepts_for_AI; by rewrite Hb).
    rewrite Hb. cbn [mbind result_bind]. destruct b.
    + rewrite decide_True by done. cbn [mbind result_bind].
      rewrite IH. by rewrite <- app_assoc.
    + rewrite decide_False by (by rewrite Hacc). cbn [mbind result_bind]. apply IH.
Qed.

Lemma candidates_fold (g : Game.t) (p : Player) (units : list (Coord.t * Unit.t))
    (acc : list CoordPair.t) :
  board_wf g ->
  foldM (fun acc '(src, _) =>
           adj ← foldM (fun acc' dst =>
                          ok ← Game.is_valid_move_for_AI g (CoordPair.mk src dst) p;
                          if (ok : bool) then Ret (acc' ++ [CoordPair.mk src dst])
                          else Ret acc')
                       [] (Coord.iter_adjacent src);
           Ret (acc ++ adj ++ [CoordPair.mk src src]))
        acc units
  = Ret (acc ++ (units ≫= fun '(src, _) =>
                   filter (fun m => accepts_for_AI g p m = true)
                          (CoordPair.mk src <$> Coord.iter_adjacent src)
                   ++ [CoordPair.mk src src])).
Proof.
  intros Hwf. revert acc. induction units as [|[src u] units IH]; intros acc.
  - simpl. by rewrite app_nil_r.
  - rewrite bind_cons. cbn [foldM].
    rewrite adjacent_candidates_fold by done. cbn [mbind result_bind app].
    rewrite IH. by rewrite <- !app_assoc.
Qed.

(** The candidate list, characterised. *)
Lemma candidates_characterised (g : Game.t) (p : Player) :
  board_wf g ->
  exists l, Game.move_candidates_for_AI g p = Ret l
    /\ forall m, m ∈ l <->
         Game.has_winner g = None /\ one_step m
         /\ Game.is_valid_move_for_AI g m p = Ret true.
Proof.
  intros Hwf. unfold Game.move_candidates_for_AI.
  destruct (Game.has_winner g) as [win|].
  { exists []. split; [done|]. intros m. split; [by intros ?%elem_of_nil|].
    by intros [? _]. }
  rewrite player_units_omap by done. cbn [mbind result_bind].
  rewrite candidates_fold by done. eexists. split; [reflexivity|].
  intros m. rewrite app_nil_l, list_elem_of_bind. split.
  - intros ([src u] & Hm & (c & _ & (-> & Hc & Hp)%unit_of_Some)%list_elem_of_omap).
    split; [done|].
    apply elem_of_app in Hm as [Hm | ->%list_elem_of_singleton].
    + apply list_elem_of_filter in Hm as [Hacc (d & -> & Hd)%list_elem_of_fmap].
      split; [by right|]. by apply accepts_for_AI_true.
    + split; [by left|]. subst p. by apply self_destruct_legality.
  - intros (_ & Hstep & Hvalid).
    destruct (accepted_source g m p Hwf Hvalid) as (Hvs & _ & u & Hu & Hp).
    exists (CoordPair.src m, u). split.
    + apply elem_of_app. destruct m as [src dst]. unfold one_step in Hstep.
      cbn [CoordPair.src CoordPair.dst] in *.
      destruct Hstep as [-> | Hadj]; [right; by apply list_elem_of_singleton|].
      left. apply list_elem_of_filter. split; [by apply accepts_for_AI_true|].
      apply list_elem_of_fmap. by exists dst.
    + apply list_elem_of_omap. exists (CoordPair.src m). split.
      * by apply elem_of_whole_board.
      * by apply unit_of_Some.
Qed.

(** X7.  [move_candidates_for_AI] enumerates exactly the legal one-step
    moves: while the game has no winner, a move is in the list if and
    only if its destination is its source or an orthogonal neighbour of it
    and [is_valid_move_for_AI] accepts it (so there is a self-destruct for
    every unit of the player); once the game has a winner the list is
    empty. *)
Theorem move_candidates_for_AI_spec (g : Game.t) (p : Player) :
  board_wf g ->
  exists l, Game.move_candidates_for_AI g p = Ret l
    /\ forall m, m ∈ l <->
         Game.has_winner g = None /\ one_step m
         /\ Game.is_valid_move_for_AI g m p = Ret true.
Proof. apply candidates_characterised. Qed.

Lemma move_candidates_for_AI_spec_witness :
  exists l, Game.move_candidates_for_AI initial Attacker = Ret l
    /\ forall m, m ∈ l <->
         Game.has_winner initial = None /\ one_step m
         /\ Game.is_valid_move_for_AI initial m Attacker = Ret true.
Proof. apply (move_candidates_for_AI_spec initial Attacker). exact initial_wf. Defined.

(** X8.  Every move the search enumerates for the player to move passes
    the legality guard of [perform_move]. *)
Theorem candidates_pass_interactive_guard (g : Game.t) (l : list CoordPair.t)
    (m : CoordPair.t) :
  board_wf g ->
  Game.move_candidates_for_AI g (Game.next_player g) = Ret l ->
  m ∈ l ->
  Game.is_valid_move g m = Ret true.
Proof.
  intros Hwf Hl Hm.
  pose proof (move_candidates_for_AI_adjacent g _ l Hl) as Hadj.
  rewrite Forall_forall in Hadj. specialize (Hadj m Hm).
  apply accepted_for_AI_accepted; [done..|].
  destruct (candidates_characterised g (Game.next_player g) Hwf) as (l' & Hl' & Hspec).
  rewrite Hl in Hl'. injection Hl' as <-. by apply Hspec in Hm as (_ & _ & ?).
Qed.

Lemma candidates_pass_interactive_guard_witness :
  Game.is_valid_move initial (step 2 4 1 4) = Ret true.
Proof.
  apply (candidates_pass_interactive_guard initial
           [ step 2 4 1 4; step 2 4 2 3; step 2 4 2 4; step 3 3 2 3; step 3 3 3 2;
             step 3 3 3 3; step 3 4 3 4; step 4 2 3 2; step 4 2 4 1; step 4 2 4 2;
             step 4 3 4 3; step 4 4 4 4 ]).
  - exact initial_wf.
  - reflexivity.
  - apply list_elem_of_here.
Defined.

(** ** What move resolution leaves alone *)

Lemma carried_refl (g : Game.t) : carried g g.
Proof. by repeat split. Qed.

Lemma carried_trans (g1 g2 g3 : Game.t) : carried g1 g2 -> carried g2 g3 -> carried g1 g3.
Proof.
  intros (? & ? & ? & ? & ?) (? & ? & ? & ? & ?). split_and!; try congruence; auto.
Qed.

Lemma set_carried (g g' : Game.t) (c : Coord.t) (u : option Unit.t) :
  Game.set g c u = Ret g' -> carried g g'.
Proof.
  unfold Game.set. destruct (Game.is_valid_coord g c); [|intros [= <-]; apply carried_refl].
  intros (r & _ & (r' & _ & (b' & _ & [= <-])%bind_Ret_inv)%bind_Ret_inv)%bind_Ret_inv.
  by repeat split.
Qed.

Lemma remove_dead_carried (g g' : Game.t) (c : Coord.t) :
  Game.remove_dead g c = Ret g' -> carried g g'.
Proof.
  unfold Game.remove_dead.
  intros ([u|] & _ & H)%bind_Ret_inv; [|injection H as <-; apply carried_refl].
  destruct (negb (Unit.is_alive u)); [|injection H as <-; apply carried_refl].
  apply bind_Ret_inv in H as (g1 & (Ho & Hn & Ht & Ha & Hd)%set_carried & H).
  destruct (decide (Unit.type u = AI)); [destruct (decide (Unit.player u = Attacker))|];
    injection H as <-; split_and!; try done.
Qed.

Lemma mod_health_carried (g g' : Game.t) (c : Coord.t) (delta : Z) :
  Game.mod_health g c delta = Ret g' -> carried g g'.
Proof.
  unfold Game.mod_health.
  intros ([u|] & _ & H)%bind_Ret_inv; [|injection H as <-; apply carried_refl].
  apply bind_Ret_inv in H as (g1 & H1%set_carried & H2%remove_dead_carried).
  by eapply carried_trans.
Qed.

Lemma blast_carried (cs : list Coord.t) (g g' : Game.t) (delta : Z) :
  foldM (fun g c => Game.mod_health g c delta) g cs = Ret g' -> carried g g'.
Proof.
  revert g. induction cs as [|c cs IH]; intros g; simpl.
  - intros [= <-]. apply carried_refl.
  - intros (g1 & H1%mod_health_carried & H)%bind_Ret_inv.
    eapply carried_trans; [done|]. by apply IH.
Qed.

Lemma perform_move_for_AI_carried (g g' : Game.t) (m : CoordPair.t) (p : Player)
    (r : bool * string) :
  Game.perform_move_for_AI g m p = Ret (g', r) -> carried g g'.
Proof.
  unfold Game.perform_move_for_AI.
  intros (dst_unit & _ & (src_unit & _ & H)%bind_Ret_inv)%bind_Ret_inv.
  destruct dst_unit as [dst_unit|].
  - destruct src_unit as [src_unit|]; [|done].
    destruct (decide (CoordPair.dst m = CoordPair.src m)).
    + apply bind_Ret_inv in H as (g1 & H1%set_carried & H).
      apply bind_Ret_inv in H as (g2 & H2%remove_dead_carried & H).
      apply bind_Ret_inv in H as (g3 & H3%blast_carried & H).
      apply bind_Ret_inv in H as (s & _ & [= <- _]).
      eauto using carried_trans.
    + destruct (decide (Unit.player dst_unit = p)).
      * apply bind_Ret_inv in H as (g1 & H1%set_carried & H).
        apply bind_Ret_inv in H as (s & _ & (d & _ & [= <- _])%bind_Ret_inv).
        done.
      * apply bind_Ret_inv in H as (g1 & H1%set_carried & H).
        apply bind_Ret_inv in H as (g2 & H2%set_carried & H).
        apply bind_Ret_inv in H as (g3 & H3%remove_dead_carried & H).
        apply bind_Ret_inv in H as (g4 & H4%remove_dead_carried & H).
        apply bind_Ret_inv in H as (s & _ & (d & _ & [= <- _])%bind_Ret_inv).
        eauto using carried_trans.
  - apply bind_Ret_inv in H as (g1 & H1%set_carried & H).
    apply bind_Ret_inv in H as (g2 & H2%set_carried & H).
    apply bind_Ret_inv in H as (s & _ & (d & _ & [= <- _])%bind_Ret_inv).
    eauto using carried_trans.
Qed.

Lemma carried_finished (g g' : Game.t) :
  carried g g' -> Game.is_finished g = true -> Game.is_finished g' = true.
Proof.
  intros (Ho & _ & Ht & Ha & Hd). unfold Game.is_finished, Game.has_winner.
  rewrite Ho, Ht.
  destruct (match Options.max_turns (Game.options g) with
            | Some max_turns => max_turns <=? Game.turns_played g
            | None => false
            end); [done|].
  destruct (Game._attacker_has_ai g') eqn:Ha', (Game._defender_has_ai g') eqn:Hd';
    try done.
  by rewrite Ha, Hd.
Qed.

(** X9.  Resolving a move, legal or not, never touches the configuration,
    the player to move or the turn counter, and never sets a has-AI flag
    again; a finished game therefore stays finished.  In particular every
    position the search explores carries the turn count of the real
    game. *)
Theorem resolution_keeps_turn (g g' : Game.t) (m : CoordPair.t) (p : Player)
    (r : bool * string) :
  Game.perform_move_for_AI g m p = Ret (g', r) \/ Game.perform_move g m = Ret (g', r) ->
  Game.options g' = Game.options g
  /\ Game.next_player g' = Game.next_player g
  /\ Game.turns_played g' = Game.turns_played g
  /\ (Game._attacker_has_ai g' = true -> Game._attacker_has_ai g = true)
  /\ (Game._defender_has_ai g' = true -> Game._defender_has_ai g = true)
  /\ (Game.is_finished g = true -> Game.is_finished g' = true).
Proof.
  intros H. assert (carried g g') as Hc.
  { destruct H as [H|H]; [by eapply perform_move_for_AI_carried|].
    destruct (Game.is_valid_move g m) as [[]|] eqn:Hv.
    - rewrite perform_move_as_AI in H by done. by eapply perform_move_for_AI_carried.
    - unfold Game.perform_move in H. rewrite Hv in H. simpl in H.
      apply bind_Ret_inv in H as (s & _ & (d & _ & [= <- _])%bind_Ret_inv).
      apply carried_refl.
    - unfold Game.perform_move in H. by rewrite Hv in H. }
  pose proof (carried_finished g g' Hc). destruct Hc as (? & ? & ? & ? & ?).
  by split_and!.
Qed.

Lemma resolution_keeps_turn_witness :
  Game.options endgame_after_strike = Game.options endgame
  /\ Game.next_player endgame_after_strike = Game.next_player endgame
  /\ Game.turns_played endgame_after_strike = Game.turns_played endgame
  /\ (Game._attacker_has_ai endgame_after_strike = true ->
      Game._attacker_has_ai endgame = true)
  /\ (Game._defender_has_ai endgame_after_strike = true ->
      Game._defender_has_ai endgame = true)
  /\ (Game.is_finished endgame = true -> Game.is_finished endgame_after_strike = true).
Proof.
  apply (resolution_keeps_turn endgame endgame_after_strike (step 2 3 2 2) Attacker
           (true, "Attacker has moved C3 to damage C2"%string)).
  left. reflexivity.
Defined.

(** ** Invariants of the board *)

Lemma mod_health_kind (u : Unit.t) (delta : Z) :
  Unit.player (Unit.mod_health u delta) = Unit.player u
  /\ Unit.type (Unit.mod_health u delta) = Unit.type u
  /\ 0 <= Unit.health (Unit.mod_health u delta) <= 9.
Proof.
  unfold Unit.mod_health.
  destruct (Z.ltb_spec (Unit.health u + delta) 0); [simpl; split_and!; (done || lia)|].
  destruct (Z.ltb_spec 9 (Unit.health u + delta)); simpl; split_and!; (done || lia).
Qed.

Lemma struck_alive (delta : Z) (o : option Unit.t) (v : Unit.t) :
  struck delta o = Some v -> 1 <= Unit.health v <= 9.
Proof.
  destruct o as [u|]; [|done]. simpl.
  destruct (Unit.is_alive (Unit.mod_health u delta)) eqn:Ha; [|done].
  intros [= <-]. unfold Unit.is_alive in Ha. apply Z.ltb_lt in Ha.
  destruct (mod_health_kind u delta) as (_ & _ & ?). lia.
Qed.

Lemma has_ai_put_kind (g : Game.t) (c : Coord.t) (u u' : Unit.t) (p : Player) :
  board_wf g -> cell g c = Some u ->
  Unit.player u' = Unit.player u -> Unit.type u' = Unit.type u ->
  has_ai g p -> has_ai (put g c (Some u')) p.
Proof.
  intros Hwf Hc Hp Ht (c0 & u0 & Hc0 & Hp0 & Ht0).
  pose proof (cell_Some_valid _ _ _ Hc) as Hv.
  destruct (decide (c0 = c)) as [->|Hne].
  - exists c, u'. rewrite cell_put_eq by done. split; [done|]. split; congruence.
  - exists c0, u0. by rewrite cell_put_ne.
Qed.

Lemma has_ai_put_other (g : Game.t) (c : Coord.t) (o : option Unit.t) (p : Player) :
  (forall u, cell g c = Some u -> Unit.type u = AI -> Unit.player u <> p) ->
  has_ai g p -> has_ai (put g c o) p.
Proof.
  intros Hc (c0 & u0 & Hc0 & Hp0 & Ht0). exists c0, u0.
  rewrite cell_put_ne; [done|]. intros ->. by eapply Hc.
Qed.

Lemma flags_ok_put_kind (g : Game.t) (c : Coord.t) (u u' : Unit.t) :
  board_wf g -> cell g c = Some u ->
  Unit.player u' = Unit.player u -> Unit.type u' = Unit.type u ->
  flags_ok g -> flags_ok (put g c (Some u')).
Proof.
  intros Hwf Hc Hp Ht [Ha Hd]. unfold flags_ok.
  destruct (put_options g c (Some u')) as (_ & _ & _ & -> & ->).
  split; intros H; eapply has_ai_put_kind; eauto.
Qed.

Lemma flags_ok_relocate (g : Game.t) (src dst : Coord.t) (u : Unit.t) :
  board_wf g -> cell g src = Some u -> cell g dst = None ->
  Game.is_valid_coord g dst = true ->
  flags_ok g -> flags_ok (put (put g dst (Some u)) src None).
Proof.
  intros Hwf Hsrc Hdst Hvd [Ha Hd].
  assert (src <> dst) as Hne by congruence.
  assert (forall p, has_ai g p -> has_ai (put (put g dst (Some u)) src None) p) as Hkeep.
  { intros p (c0 & u0 & Hc0 & Hp0 & Ht0).
    destruct (decide (c0 = src)) as [->|Hn0].
    - exists dst, u. rewrite cell_put_ne, cell_put_eq by done.
      split; [done|]. split; congruence.
    - exists c0, u0. rewrite cell_put_ne by done.
      rewrite cell_put_ne; [done|]. congruence. }
  unfold flags_ok.
  destruct (put_options (put g dst (Some u)) src None) as (_ & _ & _ & -> & ->).
  destruct (put_options g dst (Some u)) as (_ & _ & _ & -> & ->).
  split; intros H; apply Hkeep; auto.
Qed.

Lemma remove_dead_keeps (g g' : Game.t) (c : Coord.t) :
  board_wf g -> flags_ok g -> Game.remove_dead g c = Ret g' ->
  board_wf g' /\ flags_ok g'.
Proof.
  intros Hwf Hf Hrun. split.
  { destruct (remove_dead_spec g c Hwf) as (g1 & Hr & (? & _) & _). congruence. }
  revert Hrun. destruct Hf as [Ha Hd]. unfold Game.remove_dead. rewrite get_cell by done. simpl.
  destruct (cell g c) as [u|] eqn:Hc; [|by intros [= <-]].
  destruct (Unit.is_alive u); simpl; [by intros [= <-]|].
  rewrite set_put by done. simpl.
  destruct (put_options g c None) as (_ & _ & _ & Hfa & Hfd).
  destruct (decide (Unit.type u = AI)) as [Hai|Hnai];
    [destruct (decide (Unit.player u = Attacker)) as [Hp|Hp]|]; intros [= <-];
    unfold flags_ok; simpl; rewrite ?Hfa, ?Hfd; (split; [intros H|intros H]); try done.
  - apply (has_ai_put_other g c None Defender); [|by auto].
    intros v. rewrite Hc. intros [= <-] _. by rewrite Hp.
  - apply (has_ai_put_other g c None Attacker); [|by auto].
    intros v. rewrite Hc. by intros [= <-] _.
  - apply (has_ai_put_other g c None Attacker); [|by auto].
    intros v. rewrite Hc. by intros [= <-] ?.
  - apply (has_ai_put_other g c None Defender); [|by auto].
    intros v. rewrite Hc. by intros [= <-] ?.
Qed.

Lemma mod_health_flags_ok (g g' : Game.t) (c : Coord.t) (delta : Z) :
  board_wf g -> flags_ok g -> Game.mod_health g c delta = Ret g' ->
  board_wf g' /\ flags_ok g'.
Proof.
  intros Hwf Hf.
  destruct (mod_health_spec g c delta Hwf) as (g1 & Hrun & (Hwf1 & _) & _).
  rewrite Hrun. intros [= <-]. split; [done|]. revert Hrun.
  unfold Game.mod_health. rewrite get_cell by done. simpl.
  destruct (cell g c) as [u|] eqn:Hc; [|by intros [= <-]].
  unfold Game.mutate. rewrite set_put by done. simpl.
  destruct (mod_health_kind u delta) as (Hp & Ht & _).
  apply remove_dead_keeps; [by apply put_wf|by eapply flags_ok_put_kind].
Qed.

Lemma blast_flags_ok (cs : list Coord.t) (g g' : Game.t) (delta : Z) :
  board_wf g -> flags_ok g ->
  foldM (fun g c => Game.mod_health g c delta) g cs = Ret g' ->
  board_wf g' /\ flags_ok g'.
Proof.
  intros Hwf Hf H.
  revert H. apply (foldM_preserves _ (fun g => board_wf g /\ flags_ok g)); [done|].
  intros g1 c g2 _ [Hwf1 Hf1]. by apply mod_health_flags_ok.
Qed.

(** Whatever branch resolves the move, the board keeps its shape and the
    has-AI flags stay backed by a unit. *)
Lemma perform_move_for_AI_keeps (g g' : Game.t) (m : CoordPair.t) (p : Player)
    (u : Unit.t) (r : bool * string) :
  board_wf g -> flags_ok g ->
  cell g (CoordPair.src m) = Some u ->
  Game.is_valid_coord g (CoordPair.dst m) = true ->
  Game.perform_move_for_AI g m p = Ret (g', r) ->
  board_wf g' /\ flags_ok g'.
Proof.
  intros Hwf Hf Hsrc Hvd. unfold Game.perform_move_for_AI.
  rewrite !get_cell, Hsrc by done. simpl.
  destruct (cell g (CoordPair.dst m)) as [t|] eqn:Hdst.
  - destruct (decide (CoordPair.dst m = CoordPair.src m)) as [Heq|Hne].
    + unfold Game.mutate. rewrite set_put by done. simpl.
      intros (g2 & H2 & H)%bind_Ret_inv.
      apply bind_Ret_inv in H as (g3 & H3 & H).
      apply bind_Ret_inv in H as (s & _ & [= <- _]).
      destruct (mod_health_kind u (- Unit.health u)) as (Hp & Ht & _).
      apply remove_dead_keeps in H2 as [Hwf2 Hf2];
        [|by apply put_wf|by eapply flags_ok_put_kind].
      by apply blast_flags_ok in H3.
    + destruct (decide (Unit.player t = p)).
      * unfold Game.mutate. rewrite set_put by done. simpl.
        intros (s & _ & (d & _ & [= <- _])%bind_Ret_inv)%bind_Ret_inv.
        destruct (mod_health_kind t (Unit.repair_amount u t)) as (Hp & Ht & _).
        split; [by apply put_wf|by eapply flags_ok_put_kind].
      * unfold Game.mutate. rewrite set_put by done. simpl.
        rewrite set_put by (by apply put_wf). simpl.
        intros (g3 & H3 & H)%bind_Ret_inv.
        apply bind_Ret_inv in H as (g4 & H4 & H).
        apply bind_Ret_inv in H as (s & _ & (d & _ & [= <- _])%bind_Ret_inv).
        set (t' := Unit.mod_health t (- Unit.damage_amount u t)) in *.
        destruct (mod_health_kind t (- Unit.damage_amount u t)) as (Hp & Ht & _).
        destruct (mod_health_kind u (- Unit.damage_amount t' u)) as (Hp' & Ht' & _).
        apply remove_dead_keeps in H3 as [Hwf3 Hf3].
        -- by apply remove_dead_keeps in H4.
        -- by do 2 apply put_wf.
        -- eapply flags_ok_put_kind; [by apply put_wf| |done|done|].
           ++ rewrite cell_put_ne by done. exact Hsrc.
           ++ by eapply flags_ok_put_kind.
  - rewrite set_put by done. simpl. rewrite set_put by (by apply put_wf). simpl.
    intros (s & _ & (d & _ & [= <- _])%bind_Ret_inv)%bind_Ret_inv.
    split; [by do 2 apply put_wf|by apply flags_ok_relocate].
Qed.

Lemma mod_health_alive (t : Unit.t) (delta : Z) :
  1 <= Unit.health t + delta -> 1 <= Unit.health (Unit.mod_health t delta) <= 9.
Proof.
  intros H. unfold Unit.mod_health.
  destruct (Z.ltb_spec (Unit.health t + delta) 0); [lia|].
  destruct (Z.ltb_spec 9 (Unit.health t + delta)); simpl; lia.
Qed.

(** A self-destruct or a step onto a neighbouring cell of the board, by a
    unit that is there, is resolved without raising and leaves a board of
    the same shape whose units have health 1 to 9 and whose has-AI flags
    are backed by a unit. *)
Lemma resolution_invariants (g : Game.t) (m : CoordPair.t) (u : Unit.t) :
  board_wf g -> healthy g -> flags_ok g ->
  cell g (CoordPair.src m) = Some u ->
  Game.is_valid_coord g (CoordPair.dst m) = true ->
  one_step m ->
  exists g' msg,
    Game.perform_move_for_AI g m (Unit.player u) = Ret (g', (true, msg))
    /\ board_wf g' /\ healthy g' /\ flags_ok g'.
Proof.
  intros Hwf Hh Hf Hsrc Hvd Hstep.
  pose proof (cell_Some_valid _ _ _ Hsrc) as Hvs.
  destruct (to_string_valid g _ Hvs) as [ss Hss].
  destruct (to_string_valid g _ Hvd) as [ds Hds].
  enough (exists g' msg,
             Game.perform_move_for_AI g m (Unit.player u) = Ret (g', (true, msg))
             /\ healthy g') as (g' & msg & Hrun & Hh').
  { exists g', msg. split; [done|].
    destruct (perform_move_for_AI_keeps g g' m (Unit.player u) u (true, msg)); done. }
  destruct (cell g (CoordPair.dst m)) as [t|] eqn:Hdst.
  - destruct (decide (CoordPair.dst m = CoordPair.src m)) as [Heq|Hne].
    + set (g1 := put g (CoordPair.src m)
                   (Some (Unit.mod_health u (- Unit.health u)))).
      assert (board_wf g1) as Hwf1 by (by apply put_wf).
      destruct (remove_dead_spec g1 (CoordPair.src m) Hwf1) as (g2 & Hr2 & Hsf2 & Hc2 & Ho2).
      destruct (blast_spec (Coord.iter_range (CoordPair.src m) 1) g2 (-2) (proj1 Hsf2)
                  (NoDup_iter_range (CoordPair.src m) 1)) as (g3 & Hr3 & Hsf3 & Hc3).
      assert (cell g2 (CoordPair.src m) = None) as Hgone.
      { rewrite Hc2. unfold g1. rewrite cell_put_eq by done.
        unfold Unit.mod_health, Unit.is_alive.
        replace (Unit.health u + - Unit.health u) with 0 by lia. done. }
      assert (forall c, c <> CoordPair.src m -> cell g2 c = cell g c) as Hrest.
      { intros c Hn. rewrite Ho2 by done. unfold g1. by rewrite cell_put_ne. }
      exists g3, (PlayerM.name (Unit.player u) +:+ " has self destructed unit " +:+ ss).
      split.
      * unfold Game.perform_move_for_AI. rewrite Heq, !get_cell, Hsrc by done. simpl.
        destruct (decide (CoordPair.src m = CoordPair.src m)); [|done].
        unfold Game.mutate. rewrite set_put by done. simpl. fold g1.
        rewrite Hr2. simpl. rewrite Hr3. simpl. by rewrite Hss.
      * intros c v. rewrite Hc3.
        destruct (decide (c = CoordPair.src m)) as [->|Hn].
        -- rewrite Hgone. by destruct (decide (_ ∈ _)).
        -- rewrite Hrest by done. destruct (decide (_ ∈ _)); [apply struck_alive|apply Hh].
    + destruct Hstep as [?|Hadj]; [done|].
      destruct (decide (Unit.player t = Unit.player u)) as [Hfr|Hen].
      * exists (put g (CoordPair.dst m)
                  (Some (Unit.mod_health t (Unit.repair_amount u t)))),
          (PlayerM.name (Unit.player u) +:+ " has moved " +:+ ss +:+ " to repair " +:+ ds).
        split.
        -- unfold Game.perform_move_for_AI. rewrite !get_cell, Hsrc, Hdst by done. simpl.
           destruct (decide (CoordPair.dst m = CoordPair.src m)); [done|].
           destruct (decide (Unit.player t = Unit.player u)); [|done].
           unfold Game.mutate. rewrite set_put by done. simpl. by rewrite Hss, Hds.
        -- intros c v. rewrite cell_put by done.
           destruct (decide (c = CoordPair.dst m)); [|apply Hh].
           intros [= <-]. apply mod_health_alive.
           destruct (amounts_as_min u t) as (_ & ->).
           destruct (entry_nonneg (Unit.type u) (Unit.type t)) as [_ ?].
           pose proof (Hh _ _ Hdst). lia.
      * destruct (attack_resolution g m u t) as (g' & msg & Hrun & _ & Hcd & Hcs & Hco);
          try done; [by apply (Hh _ _ Hsrc)|by apply (Hh _ _ Hdst)|].
        exists g', msg. split; [done|].
        destruct (amounts_as_min u t) as (Hdt & _).
        destruct (amounts_as_min t u) as (Hdu & _).
        destruct (entry_nonneg (Unit.type u) (Unit.type t)) as [? _].
        destruct (entry_nonneg (Unit.type t) (Unit.type u)) as [? _].
        pose proof (Hh _ _ Hsrc). pose proof (Hh _ _ Hdst).
        intros c v.
        destruct (decide (c = CoordPair.dst m)) as [->|Hnd];
          [|destruct (decide (c = CoordPair.src m)) as [->|Hns]].
        -- rewrite Hcd. simpl. destruct (Z.ltb_spec 0 (Unit.health t - Unit.damage_amount u t));
             [|done]. intros [= <-]. simpl. lia.
        -- rewrite Hcs. simpl. destruct (Z.ltb_spec 0 (Unit.health u - Unit.damage_amount t u));
             [|done]. intros [= <-]. simpl. lia.
        -- rewrite Hco by done. apply Hh.
  - exists (put (put g (CoordPair.dst m) (Some u)) (CoordPair.src m) None),
      (PlayerM.name (Unit.player u) +:+ " has moved " +:+ ss +:+ " to " +:+ ds).
    assert (CoordPair.src m <> CoordPair.dst m) as Hne by congruence.
    split.
    + unfold Game.perform_move_for_AI. rewrite !get_cell, Hsrc, Hdst by done. simpl.
      rewrite set_put by done. simpl. rewrite set_put by (by apply put_wf). simpl.
      by rewrite Hss, Hds.
    + intros c v. rewrite cell_put by (by rewrite ?put_valid; try apply put_wf).
      destruct (decide (c = CoordPair.src m)); [done|].
      rewrite cell_put by done.
      destruct (decide (c = CoordPair.dst m)); [|apply Hh].
      intros [= <-]. by apply (Hh _ _ Hsrc).
Qed.

#[local] Opaque gen_contains Coord.iter_adjacent.

Lemma is_valid_move_total (g : Game.t) (m : CoordPair.t) :
  board_wf g -> exists b, Game.is_valid_move g m = Ret b.
Proof.
  intros Hwf. unfold Game.is_valid_move.
  destruct (negb _ || negb _); [by eexists|].
  rewrite !get_cell by done. simpl.
  destruct (cell g (CoordPair.src m)) as [unit|]; [|by eexists].
  destruct (decide (Unit.player unit <> Game.next_player g)); [by eexists|].
  destruct (decide (CoordPair.src m = CoordPair.dst m)); [by eexists|].
  destruct (gen_contains _ _) as [found rest].
  destruct found; simpl; [|by eexists].
  destruct (cell g (CoordPair.dst m)) as [target|].
  - destruct (bool_decide _ && _); [by eexists|].
    destruct (decide (Unit.player target <> Unit.player unit)); by eexists.
  - destruct (bool_decide _ || bool_decide _); [by eexists|].
    destruct (engaged_spec g unit rest Hwf) as (e & -> & _). simpl.
    destruct e; by eexists.
Qed.

Lemma accepted_interactive_source (g : Game.t) (m : CoordPair.t) :
  board_wf g -> Game.is_valid_move g m = Ret true ->
  Game.is_valid_coord g (CoordPair.src m) = true
  /\ Game.is_valid_coord g (CoordPair.dst m) = true
  /\ one_step m
  /\ exists u, cell g (CoordPair.src m) = Some u /\ Unit.player u = Game.next_player g.
Proof.
  intros Hwf Hvalid.
  assert (one_step m) as Hstep.
  { destruct (decide (CoordPair.src m = CoordPair.dst m)) as [Heq|Hne]; [by left|].
    right. by apply (is_valid_move_adjacent g). }
  revert Hvalid. unfold Game.is_valid_move.
  destruct (Game.is_valid_coord g (CoordPair.src m)); [|by intros [=]].
  destruct (Game.is_valid_coord g (CoordPair.dst m)); simpl; [|by intros [=]].
  rewrite (get_cell g (CoordPair.src m)) by done. simpl.
  destruct (cell g (CoordPair.src m)) as [unit|]; [|by intros [=]].
  destruct (decide (Unit.player unit <> Game.next_player g)) as [|Hp]; [by intros [=]|].
  intros _. split_and!; try done. exists unit. split; [done|].
  by destruct (decide (Unit.player unit = Game.next_player g)).
Qed.

#[local] Transparent gen_contains Coord.iter_adjacent.

(** X10.  A human turn on a move between two coordinates of the board
    never raises.  [perform_move] answers what [is_valid_move] answers.
    An accepted move is played: the game after the turn is the one
    [perform_move] leaves, with the other player to move and the turn
    count one higher.  A rejected move leaves the board as it was;
    without a broker the whole game is then left as it was, with a broker
    the turn passes all the same.  In every case the board keeps its
    shape, every unit on it has health 1 to 9, a has-AI flag that is set is
    backed by an AI on the board, and the options are unchanged. *)
Theorem human_turn_keeps_invariants (g : Game.t) (m : CoordPair.t) :
  board_wf g -> healthy g -> flags_ok g ->
  Game.is_valid_coord g (CoordPair.src m) = true ->
  Game.is_valid_coord g (CoordPair.dst m) = true ->
  exists g1 ok msg g',
    Game.is_valid_move g m = Ret ok
    /\ Game.perform_move g m = Ret (g1, (ok, msg))
    /\ (ok = false -> g1 = g)
    /\ Game.human_turn g m = Ret (g', msg)
    /\ g' = (if ok || via_broker g then Game.next_turn g1 else g1)
    /\ board_wf g' /\ healthy g' /\ flags_ok g'
    /\ Game.options g' = Game.options g
    /\ (ok = true ->
        Game.next_player g' = PlayerM.next (Game.next_player g)
        /\ Game.turns_played g' = Game.turns_played g + 1)
    /\ (ok = false -> via_broker g = false -> g' = g).
Proof.
  intros Hwf Hh Hf Hvs Hvd.
  destruct (is_valid_move_total g m Hwf) as ([] & Hvalid).
  - destruct (accepted_interactive_source g m Hwf Hvalid)
      as (_ & _ & Hstep & u & Hu & Hp).
    destruct (resolution_invariants g m u Hwf Hh Hf Hu Hvd Hstep)
      as (g1 & msg & Hrun & Hwf1 & Hh1 & Hf1).
    pose proof (perform_move_for_AI_carried _ _ _ _ _ Hrun) as (Ho & Hn & Ht & _).
    assert (Game.perform_move g m = Ret (g1, (true, msg))) as Hplay.
    { rewrite perform_move_as_AI by done. by rewrite <- Hp. }
    exists g1, true, msg, (Game.next_turn g1).
    split; [done|]. split; [done|]. split; [done|]. split.
    { unfold Game.human_turn. rewrite Hplay.
      by destruct (Options.broker (Game.options g)). }
    split; [done|]. split; [done|]. split; [done|]. split; [done|]. split; [done|].
    split; [|done]. intros _. simpl. split; [congruence|by rewrite Ht].
  - destruct (to_string_valid g _ Hvs) as [ss Hss].
    destruct (to_string_valid g _ Hvd) as [ds Hds].
    assert (Game.perform_move g m
            = Ret (g, (false, "Invalid move " +:+ ss +:+ " to " +:+ ds))) as Hplay.
    { unfold Game.perform_move. rewrite Hvalid. simpl. by rewrite Hss, Hds. }
    exists g, false, ("Invalid move " +:+ ss +:+ " to " +:+ ds),
      (if via_broker g then Game.next_turn g else g).
    split; [done|]. split; [done|]. split; [done|]. split.
    { unfold Game.human_turn, via_broker. rewrite Hplay.
      by destruct (Options.broker (Game.options g)). }
    split; [done|].
    destruct (via_broker g); split_and!; try done.
Qed.

Lemma human_turn_keeps_invariants_witness :
  exists g1 ok msg g',
    Game.is_valid_move initial (step 2 4 1 4) = Ret ok
    /\ Game.perform_move initial (step 2 4 1 4) = Ret (g1, (ok, msg))
    /\ (ok = false -> g1 = initial)
    /\ Game.human_turn initial (step 2 4 1 4) = Ret (g', msg)
    /\ g' = (if ok || via_broker initial then Game.next_turn g1 else g1)
    /\ board_wf g' /\ healthy g' /\ flags_ok g'
    /\ Game.options g' = Game.options initial
    /\ (ok = true ->
        Game.next_player g' = PlayerM.next (Game.next_player initial)
        /\ Game.turns_played g' = Game.turns_played initial + 1)
    /\ (ok = false -> via_broker initial = false -> g' = initial).
Proof.
  apply (human_turn_keeps_invariants initial (step 2 4 1 4)).
  - exact initial_wf.
  - apply healthyb_healthy. reflexivity.
  - split; intros _.
    + exists (Coord.mk 4 4), (Unit.mk Attacker AI 9). by split_and!.
    + exists (Coord.mk 0 0), (Unit.mk Defender AI 9). by split_and!.
  - reflexivity.
  - reflexivity.
Defined.

(** What the search needs from each candidate of a node. *)
Lemma candidate_resolution (g : Game.t) (p : Player) (l : list CoordPair.t)
    (m : CoordPair.t) :
  board_wf g -> healthy g -> flags_ok g ->
  Game.move_candidates_for_AI g p = Ret l ->
  m ∈ l ->
  exists g' msg,
    Game.perform_move_for_AI g m p = Ret (g', (true, msg))
    /\ board_wf g' /\ healthy g' /\ flags_ok g'.
Proof.
  intros Hwf Hh Hf Hl Hm.
  destruct (candidates_characterised g p Hwf) as (l' & Hl' & Hspec).
  rewrite Hl in Hl'. injection Hl' as <-.
  apply Hspec in Hm as (_ & Hstep & Hvalid).
  destruct (accepted_source g m p Hwf Hvalid) as (_ & Hvd & u & Hu & <-).
  by apply resolution_invariants.
Qed.

(** X11.  Every move the search enumerates is resolved by
    [perform_move_for_AI] without raising and reported as a success, and
    the position it leads to has a board of the same shape, units of
    health 1 to 9 only, and has-AI flags that are backed by a unit. *)
Theorem candidate_children_keep_invariants (g : Game.t) (p : Player)
    (l : list CoordPair.t) (m : CoordPair.t) :
  board_wf g -> healthy g -> flags_ok g ->
  Game.move_candidates_for_AI g p = Ret l ->
  m ∈ l ->
  exists g' msg,
    Game.perform_move_for_AI g m p = Ret (g', (true, msg))
    /\ board_wf g' /\ healthy g' /\ flags_ok g'.
Proof. apply candidate_resolution. Qed.

Lemma candidate_children_keep_invariants_witness :
  exists g' msg,
    Game.perform_move_for_AI endgame (step 2 3 2 2) Attacker = Ret (g', (true, msg))
    /\ board_wf g' /\ healthy g' /\ flags_ok g'.
Proof.
  apply (candidate_children_keep_invariants endgame Attacker
           [ step 2 3 1 3; step 2 3 2 2; step 2 3 2 3 ]).
  - split; [done|]. repeat constructor.
  - apply healthyb_healthy. reflexivity.
  - split; intros _.
    + exists (Coord.mk 2 3), (Unit.mk Attacker AI 2). by split_and!.
    + exists (Coord.mk 0 1), (Unit.mk Defender AI 5). by split_and!.
  - reflexivity.
  - apply list_elem_of_further, list_elem_of_here.
Defined.

(** ** Units written onto the board *)

Lemma healthy_put (g : Game.t) (c : Coord.t) (u : Unit.t) :
  board_wf g -> healthy g -> 1 <= Unit.health u <= 9 ->
  healthy (put g c (Some u)).
Proof.
  intros Hwf Hh Hu c' v.
  destruct (Game.is_valid_coord g c) eqn:Hv.
  - rewrite cell_put by done. destruct (decide (c' = c)); [by intros [= <-]|apply Hh].
  - unfold put. rewrite Hv. apply Hh.
Qed.

Lemma put_fields (g : Game.t) (c : Coord.t) (u : option Unit.t) :
  Game.next_player (put g c u) = Game.next_player g
  /\ Game.turns_played (put g c u) = Game.turns_played g
  /\ Game._attacker_has_ai (put g c u) = Game._attacker_has_ai g
  /\ Game._defender_has_ai (put g c u) = Game._defender_has_ai g.
Proof. by destruct (put_options g c u) as (_ & ? & ? & ? & ?). Qed.

(** ** The search engine *)

Lemma length_whole_board (g : Game.t) :
  length (Game.whole_board g)
  = (Z.to_nat (Options.dim (Game.options g)) * Z.to_nat (Options.dim (Game.options g)))%nat.
Proof.
  unfold Game.whole_board, CoordPair.iter_rectangle, CoordPair.from_dim, range. simpl.
  rewrite (length_bind_const _ _ (Z.to_nat (Options.dim (Game.options g)))).
  - rewrite length_seqZ. f_equal. lia.
  - intros r. rewrite (length_bind_const _ _ 1%nat) by done.
    rewrite length_seqZ. lia.
Qed.

Lemma e0_fold_bound (g : Game.t) (l : list Coord.t) (acc z : Z) :
  foldM (fun heuristic_score coord =>
           unit ← Game.get g coord;
           match unit with
           | Some u =>
               if decide (Unit.player u = Attacker) then
                 if decide (Unit.type u = AI) then Ret (heuristic_score + 9999)
                 else Ret (heuristic_score + 3)
               else
                 if decide (Unit.type u = AI) then Ret (heuristic_score - 9999)
                 else Ret (heuristic_score - 3)
           | None => Ret heuristic_score
           end) acc l = Ret z ->
  Z.abs (z - acc) <= 9999 * Z.of_nat (length l).
Proof.
  revert acc. induction l as [|c l IH]; intros acc; cbn [foldM].
  - intros [= <-]. simpl. lia.
  - intros (acc' & Hstep & H)%bind_Ret_inv. apply IH in H.
    apply bind_Ret_inv in Hstep as ([u|] & _ & Hstep).
    + destruct (decide (Unit.player u = Attacker)), (decide (Unit.type u = AI));
        injection Hstep as <-; simpl length; lia.
    + injection Hstep as <-. simpl length. lia.
Qed.

(** On boards up to 447 x 447 an e0 score lies strictly between the two
    sentinel scores. *)
Lemma evaluate_plausible (g : Game.t) :
  board_wf g ->
  Options.heuristic (Game.options g) = Some 0 ->
  Options.dim (Game.options g) <= 447 ->
  exists z, Game.evaluate g = Ret (inject_Z z) /\ plausible z.
Proof.
  intros Hwf Hheur Hdim. unfold Game.evaluate.
  destruct (decide (Options.heuristic (Game.options g) = Some 0)); [|done].
  destruct (compute_heuristic_e0_total g Hwf) as (z & Hz). rewrite Hz. simpl.
  exists z. split; [done|].
  apply e0_fold_bound in Hz. rewrite length_whole_board in Hz.
  unfold plausible, MIN_HEURISTIC_SCORE, MAX_HEURISTIC_SCORE.
  assert (Z.of_nat (Z.to_nat (Options.dim (Game.options g))
                    * Z.to_nat (Options.dim (Game.options g))) <= 447 * 447) as Hsq by nia.
  lia.
Qed.

Lemma Qlt_bool_inject_Z (a b : Z) : Game.Qlt_bool (inject_Z a) (inject_Z b) = (a <? b).
Proof.
  unfold Game.Qlt_bool, Qle_bool. simpl. rewrite !Z.mul_1_r.
  destruct (Z.leb_spec b a), (Z.ltb_spec a b); (done || lia).
Qed.

Lemma cutoff_total (now : nat -> Q) (g : Game.t) (start_time : Q) (w : Game.world) :
  Options.max_time (Game.options g) <> None ->
  exists stop w', Game.cutoff now g start_time w = Ret (stop, w')
                  /\ Game.stats w' = Game.stats w.
Proof.
  intros Hmax. unfold Game.cutoff, Game.read_clock.
  destruct (Options.max_time (Game.options g)); [|done]. by eexists _, _.
Qed.

Lemma count_evaluations_ok (w : Game.world) (depth n : Z) :
  counts_ok w -> 0 < n -> counts_ok (Game.count_evaluations w depth n).
Proof.
  intros Hw Hn k x. unfold Game.count_evaluations. simpl.
  destruct (decide (k = depth)) as [->|Hne].
  - rewrite lookup_insert_eq. intros [= <-].
    destruct (Stats.evaluations_per_depth (Game.stats w) !! depth) as [y|] eqn:Hy;
      simpl; [|lia]. apply Hw in Hy. lia.
  - rewrite lookup_insert_ne by done. apply Hw.
Qed.

(** While the game has no winner, each player has a move: a
    self-destruct of their AI if nothing else. *)
Lemma candidates_nonempty (g : Game.t) (p : Player) (l : list CoordPair.t) :
  board_wf g -> flags_ok g -> Game.has_winner g = None ->
  Game.move_candidates_for_AI g p = Ret l -> l <> [].
Proof.
  intros Hwf [Ha Hd] Hwin Hl.
  destruct (candidates_characterised g p Hwf) as (l' & Hl' & Hspec).
  rewrite Hl in Hl'. injection Hl' as <-.
  assert (has_ai g p) as (c & u & Hc & Hp & _).
  { unfold Game.has_winner in Hwin.
    destruct (match Options.max_turns (Game.options g) with
              | Some max_turns => max_turns <=? Game.turns_played g
              | None => false
              end); [done|].
    destruct (Game._attacker_has_ai g); [|done].
    destruct (Game._defender_has_ai g); [|done].
    destruct p; auto. }
  assert (CoordPair.mk c c ∈ l) as Hin.
  { apply Hspec. split_and!; [done|by left|].
    subst p. by apply self_destruct_legality. }
  intros ->. by apply elem_of_nil in Hin.
Qed.

Lemma searchable_carried (D : Z) (g g' : Game.t) :
  carried g g' -> searchable D g -> searchable D g'.
Proof. intros (Ho & _). unfold searchable. by rewrite Ho. Qed.

Lemma sentinel_improved (p : Player) (z : Z) :
  plausible z ->
  bool_decide (p = Attacker) && Game.Qlt_bool (Game.worst_for p) (inject_Z z)
  || bool_decide (p = Defender) && Game.Qlt_bool (inject_Z z) (Game.worst_for p) = true
  /\ (if decide (p = Attacker)
      then Game.Qlt_bool (Game.worst_for p) (inject_Z z)
      else Game.Qlt_bool (inject_Z z) (Game.worst_for p)) = true.
Proof.
  intros [Hlo%Z.ltb_lt Hhi%Z.ltb_lt]. unfold Game.worst_for.
  destruct p; simpl; rewrite Qlt_bool_inject_Z; by rewrite ?Hlo, ?Hhi.
Qed.

Section SearchTotality.

Variable now : nat -> Q.
Variable D : Z.
Variable start_time : Q.

Lemma minimax_loop_total
    (recur : Game.t -> Game.world -> result (Game.search_result * Game.world))
    (g : Game.t) (p : Player) (l : list CoordPair.t) :
  position_ok g -> searchable D g ->
  Game.move_candidates_for_AI g p = Ret l ->
  (forall child w, position_ok child -> searchable D child -> counts_ok w ->
                   answers (recur child w)) ->
  forall cands best bm bc w,
    cands ⊆ l -> counts_ok w -> loop_state D g p l best bm bc ->
    exists best' bm' bc' w',
      Game.minimax_loop now recur g p start_time cands best bm bc w
        = Ret (best', bm', bc', w')
      /\ counts_ok w' /\ loop_state D g p l best' bm' bc'
      /\ (cands <> [] \/ bm <> None -> bm' <> None).
Proof.
  intros (Hwf & Hh & Hf) Hs Hl Hrecur.
  induction cands as [|m cands IH]; intros best bm bc w Hsub Hw Hst.
  { simpl. eexists _, _, _, _. split_and!; try done. by intros [?|?]. }
  assert (m ∈ l) as Hm by (apply Hsub; by left).
  assert (cands ⊆ l) as Hsub' by (intros x Hx; apply Hsub; by right).
  destruct (candidate_resolution g p l m Hwf Hh Hf Hl Hm)
    as (child & msg & Hrun & Hwf' & Hh' & Hf').
  pose proof (searchable_carried D g child (perform_move_for_AI_carried _ _ _ _ _ Hrun) Hs)
    as Hs'.
  destruct (Hrecur child w) as (z & mv & w1 & Hrec & Hz & Hw1); try done.
  destruct (cutoff_total now g start_time w1) as (stop & w2 & Hcut & Hstats);
    [by destruct Hs as (_ & ? & _)|].
  assert (counts_ok w2) as Hw2 by (unfold counts_ok; by rewrite Hstats).
  cbn [Game.minimax_loop]. unfold Game.clone. rewrite Hrun. cbn [mbind result_bind].
  rewrite Hrec. cbn [mbind result_bind].
  assert (loop_state D g p l (inject_Z z) (Some m) (Some child)) as Hnew.
  { right. exists z, m, child, msg. by split_and!. }
  set (improves := bool_decide (p = Attacker) && Game.Qlt_bool best (inject_Z z)
                   || bool_decide (p = Defender) && Game.Qlt_bool (inject_Z z) best).
  assert (exists best1 bm1 bc1,
             (if improves then (inject_Z z, Some m, Some child) else (best, bm, bc))
             = (best1, bm1, bc1)
             /\ loop_state D g p l best1 bm1 bc1 /\ bm1 <> None)
    as (best1 & bm1 & bc1 & -> & Hst1 & Hbm1).
  { destruct improves eqn:Himp; [by eexists _, _, _|].
    exists best, bm, bc. split; [done|]. split; [done|].
    destruct Hst as [(-> & _ & _) | (? & ? & ? & ? & _ & _ & -> & _)]; [|done].
    unfold improves in Himp.
    by rewrite (proj1 (sentinel_improved p z Hz)) in Himp. }
  rewrite Hcut. cbn [mbind result_bind].
  destruct stop.
  - by eexists _, _, _, _.
  - destruct (IH best1 bm1 bc1 w2 Hsub' Hw2 Hst1) as (b' & m' & c' & w' & -> & ? & ? & Hkeep).
    exists b', m', c', w'. split_and!; try done. intros _. apply Hkeep. by right.
Qed.

Lemma alphabeta_loop_total
    (recur : Game.t -> Q -> Q -> Game.world -> result (Game.search_result * Game.world))
    (g : Game.t) (p : Player) (l : list CoordPair.t) :
  position_ok g -> searchable D g ->
  Game.move_candidates_for_AI g p = Ret l ->
  (forall child alpha beta w,
      position_ok child -> searchable D child -> counts_ok w ->
      answers (recur child alpha beta w)) ->
  forall cands alpha beta best bm bc w,
    cands ⊆ l -> counts_ok w -> loop_state D g p l best bm bc ->
    exists best' bm' bc' w',
      Game.alphabeta_loop now recur g p start_time cands alpha beta best bm bc w
        = Ret (best', bm', bc', w')
      /\ counts_ok w' /\ loop_state D g p l best' bm' bc'
      /\ (cands <> [] \/ bm <> None -> bm' <> None).
Proof.
  intros (Hwf & Hh & Hf) Hs Hl Hrecur.
  induction cands as [|m cands IH]; intros alpha beta best bm bc w Hsub Hw Hst.
  { simpl. eexists _, _, _, _. split_and!; try done. by intros [?|?]. }
  assert (m ∈ l) as Hm by (apply Hsub; by left).
  assert (cands ⊆ l) as Hsub' by (intros x Hx; apply Hsub; by right).
  destruct (candidate_resolution g p l m Hwf Hh Hf Hl Hm)
    as (child & msg & Hrun & Hwf' & Hh' & Hf').
  pose proof (searchable_carried D g child (perform_move_for_AI_carried _ _ _ _ _ Hrun) Hs)
    as Hs'.
  destruct (Hrecur child alpha beta w) as (z & mv & w1 & Hrec & Hz & Hw1); try done.
  destruct (cutoff_total now g start_time w1) as (stop & w2 & Hcut & Hstats);
    [by destruct Hs as (_ & ? & _)|].
  assert (counts_ok w2) as Hw2 by (unfold counts_ok; by rewrite Hstats).
  cbn [Game.alphabeta_loop]. unfold Game.clone. rewrite Hrun. cbn [mbind result_bind].
  rewrite Hrec. cbn [mbind result_bind].
  assert (loop_state D g p l (inject_Z z) (Some m) (Some child)) as Hnew.
  { right. exists z, m, child, msg. by split_and!. }
  set (improves := if decide (p = Attacker) then Game.Qlt_bool best (inject_Z z)
                   else Game.Qlt_bool (inject_Z z) best).
  assert (exists best1 bm1 bc1,
             (if improves then (inject_Z z, Some m, Some child) else (best, bm, bc))
             = (best1, bm1, bc1)
             /\ loop_state D g p l best1 bm1 bc1 /\ bm1 <> None)
    as (best1 & bm1 & bc1 & -> & Hst1 & Hbm1).
  { destruct improves eqn:Himp; [by eexists _, _, _|].
    exists best, bm, bc. split; [done|]. split; [done|].
    destruct Hst as [(-> & _ & _) | (? & ? & ? & ? & _ & _ & -> & _)]; [|done].
    unfold improves in Himp.
    by rewrite (proj2 (sentinel_improved p z Hz)) in Himp. }
  match goal with |- context [Qle_bool ?b ?a] => destruct (Qle_bool b a) end.
  { by eexists _, _, _, _. }
  rewrite Hcut. cbn [mbind result_bind].
  destruct stop.
  - by eexists _, _, _, _.
  - match goal with |- context [Game.alphabeta_loop _ _ _ _ _ _ ?a ?b _ _ _ _] =>
      destruct (IH a b best1 bm1 bc1 w2 Hsub' Hw2 Hst1)
        as (b' & m' & c' & w' & -> & ? & ? & Hkeep)
    end.
    exists b', m', c', w'. split_and!; try done. intros _. apply Hkeep. by right.
Qed.

Lemma minimax_total (fuel : nat) :
  forall g depth p w,
    position_ok g -> searchable D g -> counts_ok w ->
    depth <= D -> D - depth < Z.of_nat fuel ->
    exists z mv w',
      Game.minimax now fuel g depth p start_time w = Ret (Some (inject_Z z, mv), w')
      /\ plausible z /\ counts_ok w'
      /\ match mv with
         | Some m =>
             depth < D /\ exists l, Game.move_candidates_for_AI g p = Ret l /\ m ∈ l
         | None => depth = D \/ Game.is_finished g = true
         end.
Proof.
  induction fuel as [|fuel IH]; intros g depth p w Hok Hs Hw Hdepth Hfuel; [lia|].
  pose proof Hok as (Hwf & Hh & Hf). pose proof Hs as (HD & Htime & Hheur & Hdim).
  cbn [Game.minimax]. rewrite HD.
  destruct (bool_decide (Some depth = Some D) || Game.is_finished g) eqn:Hstop.
  { destruct (evaluate_plausible g Hwf Hheur Hdim) as (z & -> & Hz). simpl.
    exists z, None, w. split_and!; try done.
    apply orb_true_iff in Hstop as [[= ->]%bool_decide_eq_true | ?]; auto. }
  apply orb_false_iff in Hstop as [Hne%bool_decide_eq_false Hfin].
  assert (depth <> D) as Hne' by congruence.
  assert (Game.has_winner g = None) as Hwin.
  { unfold Game.is_finished in Hfin. by destruct (Game.has_winner g). }
  destruct (candidates_characterised g p Hwf) as (l & Hl & _). rewrite Hl.
  cbn [mbind result_bind].
  pose proof (candidates_nonempty g p l Hwf Hf Hwin Hl) as Hnil.
  assert (0 < Z.of_nat (length l)) as Hlen by (destruct l; [done|simpl; lia]).
  destruct (Z.ltb_spec 0 (Z.of_nat (length l))); [|lia].
  destruct (minimax_loop_total
              (fun g w => Game.minimax now fuel g (depth + 1) (Game.opponent p) start_time w)
              g p l Hok Hs Hl) with
    (cands := l) (best := Game.worst_for p) (bm := @None CoordPair.t)
    (bc := @None Game.t) (w := Game.count_evaluations w depth (Z.of_nat (length l)))
    as (best' & bm' & bc' & w' & -> & Hw' & Hst & Hsome).
  - intros child w0 Hok' Hs' Hw0.
    destruct (IH child (depth + 1) (Game.opponent p) w0) as (z & mv & w1 & ? & ? & ? & _);
      try done; try lia.
    by exists z, mv, w1.
  - done.
  - by apply count_evaluations_ok.
  - by left.
  - cbn [mbind result_bind].
    destruct Hst as [(_ & -> & _) | (z & m & child & msg & _ & _ & -> & -> & Hm & _ & Hok' & Hs')].
    { exfalso. apply Hsome; [by left|done]. }
    destruct Hok' as (Hwf' & _). destruct Hs' as (_ & _ & Hheur' & Hdim').
    destruct (evaluate_plausible child Hwf' Hheur' Hdim') as (s & -> & Hs''). simpl.
    exists s, (Some m), w'. split_and!; try done; [lia|by exists l].
Qed.

Lemma minimax_alphabeta_total (fuel : nat) :
  forall g depth p alpha beta w,
    position_ok g -> searchable D g -> counts_ok w ->
    depth <= D -> D - depth < Z.of_nat fuel ->
    exists z mv w',
      Game.minimax_alphabeta now fuel g depth p alpha beta start_time w
        = Ret (Some (inject_Z z, mv), w')
      /\ plausible z /\ counts_ok w'
      /\ match mv with
         | Some m =>
             depth < D /\ exists l, Game.move_candidates_for_AI g p = Ret l /\ m ∈ l
         | None => depth = D \/ Game.is_finished g = true
         end.
Proof.
  induction fuel as [|fuel IH]; intros g depth p alpha beta w Hok Hs Hw Hdepth Hfuel; [lia|].
  pose proof Hok as (Hwf & Hh & Hf). pose proof Hs as (HD & Htime & Hheur & Hdim).
  cbn [Game.minimax_alphabeta]. rewrite HD.
  destruct (bool_decide (Some depth = Some D) || Game.is_finished g) eqn:Hstop.
  { destruct (evaluate_plausible g Hwf Hheur Hdim) as (z & -> & Hz). simpl.
    exists z, None, w. split_and!; try done.
    apply orb_true_iff in Hstop as [[= ->]%bool_decide_eq_true | ?]; auto. }
  apply orb_false_iff in Hstop as [Hne%bool_decide_eq_false Hfin].
  assert (depth <> D) as Hne' by congruence.
  assert (Game.has_winner g = None) as Hwin.
  { unfold Game.is_finished in Hfin. by destruct (Game.has_winner g). }
  destruct (candidates_characterised g p Hwf) as (l & Hl & _). rewrite Hl.
  cbn [mbind result_bind].
  pose proof (candidates_nonempty g p l Hwf Hf Hwin Hl) as Hnil.
  assert (0 < Z.of_nat (length l)) as Hlen by (destruct l; [done|simpl; lia]).
  destruct (Z.ltb_spec 0 (Z.of_nat (length l))); [|lia].
  destruct (alphabeta_loop_total
              (fun g alpha beta w =>
                 Game.minimax_alphabeta now fuel g (depth + 1) (Game.opponent p)
                   alpha beta start_time w)
              g p l Hok Hs Hl) with
    (cands := l) (alpha := alpha) (beta := beta)
    (best := Game.worst_for p) (bm := @None CoordPair.t)
    (bc := @None Game.t) (w := Game.count_evaluations w depth (Z.of_nat (length l)))
    as (best' & bm' & bc' & w' & -> & Hw' & Hst & Hsome).
  - intros child a b w0 Hok' Hs' Hw0.
    destruct (IH child (depth + 1) (Game.opponent p) a b w0)
      as (z & mv & w1 & ? & ? & ? & _); try done; try lia.
    by exists z, mv, w1.
  - done.
  - by apply count_evaluations_ok.
  - by left.
  - cbn [mbind result_bind].
    destruct Hst as [(_ & -> & _) | (z & m & child & msg & _ & _ & -> & -> & Hm & _ & Hok' & Hs')].
    { exfalso. apply Hsome; [by left|done]. }
    destruct Hok' as (Hwf' & _). destruct Hs' as (_ & _ & Hheur' & Hdim').
    destruct (evaluate_plausible child Hwf' Hheur' Hdim') as (s & -> & Hs''). simpl.
    exists s, (Some m), w'. split_and!; try done; [lia|by exists l].
Qed.

End SearchTotality.

(** The root call of the search, plain or pruned. *)
Lemma run_algorithm_answer (now : nat -> Q) (fuel : nat) (g : Game.t) (D : Z)
    (p : Player) (start_time : Q) (w : Game.world) :
  position_ok g -> searchable D g -> counts_ok w ->
  1 <= D -> D <= Z.of_nat fuel ->
  exists z mv w',
    Game.run_algorithm now fuel g p start_time w = Ret (Some (inject_Z z, mv), w')
    /\ plausible z /\ counts_ok w'
    /\ match mv with
       | Some m =>
           1 < D /\ exists l, Game.move_candidates_for_AI g p = Ret l /\ m ∈ l
       | None => D = 1 \/ Game.is_finished g = true
       end.
Proof.
  intros Hok Hs Hw HD Hfuel. unfold Game.run_algorithm.
  destruct (negb (Options.alpha_beta (Game.options g))).
  - destruct (minimax_total now D start_time fuel g 1 p w) as (z & mv & w' & ? & ? & ? & Hmv);
      try done; try lia.
    exists z, mv, w'. split_and!; try done. destruct mv; [done|]. by destruct Hmv; auto.
  - destruct (minimax_alphabeta_total now D start_time fuel g 1 p
                (inject_Z MIN_HEURISTIC_SCORE) (inject_Z MAX_HEURISTIC_SCORE) w)
      as (z & mv & w' & ? & ? & ? & Hmv); try done; try lia.
    exists z, mv, w'. split_and!; try done. destruct mv; [done|]. by destruct Hmv; auto.
Qed.

(** X12.  On a position that satisfies the invariants of play, with
    heuristic e0, a time limit and a depth limit [D >= 1], and with room
    for [D] nested calls, the search never raises, whether plain minimax
    or alpha-beta is selected and whatever the clock reads.  It returns a
    score strictly between the two sentinel scores, and a move exactly when
    [D > 1] and the game is not over; that move is one of the candidates of
    the player.  The evaluation counts stay positive. *)
Theorem search_returns_candidate (now : nat -> Q) (fuel : nat) (g : Game.t) (D : Z)
    (p : Player) (start_time : Q) (w : Game.world) :
  position_ok g -> searchable D g -> counts_ok w ->
  1 <= D -> D <= Z.of_nat fuel ->
  exists z mv w',
    Game.run_algorithm now fuel g p start_time w = Ret (Some (inject_Z z, mv), w')
    /\ plausible z /\ counts_ok w'
    /\ match mv with
       | Some m =>
           1 < D /\ Game.is_finished g = false
           /\ exists l, Game.move_candidates_for_AI g p = Ret l /\ m ∈ l
       | None => D = 1 \/ Game.is_finished g = true
       end.
Proof.
  intros Hok Hs Hw HD Hfuel.
  destruct (run_algorithm_answer now fuel g D p start_time w)
    as (z & mv & w' & Hrun & Hz & Hw' & Hmv); try done.
  exists z, mv, w'. split_and!; try done.
  destruct mv as [m|]; [|done].
  destruct Hmv as (? & l & Hl & Hm). split_and!; [done| |by exists l].
  destruct Hok as (Hwf & _).
  destruct (candidates_characterised g p Hwf) as (l' & Hl' & Hspec).
  rewrite Hl in Hl'. injection Hl' as <-.
  apply Hspec in Hm as (Hwin & _). unfold Game.is_finished. by rewrite Hwin.
Qed.

Lemma search_returns_candidate_witness :
  exists z mv w',
    Game.run_algorithm frozen_clock 4 initial Attacker 0%Q fresh_world
      = Ret (Some (inject_Z z, mv), w')
    /\ plausible z /\ counts_ok w'
    /\ match mv with
       | Some m =>
           1 < 4 /\ Game.is_finished initial = false
           /\ exists l, Game.move_candidates_for_AI initial Attacker = Ret l /\ m ∈ l
       | None => 4 = 1 \/ Game.is_finished initial = true
       end.
Proof.
  apply (search_returns_candidate frozen_clock 4 initial 4 Attacker 0%Q fresh_world).
  - split_and!.
    + exact initial_wf.
    + apply healthyb_healthy. reflexivity.
    + split; intros _.
      * exists (Coord.mk 4 4), (Unit.mk Attacker AI 9). by split_and!.
      * exists (Coord.mk 0 0), (Unit.mk Defender AI 9). by split_and!.
  - split_and!; [reflexivity|discriminate|reflexivity|vm_compute; discriminate].
  - intros k n H. unfold fresh_world, Stats.default in H. simpl in H.
    by rewrite lookup_empty in H.
  - lia.
  - simpl. lia.
Defined.

(** ** The computer's turn *)

Lemma forfeit_total (cs : list Coord.t) (g : Game.t) (p : Player) :
  board_wf g ->
  exists r, Game.forfeit g p cs = Ret r
    /\ match r with
       | Some g' =>
           carried g g'
           /\ exists c u, cell g c = Some u
                /\ Unit.player u = p /\ Unit.type u = AI
                /\ g' = put g c (Some (Unit.mod_health u (- Unit.health u)))
       | None => True
       end.
Proof.
  intros Hwf. induction cs as [|c cs IH]; simpl; [by exists None|].
  rewrite get_cell by done. simpl.
  destruct (cell g c) as [u|] eqn:Hc; [|done].
  destruct (decide (Unit.player u = p)); [|done].
  destruct (decide (Unit.type u = AI)); [|done].
  unfold Game.mutate. rewrite set_put by done. simpl.
  eexists. split; [done|]. simpl. split; [|by exists c, u].
  destruct (put_options g c (Some (Unit.mod_health u (- Unit.health u))))
    as (? & ? & ? & ? & ?).
  unfold carried. split_and!; congruence.
Qed.

Lemma mod_health_to_zero (u : Unit.t) :
  Unit.health (Unit.mod_health u (- Unit.health u)) = 0.
Proof.
  unfold Unit.mod_health. replace (Unit.health u + - Unit.health u) with 0 by lia.
  reflexivity.
Qed.

Lemma sum_positive (l : list Z) :
  Forall (fun n => 0 < n) l -> l <> [] -> 0 < foldr Z.add 0 l.
Proof.
  induction 1 as [|n l Hn Hl IH]; [done|]. intros _. simpl.
  destruct l as [|n' l']; [simpl; lia|].
  assert (0 < foldr Z.add 0 (n' :: l')) by (by apply IH). lia.
Qed.

(** The percentages of the summary: no division by zero as long as every
    recorded depth has a positive count. *)
Lemma percentages_total (evals : gmap Z Z) :
  (forall k n, evals !! k = Some n -> 0 < n) ->
  exists percent,
    foldM (fun acc '(k, n) =>
             q ← Game.true_div (inject_Z n)
                   (inject_Z (foldr Z.add 0 (snd <$> map_to_list evals)));
             Ret (acc ++ [(k, q)]))
          [] ((fun k => (k, default 0 (evals !! k))) <$> Game.sorted_keys evals)
    = Ret percent.
Proof.
  intros Hpos.
  destruct (map_to_list evals) as [|kv kvs] eqn:Hlist.
  { unfold Game.sorted_keys. rewrite Hlist. by eexists. }
  assert (0 < foldr Z.add 0 (snd <$> map_to_list evals)) as Htotal.
  { apply sum_positive; [|by rewrite Hlist].
    apply Forall_fmap, Forall_forall. intros [k n] Hkn%elem_of_map_to_list.
    simpl. by eapply Hpos. }
  rewrite <- Hlist.
  assert (forall (per : list (Z * Z)) (acc : list (Z * Q)),
             exists percent,
               foldM (fun acc '(k, n) =>
                        q ← Game.true_div (inject_Z n)
                              (inject_Z (foldr Z.add 0 (snd <$> map_to_list evals)));
                        Ret (acc ++ [(k, q)]))
                     acc per = Ret percent) as Hall; [|apply Hall].
  induction per as [|[k n] per IH]; intros acc; cbn [foldM]; [by eexists|].
  destruct (true_div_defined (inject_Z n) (foldr Z.add 0 (snd <$> map_to_list evals)))
    as (q & ->); [lia|].
  cbn [mbind result_bind]. apply IH.
Qed.

Lemma performance_total (total_evals : Z) (total_seconds : Q) :
  exists perf,
    (if Game.Qlt_bool 0 total_seconds then
       q ← Game.true_div (inject_Z total_evals) total_seconds;
       Ret (Some (q / 1000)%Q)
     else Ret None) = Ret perf.
Proof.
  destruct (Game.Qlt_bool 0 total_seconds) eqn:Hlt; [|by eexists].
  unfold Game.true_div.
  destruct (Qeq_bool total_seconds 0) eqn:Heq; [|by eexists].
  apply Qeq_bool_iff in Heq. unfold Game.Qlt_bool in Hlt.
  apply negb_true_iff in Hlt.
  assert (Qle_bool total_seconds 0 = true) as Hle.
  { apply Qle_bool_iff. rewrite Heq. apply Qle_refl. }
  congruence.
Qed.

(** [suggest_move] on a position that satisfies the invariants.  Without
    a move in the answer, either the game is as it was, or the time limit
    was exceeded and an AI of the player to move has been set to health 0
    where it stands. *)
Lemma suggest_move_answer (now : nat -> Q) (fuel : nat) (g : Game.t) (D : Z)
    (w : Game.world) :
  position_ok g -> searchable D g -> counts_ok w ->
  1 <= D -> D <= Z.of_nat fuel ->
  exists g' w' mv rep,
    Game.suggest_move now fuel g w = Ret (g', w', (mv, rep))
    /\ counts_ok w' /\ carried g g'
    /\ match mv with
       | Some m =>
           g' = g /\ 1 < D
           /\ exists l, Game.move_candidates_for_AI g (Game.next_player g) = Ret l
                        /\ m ∈ l
       | None =>
           g' = g /\ (D = 1 \/ Game.is_finished g = true)
           \/ exists max_time k k' c u,
                Options.max_time (Game.options g) = Some max_time
                /\ (max_time < now k' - now k)%Q
                /\ cell g c = Some u
                /\ Unit.player u = Game.next_player g /\ Unit.type u = AI
                /\ g' = put g c (Some (Unit.mod_health u (- Unit.health u)))
       end.
Proof.
  intros Hok Hs Hw HD Hfuel. pose proof Hok as (Hwf & _).
  unfold Game.suggest_move, Game.read_clock. cbv beta iota zeta.
  destruct (run_algorithm_answer now fuel g D (Game.next_player g)
              (now (Game.clock_reads w))
              (Game.mk_world (Game.stats w) (S (Game.clock_reads w))))
    as (z & mv & w1 & -> & Hz & Hw1 & Hmv); try done.
  cbn [mbind result_bind]. cbv beta iota zeta.
  destruct Hs as (_ & Htime & _).
  destruct (Options.max_time (Game.options g)) as [max_time|] eqn:Hmax; [|done].
  set (elapsed := (now (Game.clock_reads w1) - now (Game.clock_reads w))%Q).
  assert (exists r,
             (if Game.Qlt_bool max_time elapsed
              then Game.forfeit g (Game.next_player g) (Game.whole_board g)
              else Ret None) = Ret r
             /\ match r with
                | Some g1 =>
                    carried g g1 /\ (max_time < elapsed)%Q
                    /\ exists c u, cell g c = Some u
                         /\ Unit.player u = Game.next_player g /\ Unit.type u = AI
                         /\ g1 = put g c (Some (Unit.mod_health u (- Unit.health u)))
                | None => True
                end) as (r & -> & Hr).
  { destruct (Game.Qlt_bool max_time elapsed) eqn:Hlt; [|by exists None].
    destruct (forfeit_total (Game.whole_board g) g (Game.next_player g) Hwf)
      as (r & -> & Hr).
    exists r. split; [done|]. destruct r; [|done].
    destruct Hr as [Hcar Hunit]. split; [done|]. split; [|done].
    unfold Game.Qlt_bool in Hlt. apply negb_true_iff in Hlt.
    apply Qnot_le_lt. intros Hle%Qle_bool_iff. congruence. }
  cbn [mbind result_bind].
  destruct r as [g1|].
  - destruct Hr as (Hcar & Hlate & c & u & Hc & Hp & Ht & Hg1).
    eexists _, _, _, _. split; [reflexivity|]. split; [done|]. split; [done|].
    right. by exists max_time, (Game.clock_reads w), (Game.clock_reads w1), c, u.
  - cbn [Game.stats Game.clock_reads].
    destruct (percentages_total (Stats.evaluations_per_depth (Game.stats w1)) Hw1)
      as (percent & ->). cbn [mbind result_bind].
    match goal with |- context [if Game.Qlt_bool 0 ?s then _ else _] =>
      destruct (performance_total
                  (foldr Z.add 0
                     (snd <$> map_to_list (Stats.evaluations_per_depth (Game.stats w1)))) s)
        as (perf & ->)
    end.
    cbn [mbind result_bind].
    eexists _, _, _, _. split; [reflexivity|]. split; [done|].
    split; [apply carried_refl|].
    destruct mv as [m|]; [by destruct Hmv|]. left. split; [done|]. destruct Hmv; auto.
Qed.

(** X13.  On a position that satisfies the invariants of play, with
    heuristic e0, a time limit, a depth limit [D >= 1] and positive
    evaluation counts so far, [suggest_move] never raises: neither the
    search nor the percentages and the rate of the summary divide by zero.
    It keeps the evaluation counts positive, and when it answers with a
    move the game is untouched and the move is one of the candidates of the
    player to move.  It answers without a move only if [D = 1], the game is
    over, or two readings of the clock are more than the time limit
    apart. *)
Theorem suggest_move_total (now : nat -> Q) (fuel : nat) (g : Game.t) (D : Z)
    (w : Game.world) :
  position_ok g -> searchable D g -> counts_ok w ->
  1 <= D -> D <= Z.of_nat fuel ->
  exists g' w' mv rep,
    Game.suggest_move now fuel g w = Ret (g', w', (mv, rep))
    /\ counts_ok w' /\ carried g g'
    /\ match mv with
       | Some m =>
           g' = g /\ 1 < D
           /\ exists l, Game.move_candidates_for_AI g (Game.next_player g) = Ret l
                        /\ m ∈ l
       | None =>
           D = 1 \/ Game.is_finished g = true
           \/ exists max_time k k',
                Options.max_time (Game.options g) = Some max_time
                /\ (max_time < now k' - now k)%Q
       end.
Proof.
  intros Hok Hs Hw HD Hfuel.
  destruct (suggest_move_answer now fuel g D w Hok Hs Hw HD Hfuel)
    as (g' & w' & mv & rep & Hrun & Hw' & Hcar & Hmv).
  exists g', w', mv, rep. split; [done|]. split; [done|]. split; [done|].
  destruct mv as [m|]; [done|].
  destruct Hmv as [(_ & [?|?])|(max_time & k & k' & _ & _ & Hmax & Hlate & _)]; auto.
  right. right. by exists max_time, k, k'.
Qed.

Lemma initial_ok : position_ok initial.
Proof.
  split_and!.
  - exact initial_wf.
  - apply healthyb_healthy. reflexivity.
  - split; intros _.
    + exists (Coord.mk 4 4), (Unit.mk Attacker AI 9). by split_and!.
    + exists (Coord.mk 0 0), (Unit.mk Defender AI 9). by split_and!.
Defined.

Lemma initial_searchable : searchable 4 initial.
Proof. split_and!; [reflexivity|discriminate|reflexivity|vm_compute; discriminate]. Defined.

Lemma fresh_world_ok : counts_ok fresh_world.
Proof.
  intros k n H. unfold fresh_world, Stats.default in H. simpl in H.
  by rewrite lookup_empty in H.
Defined.

Lemma suggest_move_total_witness :
  exists g' w' mv rep,
    Game.suggest_move slow_clock 4 initial fresh_world = Ret (g', w', (mv, rep))
    /\ counts_ok w' /\ carried initial g'
    /\ match mv with
       | Some m =>
           g' = initial /\ 1 < 4
           /\ exists l, Game.move_candidates_for_AI initial (Game.next_player initial)
                        = Ret l /\ m ∈ l
       | None =>
           4 = 1 \/ Game.is_finished initial = true
           \/ exists max_time k k',
                Options.max_time (Game.options initial) = Some max_time
                /\ (max_time < slow_clock k' - slow_clock k)%Q
       end.
Proof.
  apply (suggest_move_total slow_clock 4 initial 4 fresh_world).
  - exact initial_ok.
  - exact initial_searchable.
  - exact fresh_world_ok.
  - lia.
  - simpl. lia.
Defined.

(** X14.  On a position that satisfies the invariants of play, with
    heuristic e0, a time limit, a depth limit [D >= 1] and positive
    evaluation counts so far, [computer_turn] never raises, leaves the
    configuration alone and keeps the evaluation counts positive.  When it
    reports a move, that move is one of the candidates of the player to
    move, the new game is what [perform_move_for_AI] makes of the old one
    for that move and that player, followed by [next_turn]: the turn has
    passed to the other player with the turn count one higher, and the new
    position satisfies the invariants of play again.  When it reports no
    move the turn has not passed, and either the game is exactly as it was
    (the depth limit is 1 or the game is over), or two readings of the
    clock are more than the time limit apart and the only change is that
    one AI of the player to move has health 0 where it stands; the new
    position then holds a unit outside the health range 1 to 9. *)
Theorem computer_turn_keeps_invariants (now : nat -> Q) (fuel : nat) (g : Game.t)
    (D : Z) (w : Game.world) :
  position_ok g -> searchable D g -> counts_ok w ->
  1 <= D -> D <= Z.of_nat fuel ->
  exists g' w' mv,
    Game.computer_turn now fuel g w = Ret (g', w', mv)
    /\ counts_ok w' /\ searchable D g'
    /\ match mv with
       | Some m =>
           (exists l, Game.move_candidates_for_AI g (Game.next_player g) = Ret l
                      /\ m ∈ l)
           /\ (exists g1 msg,
                 Game.perform_move_for_AI g m (Game.next_player g)
                 = Ret (g1, (true, msg))
                 /\ g' = Game.next_turn g1)
           /\ position_ok g'
           /\ Game.next_player g' = PlayerM.next (Game.next_player g)
           /\ Game.turns_played g' = Game.turns_played g + 1
       | None =>
           Game.next_player g' = Game.next_player g
           /\ Game.turns_played g' = Game.turns_played g
           /\ (g' = g /\ (D = 1 \/ Game.is_finished g = true)
               \/ exists max_time k k' c u,
                    Options.max_time (Game.options g) = Some max_time
                    /\ (max_time < now k' - now k)%Q
                    /\ cell g c = Some u
                    /\ Unit.player u = Game.next_player g /\ Unit.type u = AI
                    /\ g' = put g c (Some (Unit.mod_health u (- Unit.health u)))
                    /\ Unit.health (Unit.mod_health u (- Unit.health u)) = 0
                    /\ ~ healthy g')
       end.
Proof.
  intros Hok Hs Hw HD Hfuel. unfold Game.computer_turn.
  destruct (suggest_move_answer now fuel g D w)
    as (g1 & w1 & mv & rep & -> & Hw1 & Hcar & Hmv); try done.
  cbn [mbind result_bind].
  destruct mv as [m|].
  - destruct Hmv as (-> & _ & l & Hl & Hm). destruct Hok as (Hwf & Hh & Hf).
    destruct (candidate_resolution g (Game.next_player g) l m Hwf Hh Hf Hl Hm)
      as (child & msg & Hrun & Hwf' & Hh' & Hf').
    rewrite Hrun. cbn [mbind result_bind].
    pose proof (perform_move_for_AI_carried _ _ _ _ _ Hrun) as Hcar'.
    pose proof Hcar' as (Ho & Hn & Ht & _).
    exists (Game.next_turn child), w1, (Some m).
    split; [done|]. split; [done|].
    split; [by apply (searchable_carried D g child)|].
    split; [by exists l|]. split; [by exists child, msg|].
    split; [done|]. simpl. by rewrite Hn, Ht.
  - exists g1, w1, None. split; [done|]. split; [done|].
    split; [by apply (searchable_carried D g g1)|].
    pose proof Hcar as (_ & Hn & Ht & _).
    split; [done|]. split; [done|].
    destruct Hmv as [?|(max_time & k & k' & c & u & Hmax & Hlate & Hc & Hp & Hty & ->)];
      [by left|].
    right. exists max_time, k, k', c, u.
    pose proof (mod_health_to_zero u) as Hzero.
    split_and!; try done.
    intros Hh. destruct Hok as (Hwf & _).
    specialize (Hh c (Unit.mod_health u (- Unit.health u))).
    rewrite cell_put_eq in Hh by (done || by eapply cell_Some_valid).
    specialize (Hh eq_refl). lia.
Qed.

Lemma computer_turn_keeps_invariants_witness :
  exists g' w' mv,
    Game.computer_turn frozen_clock 4 initial fresh_world = Ret (g', w', mv)
    /\ counts_ok w' /\ searchable 4 g'
    /\ match mv with
       | Some m =>
           (exists l, Game.move_candidates_for_AI initial (Game.next_player initial)
                      = Ret l /\ m ∈ l)
           /\ (exists g1 msg,
                 Game.perform_move_for_AI initial m (Game.next_player initial)
                 = Ret (g1, (true, msg))
                 /\ g' = Game.next_turn g1)
           /\ position_ok g'
           /\ Game.next_player g' = PlayerM.next (Game.next_player initial)
           /\ Game.turns_played g' = Game.turns_played initial + 1
       | None =>
           Game.next_player g' = Game.next_player initial
           /\ Game.turns_played g' = Game.turns_played initial
           /\ (g' = initial /\ (4 = 1 \/ Game.is_finished initial = true)
               \/ exists max_time k k' c u,
                    Options.max_time (Game.options initial) = Some max_time
                    /\ (max_time < frozen_clock k' - frozen_clock k)%Q
                    /\ cell initial c = Some u
                    /\ Unit.player u = Game.next_player initial /\ Unit.type u = AI
                    /\ g' = put initial c (Some (Unit.mod_health u (- Unit.health u)))
                    /\ Unit.health (Unit.mod_health u (- Unit.health u)) = 0
                    /\ ~ healthy g')
       end.
Proof.
  apply (computer_turn_keeps_invariants frozen_clock 4 initial 4 fresh_world).
  - exact initial_ok.
  - exact initial_searchable.
  - exact fresh_world_ok.
  - lia.
  - simpl. lia.
Defined.

(** ** The has-AI flags and the board *)

Lemma ai_exact_put_kind (g : Game.t) (c : Coord.t) (u u' : Unit.t) :
  board_wf g -> cell g c = Some u ->
  Unit.player u' = Unit.player u -> Unit.type u' = Unit.type u ->
  ai_exact g -> ai_exact (put g c (Some u')).
Proof.
  intros Hwf Hc Hp Ht [Hflags Huniq].
  pose proof (cell_Some_valid _ _ _ Hc) as Hv.
  assert (forall x v', cell (put g c (Some u')) x = Some v' ->
            exists v, cell g x = Some v /\ Unit.player v = Unit.player v'
                      /\ Unit.type v = Unit.type v') as Hback.
  { intros x v'. rewrite cell_put by done.
    destruct (decide (x = c)) as [->|_]; [|by exists v'].
    intros [= <-]. by exists u. }
  split.
  - intros p.
    assert (flag (put g c (Some u')) p = flag g p) as ->.
    { destruct (put_fields g c (Some u')) as (_ & _ & ? & ?). by destruct p. }
    rewrite Hflags. split; [by eapply has_ai_put_kind|].
    intros (c0 & u0 & (v & Hv0 & Hpv & Htv)%Hback & Hp0 & Ht0).
    exists c0, v. split_and!; congruence.
  - intros x x' v v' (w & Hw & Hpw & Htw)%Hback (w' & Hw' & Hpw' & Htw')%Hback ? ? ?.
    apply (Huniq x x' w w'); congruence.
Qed.

Lemma ai_exact_relocate (g : Game.t) (src dst : Coord.t) (u : Unit.t) :
  board_wf g -> cell g src = Some u -> cell g dst = None ->
  Game.is_valid_coord g dst = true ->
  ai_exact g -> ai_exact (put (put g dst (Some u)) src None).
Proof.
  intros Hwf Hsrc Hdst Hvd [Hflags Huniq].
  pose proof (cell_Some_valid _ _ _ Hsrc) as Hvs.
  assert (src <> dst) as Hne by congruence.
  set (g2 := put (put g dst (Some u)) src None).
  assert (forall x, cell g2 x = if decide (x = src) then None
                                else if decide (x = dst) then Some u else cell g x)
    as Hcells.
  { intros x. unfold g2. rewrite cell_put by (by rewrite ?put_valid; try apply put_wf).
    destruct (decide (x = src)); [done|]. by rewrite cell_put. }
  assert (forall x v, cell g2 x = Some v ->
            x <> src /\ cell g (if decide (x = dst) then src else x) = Some v) as Hback.
  { intros x v. rewrite Hcells. destruct (decide (x = src)); [done|].
    destruct (decide (x = dst)); [by intros [= <-]|done]. }
  split.
  - intros p.
    assert (flag g2 p = flag g p) as ->.
    { unfold g2. destruct (put_fields (put g dst (Some u)) src None) as (_ & _ & ? & ?).
      destruct (put_fields g dst (Some u)) as (_ & _ & ? & ?). destruct p; simpl; congruence. }
    rewrite Hflags. split.
    + intros (c0 & u0 & Hc0 & Hp0 & Ht0).
      destruct (decide (c0 = src)) as [->|Hn0].
      * exists dst, u. rewrite Hcells. rewrite decide_False, decide_True by done.
        split; [done|]. split; congruence.
      * exists c0, u0. rewrite Hcells. rewrite decide_False by done.
        rewrite decide_False by congruence. done.
    + intros (c0 & u0 & (_ & Hc0)%Hback & Hp0 & Ht0). by eexists _, u0.
  - intros x x' v v' (Hx & Hv)%Hback (Hx' & Hv')%Hback Ht Ht' Hp.
    pose proof (Huniq _ _ _ _ Hv Hv' Ht Ht' Hp) as Heq.
    destruct (decide (x = dst)), (decide (x' = dst)); congruence.
Qed.

Lemma remove_dead_exact (g g' : Game.t) (c : Coord.t) :
  board_wf g -> ai_exact g -> Game.remove_dead g c = Ret g' -> ai_exact g'.
Proof.
  intros Hwf [Hflags Huniq]. unfold Game.remove_dead. rewrite get_cell by done. simpl.
  destruct (cell g c) as [u|] eqn:Hc; [|by intros [= <-]].
  destruct (Unit.is_alive u); simpl; [by intros [= <-]|].
  rewrite set_put by done. simpl.
  pose proof (cell_Some_valid _ _ _ Hc) as Hv.
  assert (forall g1,
             (forall x, cell g1 x = cell (put g c None) x) ->
             (forall p, flag g1 p = if decide (Unit.type u = AI /\ Unit.player u = p)
                                    then false else flag g p) ->
             ai_exact g1) as Hall.
  { intros g1 Hcell Hflag.
    assert (forall x v, cell g1 x = Some v -> x <> c /\ cell g x = Some v) as Hback.
    { intros x v. rewrite Hcell, cell_put by done. by destruct (decide (x = c)). }
    split.
    - intros p. rewrite Hflag.
      destruct (decide (Unit.type u = AI /\ Unit.player u = p)) as [[Hai Hp]|Hn].
      + split; [done|].
        intros (c0 & u0 & (Hn0 & Hc0)%Hback & Hp0 & Ht0).
        destruct Hn0. apply (Huniq c0 c u0 u); congruence.
      + rewrite Hflags. split.
        * intros (c0 & u0 & Hc0 & Hp0 & Ht0). exists c0, u0. split; [|done].
          rewrite Hcell, cell_put_ne; [done|]. intros ->. apply Hn.
          split; congruence.
        * intros (c0 & u0 & (_ & Hc0)%Hback & Hp0 & Ht0). by exists c0, u0.
    - intros x x' v v' (_ & Hx)%Hback (_ & Hx')%Hback. by apply Huniq. }
  destruct (put_fields g c None) as (_ & _ & Hfa & Hfd).
  destruct (decide (Unit.type u = AI)) as [Hai|Hnai];
    [destruct (decide (Unit.player u = Attacker)) as [Hp|Hp]|]; intros [= <-];
    (apply Hall; [done|]); intros []; simpl; rewrite ?Hfa, ?Hfd;
    destruct (decide _) as [[? ?]|Hn]; try done; try congruence.
  - destruct Hn. by destruct (Unit.player u).
  - destruct Hn. by destruct (Unit.player u).
Qed.

Lemma mod_health_exact (g g' : Game.t) (c : Coord.t) (delta : Z) :
  board_wf g -> ai_exact g -> Game.mod_health g c delta = Ret g' ->
  board_wf g' /\ ai_exact g'.
Proof.
  intros Hwf He.
  destruct (mod_health_spec g c delta Hwf) as (g1 & Hrun & (Hwf1 & _) & _).
  rewrite Hrun. intros [= <-]. split; [done|]. revert Hrun.
  unfold Game.mod_health. rewrite get_cell by done. simpl.
  destruct (cell g c) as [u|] eqn:Hc; [|by intros [= <-]].
  unfold Game.mutate. rewrite set_put by done. simpl.
  destruct (mod_health_kind u delta) as (Hp & Ht & _).
  apply remove_dead_exact; [by apply put_wf|by eapply ai_exact_put_kind].
Qed.

Lemma blast_exact (cs : list Coord.t) (g g' : Game.t) (delta : Z) :
  board_wf g -> ai_exact g ->
  foldM (fun g c => Game.mod_health g c delta) g cs = Ret g' ->
  board_wf g' /\ ai_exact g'.
Proof.
  intros Hwf He.
  apply (foldM_preserves _ (fun g => board_wf g /\ ai_exact g)); [done|].
  intros g1 c g2 _ [Hwf1 He1]. by apply mod_health_exact.
Qed.

(** Whatever branch resolves the move, the flags keep saying exactly who
    has an AI on the board. *)
Lemma perform_move_for_AI_exact (g g' : Game.t) (m : CoordPair.t) (p : Player)
    (u : Unit.t) (r : bool * string) :
  board_wf g -> ai_exact g ->
  cell g (CoordPair.src m) = Some u ->
  Game.is_valid_coord g (CoordPair.dst m) = true ->
  Game.perform_move_for_AI g m p = Ret (g', r) ->
  ai_exact g'.
Proof.
  intros Hwf He Hsrc Hvd. unfold Game.perform_move_for_AI.
  rewrite !get_cell, Hsrc by done. simpl.
  destruct (cell g (CoordPair.dst m)) as [t|] eqn:Hdst.
  - destruct (decide (CoordPair.dst m = CoordPair.src m)) as [Heq|Hne].
    + unfold Game.mutate. rewrite set_put by done. simpl.
      intros (g2 & H2 & H)%bind_Ret_inv.
      apply bind_Ret_inv in H as (g3 & H3 & H).
      apply bind_Ret_inv in H as (s & _ & [= <- _]).
      destruct (mod_health_kind u (- Unit.health u)) as (Hp & Ht & _).
      assert (board_wf g2) as Hwf2.
      { destruct (remove_dead_spec _ (CoordPair.src m)
                    (put_wf g (CoordPair.src m)
                       (Some (Unit.mod_health u (- Unit.health u))) Hwf))
          as (g2' & Hr & (? & _) & _). congruence. }
      apply remove_dead_exact in H2; [|by apply put_wf|by eapply ai_exact_put_kind].
      by apply blast_exact in H3 as [_ ?].
    + destruct (decide (Unit.player t = p)).
      * unfold Game.mutate. rewrite set_put by done. simpl.
        intros (s & _ & (d & _ & [= <- _])%bind_Ret_inv)%bind_Ret_inv.
        destruct (mod_health_kind t (Unit.repair_amount u t)) as (Hp & Ht & _).
        by eapply ai_exact_put_kind.
      * unfold Game.mutate. rewrite set_put by done. simpl.
        rewrite set_put by (by apply put_wf). simpl.
        intros (g3 & H3 & H)%bind_Ret_inv.
        apply bind_Ret_inv in H as (g4 & H4 & H).
        apply bind_Ret_inv in H as (s & _ & (d & _ & [= <- _])%bind_Ret_inv).
        set (t' := Unit.mod_health t (- Unit.damage_amount u t)) in *.
        destruct (mod_health_kind t (- Unit.damage_amount u t)) as (Hp & Ht & _).
        destruct (mod_health_kind u (- Unit.damage_amount t' u)) as (Hp' & Ht' & _).
        set (g2 := put (put g (CoordPair.dst m) (Some t')) (CoordPair.src m)
                     (Some (Unit.mod_health u (- Unit.damage_amount t' u)))) in *.
        assert (board_wf g2) as Hwf2 by (by do 2 apply put_wf).
        assert (ai_exact g2) as He2.
        { eapply ai_exact_put_kind; [by apply put_wf| |done|done|].
          - rewrite cell_put_ne by done. exact Hsrc.
          - by eapply ai_exact_put_kind. }
        assert (board_wf g3) as Hwf3.
        { destruct (remove_dead_spec g2 (CoordPair.dst m) Hwf2)
            as (g3' & Hr & (? & _) & _). congruence. }
        apply remove_dead_exact in H3; [|done..].
        by apply remove_dead_exact in H4.
  - rewrite set_put by done. simpl. rewrite set_put by (by apply put_wf). simpl.
    intros (s & _ & (d & _ & [= <- _])%bind_Ret_inv)%bind_Ret_inv.
    by apply ai_exact_relocate.
Qed.

(** X15.  The has-AI flags are exact, and stay so: if they say exactly
    which player has an AI on the board and no player has two, the same
    holds after any move that one of the two legality predicates accepts
    has been resolved, by [perform_move] or by [perform_move_for_AI]. *)
Theorem accepted_moves_keep_flags_exact (g g' : Game.t) (m : CoordPair.t)
    (p : Player) (r : bool * string) :
  board_wf g -> ai_exact g ->
  Game.is_valid_move g m = Ret true /\ Game.perform_move g m = Ret (g', r)
  \/ Game.is_valid_move_for_AI g m p = Ret true
     /\ Game.perform_move_for_AI g m p = Ret (g', r) ->
  ai_exact g'.
Proof.
  intros Hwf He [[Hvalid Hrun] | [Hvalid Hrun]].
  - destruct (accepted_interactive_source g m Hwf Hvalid) as (_ & Hvd & _ & u & Hu & _).
    rewrite perform_move_as_AI in Hrun by done.
    by eapply perform_move_for_AI_exact.
  - destruct (accepted_source g m p Hwf Hvalid) as (_ & Hvd & u & Hu & _).
    by eapply perform_move_for_AI_exact.
Qed.

(** X16.  When each has-AI flag is set exactly when its player has an AI
    on the board, the winner is read off the board and the turn count: nobody has won while both AIs are on the board and the turn
    limit has not been reached; the Attacker has won when, before the
    limit, only the Attacker's AI is left; in every other case (the limit
    is reached, or the Attacker's AI is gone, even together with the
    Defender's) the Defender has won. *)
Theorem winner_by_board (g : Game.t) :
  (forall p, flag g p = true <-> has_ai g p) ->
  (Game.has_winner g = None <->
     ~ out_of_turns g /\ has_ai g Attacker /\ has_ai g Defender)
  /\ (Game.has_winner g = Some Attacker <->
        ~ out_of_turns g /\ has_ai g Attacker /\ ~ has_ai g Defender)
  /\ (Game.has_winner g = Some Defender <->
        out_of_turns g \/ ~ has_ai g Attacker).
Proof.
  intros Hflags.
  pose proof (Hflags Attacker) as Ha. pose proof (Hflags Defender) as Hd.
  simpl in Ha, Hd.
  assert (out_of_turns g <->
          match Options.max_turns (Game.options g) with
          | Some max_turns => max_turns <=? Game.turns_played g
          | None => false
          end = true) as Hlim.
  { unfold out_of_turns.
    destruct (Options.max_turns (Game.options g)) as [max_turns|].
    - split; [intros (x & [= <-] & ?); by apply Z.leb_le|].
      intros ?%Z.leb_le. by exists max_turns.
    - split; [by intros (x & [=] & _)|done]. }
  unfold Game.has_winner. rewrite <- Ha, <- Hd, Hlim.
  destruct (match Options.max_turns (Game.options g) with
            | Some max_turns => max_turns <=? Game.turns_played g
            | None => false
            end), (Game._attacker_has_ai g), (Game._defender_has_ai g);
    clear; intuition congruence.
Qed.

(** ** Construction *)

Lemma new_position (o : Options.t) :
  3 <= Options.dim o ->
  exists g, Game.new o = Ret g
    /\ board_wf g /\ healthy g /\ flags_ok g /\ ai_exact g
    /\ (forall p, flag g p = true)
    /\ Game.options g = o /\ Game.next_player g = Attacker
    /\ Game.turns_played g = 0.
Proof.
  intros Hdim. unfold Game.new.
  set (g0 := Game.mk (replicate (Z.to_nat (Options.dim o))
                        (replicate (Z.to_nat (Options.dim o)) None))
                     Attacker 0 o true true).
  assert (board_wf g0) as Hwf0.
  { split; simpl; [by rewrite length_replicate|].
    apply Forall_replicate. by rewrite length_replicate. }
  assert (forall c, cell g0 c = None) as Hempty.
  { intros c. unfold cell. destruct (Game.is_valid_coord g0 c); [|done]. simpl.
    destruct (replicate _ _ !! _) as [r|] eqn:Hr; [|done].
    apply lookup_replicate in Hr as [-> _].
    destruct (replicate _ _ !! _) as [x|] eqn:Hx; [|done].
    by apply lookup_replicate in Hx as [-> _]. }
  repeat (rewrite set_put by (repeat apply put_wf; exact Hwf0); cbn [mbind result_bind]).
  eexists. split; [reflexivity|].
  assert (forall r c, 0 <= r < Options.dim o -> 0 <= c < Options.dim o ->
            Game.is_valid_coord g0 (Coord.mk r c) = true) as Hvalid.
  { intros r c Hr Hc. by apply is_valid_coord_spec. }
  match goal with |- board_wf ?g /\ _ => set (g12 := g) end.
  assert (board_wf g12) as Hwf by (repeat apply put_wf; exact Hwf0).
  assert (healthy g12) as Hh.
  { unfold g12.
    repeat (apply healthy_put; [repeat apply put_wf; exact Hwf0| |simpl; lia]).
    intros c u. by rewrite Hempty. }
  assert (forall p, flag g12 p = true) as Hflag.
  { intros p. unfold g12.
    destruct p; simpl.
    - by rewrite !(proj1 (proj2 (proj2 (put_fields _ _ _)))).
    - by rewrite !(proj2 (proj2 (proj2 (put_fields _ _ _)))). }
  assert (has_ai g12 Attacker) as Ha.
  { exists (Coord.mk (Options.dim o - 1) (Options.dim o - 1)), (Unit.mk Attacker AI 9).
    split; [|done]. unfold g12.
    do 5 (rewrite cell_put_ne by (intros [=]; lia)).
    apply cell_put_eq; [repeat apply put_wf; exact Hwf0|].
    rewrite !put_valid. apply Hvalid; lia. }
  assert (has_ai g12 Defender) as Hd.
  { exists (Coord.mk 0 0), (Unit.mk Defender AI 9).
    split; [|done]. unfold g12.
    do 11 (rewrite cell_put_ne by (intros [=]; lia)).
    apply cell_put_eq; [exact Hwf0|]. apply Hvalid; lia. }
  assert (forall x v, cell g12 x = Some v -> Unit.type v = AI ->
            x = Coord.mk 0 0 /\ Unit.player v = Defender
            \/ x = Coord.mk (Options.dim o - 1) (Options.dim o - 1)
               /\ Unit.player v = Attacker) as Hai.
  { intros x v. unfold g12.
    repeat (rewrite cell_put
              by first [ repeat apply put_wf; exact Hwf0
                       | rewrite ?put_valid; apply Hvalid; lia ];
            destruct (decide _) as [->|_];
            [intros [= <-] Ht; first [discriminate Ht | by left | by right]|]).
    by rewrite Hempty. }
  split; [done|]. split; [done|]. split; [done|].
  split.
  { split.
    - intros p. rewrite Hflag. by destruct p.
    - intros x x' v v' Hx Hx' Ht Ht' Hp.
      destruct (Hai x v Hx Ht) as [[-> Hpv]|[-> Hpv]],
               (Hai x' v' Hx' Ht') as [[-> Hpv']|[-> Hpv']]; try done; congruence. }
  split; [done|].
  unfold g12. split_and!.
  - by rewrite !(proj1 (put_options _ _ _)).
  - by rewrite !(proj1 (put_fields _ _ _)).
  - by rewrite !(proj1 (proj2 (put_fields _ _ _))).
Qed.

(** X17.  On a board of dimension 3 or more, construction never raises and
    gives a position that satisfies the invariants of play: a [dim] x [dim]
    board, units of health 1 to 9, both has-AI flags set and saying exactly
    who has an AI on the board (each player has one and only one), the
    Attacker to move and no turn played. *)
Theorem new_establishes_invariants (o : Options.t) :
  3 <= Options.dim o ->
  exists g, Game.new o = Ret g
    /\ board_wf g /\ healthy g /\ flags_ok g /\ ai_exact g
    /\ (forall p, flag g p = true)
    /\ Game.options g = o /\ Game.next_player g = Attacker
    /\ Game.turns_played g = 0.
Proof. apply new_position. Qed.

Lemma new_establishes_invariants_witness :
  exists g, Game.new Options.default = Ret g
    /\ board_wf g /\ healthy g /\ flags_ok g /\ ai_exact g
    /\ (forall p, flag g p = true)
    /\ Game.options g = Options.default /\ Game.next_player g = Attacker
    /\ Game.turns_played g = 0.
Proof. apply (new_establishes_invariants Options.default). vm_compute. discriminate. Defined.

(** The bound is tight: on a 2 x 2 board the Attacker's Firewall is written
    over the Defender's AI while the Defender's flag stays set. *)
Lemma new_dimension_two :
  exists g,
    Game.new (Options.mk 2 (Some 4) (Some 2) (Some 5%Q) AttackerVsDefender true
                (Some 100) true None (Some 0)) = Ret g
    /\ ~ flags_ok g.
Proof.
  eexists. split; [vm_compute; reflexivity|].
  intros [_ Hd]. destruct Hd as (c & u & Hc & Hp & Ht); [reflexivity|].
  pose proof (cell_Some_valid _ _ _ Hc) as [Hr Hcol]%is_valid_coord_spec.
  destruct c as [r c]. simpl in Hr, Hcol.
  assert (r = 0 \/ r = 1) as [-> | ->] by lia;
    (assert (c = 0 \/ c = 1) as [-> | ->] by lia);
    vm_compute in Hc; injection Hc as <-; discriminate.
Qed.

Lemma initial_exact : ai_exact initial.
Proof.
  destruct (new_position Options.default) as (g & Hg & _ & _ & _ & He & _ & _).
  - vm_compute. discriminate.
  - rewrite initial_is_new in Hg. by injection Hg as <-.
Qed.

Lemma accepted_moves_keep_flags_exact_witness :
  ai_exact (put (put initial (Coord.mk 1 4) (aU Program 9)) (Coord.mk 2 4) None).
Proof.
  apply (accepted_moves_keep_flags_exact initial _ (step 2 4 1 4) Attacker
           (true, "Attacker has moved C4 to B4"%string)).
  - exact initial_wf.
  - exact initial_exact.
  - left. split; reflexivity.
Defined.

Lemma winner_by_board_witness :
  (Game.has_winner initial = None <->
     ~ out_of_turns initial /\ has_ai initial Attacker /\ has_ai initial Defender)
  /\ (Game.has_winner initial = Some Attacker <->
        ~ out_of_turns initial /\ has_ai initial Attacker /\ ~ has_ai initial Defender)
  /\ (Game.has_winner initial = Some Defender <->
        out_of_turns initial \/ ~ has_ai initial Attacker).
Proof. apply (winner_by_board initial). exact (proj1 initial_exact). Defined.

(** ** The moves offered to a human player *)

Lemma accepts_true (g : Game.t) (m : CoordPair.t) :
  accepts g m = true <-> Game.is_valid_move g m = Ret true.
Proof.
  unfold accepts. destruct (Game.is_valid_move g m) as [[]|]; split; try done.
  all: by intros [=].
Qed.

Lemma adjacent_moves_fold (g : Game.t) (src : Coord.t) (l : list Coord.t)
    (acc : list CoordPair.t) :
  board_wf g ->
  foldM (fun acc' dst =>
           ok ← Game.is_valid_move g (CoordPair.mk src dst);
           if (ok : bool) then Ret (acc' ++ [CoordPair.mk src dst]) else Ret acc')
        acc l
  = Ret (acc ++ filter (fun m => accepts g m = true) (CoordPair.mk src <$> l)).
Proof.
  intros Hwf. revert acc. induction l as [|d l IH]; intros acc.
  - simpl. by rewrite app_nil_r.
  - cbn [foldM]. rewrite fmap_cons, filter_cons.
    destruct (is_valid_move_total g (CoordPair.mk src d) Hwf) as [b Hb].
    assert (accepts g (CoordPair.mk src d) = b) as Hacc
      by (unfold accepts; by rewrite Hb).
    rewrite Hb. cbn [mbind result_bind]. destruct b.
    + rewrite decide_True by done. cbn [mbind result_bind].
      rewrite IH. by rewrite <- app_assoc.
    + rewrite decide_False by (by rewrite Hacc). cbn [mbind result_bind]. apply IH.
Qed.

Lemma moves_fold (g : Game.t) (units : list (Coord.t * Unit.t))
    (acc : list CoordPair.t) :
  board_wf g ->
  foldM (fun acc '(src, _) =>
           adj ← foldM (fun acc' dst =>
                          ok ← Game.is_valid_move g (CoordPair.mk src dst);
                          if (ok : bool) then Ret (acc' ++ [CoordPair.mk src dst])
                          else Ret acc')
                       [] (Coord.iter_adjacent src);
           Ret (acc ++ adj ++ [CoordPair.mk src src]))
        acc units
  = Ret (acc ++ (units ≫= fun '(src, _) =>
                   filter (fun m => accepts g m = true)
                          (CoordPair.mk src <$> Coord.iter_adjacent src)
                   ++ [CoordPair.mk src src])).
Proof.
  intros Hwf. revert acc. induction units as [|[src u] units IH]; intros acc.
  - simpl. by rewrite app_nil_r.
  - rewrite bind_cons. cbn [foldM].
    rewrite adjacent_moves_fold by done. cbn [mbind result_bind app].
    rewrite IH. by rewrite <- !app_assoc.
Qed.

(** X18.  [move_candidates] never raises on a [dim] x [dim] board and
    lists exactly the moves [is_valid_move] accepts: the accepted steps to
    an orthogonal neighbour and a self-destruct for every unit of the
    player to move.  It does not look at the winner, and it contains every
    move [move_candidates_for_AI] lists for the player to move. *)
Theorem move_candidates_spec (g : Game.t) :
  board_wf g ->
  exists l, Game.move_candidates g = Ret l
    /\ (forall m, m ∈ l <-> Game.is_valid_move g m = Ret true)
    /\ (forall l', Game.move_candidates_for_AI g (Game.next_player g) = Ret l' ->
                   l' ⊆ l).
Proof.
  intros Hwf. unfold Game.move_candidates.
  rewrite player_units_omap by done. cbn [mbind result_bind].
  rewrite moves_fold by done. eexists. split; [reflexivity|].
  assert (forall m,
             m ∈ [] ++ (omap (unit_of g (Game.next_player g)) (Game.whole_board g) ≫=
                        fun '(src, _) =>
                          filter (fun m => accepts g m = true)
                                 (CoordPair.mk src <$> Coord.iter_adjacent src)
                          ++ [CoordPair.mk src src])
             <-> Game.is_valid_move g m = Ret true) as Hspec.
  { intros m. rewrite app_nil_l, list_elem_of_bind. split.
    - intros ([src u] & Hm & (c & _ & (-> & Hc & Hp)%unit_of_Some)%list_elem_of_omap).
      apply elem_of_app in Hm as [Hm | ->%list_elem_of_singleton].
      + apply list_elem_of_filter in Hm as [Hacc _]. by apply accepts_true.
      + by apply (self_destruct_legality g c u).
    - intros Hvalid.
      destruct (accepted_interactive_source g m Hwf Hvalid) as (Hvs & _ & Hstep & u & Hu & Hp).
      exists (CoordPair.src m, u). split.
      + apply elem_of_app. destruct m as [src dst]. unfold one_step in Hstep.
        cbn [CoordPair.src CoordPair.dst] in *.
        destruct Hstep as [-> | Hadj]; [right; by apply list_elem_of_singleton|].
        left. apply list_elem_of_filter. split; [by apply accepts_true|].
        apply list_elem_of_fmap. by exists dst.
      + apply list_elem_of_omap. exists (CoordPair.src m). split.
        * by apply elem_of_whole_board.
        * by apply unit_of_Some. }
  split; [done|].
  intros l' Hl' m Hm. apply Hspec.
  destruct (candidates_characterised g (Game.next_player g) Hwf) as (l2 & Hl2 & Hspec2).
  rewrite Hl' in Hl2. injection Hl2 as <-.
  apply Hspec2 in Hm as (_ & Hstep & Hvalid).
  by apply accepted_for_AI_accepted.
Qed.

Lemma move_candidates_spec_witness :
  exists l, Game.move_candidates initial = Ret l
    /\ (forall m, m ∈ l <-> Game.is_valid_move initial m = Ret true)
    /\ (forall l', Game.move_candidates_for_AI initial (Game.next_player initial) = Ret l' ->
                   l' ⊆ l).
Proof. apply (move_candidates_spec initial). exact initial_wf. Defined.

(** ** Moves and repairs *)

Lemma perform_move_accepted (g : Game.t) (m : CoordPair.t) (u : Unit.t) :
  board_wf g -> cell g (CoordPair.src m) = Some u ->
  Game.is_valid_move g m = Ret true ->
  Game.perform_move g m = Game.perform_move_for_AI g m (Unit.player u).
Proof.
  intros Hwf Hsrc Hvalid.
  destruct (accepted_interactive_source g m Hwf Hvalid) as (_ & _ & _ & u' & Hu' & Hp).
  rewrite perform_move_as_AI by done. congruence.
Qed.

(** X19.  A move onto an empty cell of the board relocates the unit as it
    is: afterwards the destination holds the unit, the source is empty and
    every other cell is unchanged.  [perform_move_for_AI] does so for any
    such pair of cells, [perform_move] whenever [is_valid_move] accepts the
    move. *)
Theorem move_relocates_unit (g : Game.t) (m : CoordPair.t) (u : Unit.t) :
  board_wf g ->
  cell g (CoordPair.src m) = Some u ->
  cell g (CoordPair.dst m) = None ->
  Game.is_valid_coord g (CoordPair.dst m) = true ->
  exists g' msg,
    Game.perform_move_for_AI g m (Unit.player u) = Ret (g', (true, msg))
    /\ (Game.is_valid_move g m = Ret true ->
        Game.perform_move g m = Ret (g', (true, msg)))
    /\ cell g' (CoordPair.dst m) = Some u
    /\ cell g' (CoordPair.src m) = None
    /\ forall c, c <> CoordPair.src m -> c <> CoordPair.dst m -> cell g' c = cell g c.
Proof.
  intros Hwf Hsrc Hdst Hvd.
  pose proof (cell_Some_valid _ _ _ Hsrc) as Hvs.
  destruct (to_string_valid g _ Hvs) as [ss Hss].
  destruct (to_string_valid g _ Hvd) as [ds Hds].
  assert (CoordPair.src m <> CoordPair.dst m) as Hne by congruence.
  assert (Game.perform_move_for_AI g m (Unit.player u)
          = Ret (put (put g (CoordPair.dst m) (Some u)) (CoordPair.src m) None,
                 (true, PlayerM.name (Unit.player u) +:+ " has moved " +:+ ss
                          +:+ " to " +:+ ds))) as Hrun.
  { unfold Game.perform_move_for_AI. rewrite !get_cell, Hsrc, Hdst by done. simpl.
    rewrite set_put by done. simpl. rewrite set_put by (by apply put_wf). simpl.
    by rewrite Hss, Hds. }
  eexists _, _. split; [exact Hrun|]. split_and!.
  - intros Hvalid. by rewrite (perform_move_accepted g m u).
  - rewrite cell_put_ne by done. by apply cell_put_eq.
  - apply cell_put_eq; [by apply put_wf|by rewrite put_valid].
  - intros c Hcs Hcd. by rewrite !cell_put_ne.
Qed.

Lemma move_relocates_unit_witness :
  exists g' msg,
    Game.perform_move_for_AI initial (step 2 4 1 4) (Unit.player (Unit.mk Attacker Program 9))
      = Ret (g', (true, msg))
    /\ (Game.is_valid_move initial (step 2 4 1 4) = Ret true ->
        Game.perform_move initial (step 2 4 1 4) = Ret (g', (true, msg)))
    /\ cell g' (CoordPair.dst (step 2 4 1 4)) = Some (Unit.mk Attacker Program 9)
    /\ cell g' (CoordPair.src (step 2 4 1 4)) = None
    /\ forall c, c <> CoordPair.src (step 2 4 1 4) -> c <> CoordPair.dst (step 2 4 1 4) ->
                 cell g' c = cell initial c.
Proof.
  apply (move_relocates_unit initial (step 2 4 1 4) (Unit.mk Attacker Program 9)).
  - exact initial_wf.
  - reflexivity.
  - reflexivity.
  - reflexivity.
Defined.

(** X20.  A repair changes one cell only: the target (health 0 to 9) ends
    with its health raised by the repair-table entry of the two types, but
    not above 9; the repairing unit and every other cell are unchanged.
    [perform_move_for_AI] does so for any two different cells holding units
    of the acting player, [perform_move] whenever [is_valid_move] accepts
    the move. *)
Theorem repair_raises_health (g : Game.t) (m : CoordPair.t) (u t : Unit.t) :
  board_wf g ->
  cell g (CoordPair.src m) = Some u ->
  cell g (CoordPair.dst m) = Some t ->
  CoordPair.dst m <> CoordPair.src m ->
  Unit.player t = Unit.player u ->
  0 <= Unit.health t <= 9 ->
  exists g' msg,
    Game.perform_move_for_AI g m (Unit.player u) = Ret (g', (true, msg))
    /\ (Game.is_valid_move g m = Ret true ->
        Game.perform_move g m = Ret (g', (true, msg)))
    /\ cell g' (CoordPair.dst m)
       = Some (Unit.with_health t
                 (Z.min 9 (Unit.health t
                           + Unit.entry Unit.repair_table (Unit.type u) (Unit.type t))))
    /\ forall c, c <> CoordPair.dst m -> cell g' c = cell g c.
Proof.
  intros Hwf Hsrc Hdst Hne Hfriend Hhealth.
  pose proof (cell_Some_valid _ _ _ Hsrc) as Hvs.
  pose proof (cell_Some_valid _ _ _ Hdst) as Hvd.
  destruct (to_string_valid g _ Hvs) as [ss Hss].
  destruct (to_string_valid g _ Hvd) as [ds Hds].
  assert (Game.perform_move_for_AI g m (Unit.player u)
          = Ret (put g (CoordPair.dst m)
                   (Some (Unit.mod_health t (Unit.repair_amount u t))),
                 (true, PlayerM.name (Unit.player u) +:+ " has moved " +:+ ss
                          +:+ " to repair " +:+ ds))) as Hrun.
  { unfold Game.perform_move_for_AI. rewrite !get_cell, Hsrc, Hdst by done. simpl.
    destruct (decide (CoordPair.dst m = CoordPair.src m)); [done|].
    destruct (decide (Unit.player t = Unit.player u)); [|done].
    unfold Game.mutate. rewrite set_put by done. simpl. by rewrite Hss, Hds. }
  eexists _, _. split; [exact Hrun|]. split_and!.
  - intros Hvalid. by rewrite (perform_move_accepted g m u).
  - rewrite cell_put_eq by done. f_equal.
    destruct (amounts_as_min u t) as (_ & ->).
    destruct (entry_nonneg (Unit.type u) (Unit.type t)) as [_ Hnn].
    unfold Unit.mod_health.
    set (e := Unit.entry Unit.repair_table (Unit.type u) (Unit.type t)) in *.
    destruct (Z.ltb_spec (Unit.health t + Z.min e (9 - Unit.health t)) 0); [lia|].
    destruct (Z.ltb_spec 9 (Unit.health t + Z.min e (9 - Unit.health t))); [lia|].
    f_equal. lia.
  - intros c Hc. by rewrite cell_put_ne.
Qed.

Lemma repair_raises_health_witness :
  exists g' msg,
    Game.perform_move_for_AI (put initial (Coord.mk 3 4) (aU Virus 5)) (step 4 4 3 4)
      (Unit.player (Unit.mk Attacker AI 9)) = Ret (g', (true, msg))
    /\ (Game.is_valid_move (put initial (Coord.mk 3 4) (aU Virus 5)) (step 4 4 3 4)
        = Ret true ->
        Game.perform_move (put initial (Coord.mk 3 4) (aU Virus 5)) (step 4 4 3 4)
        = Ret (g', (true, msg)))
    /\ cell g' (CoordPair.dst (step 4 4 3 4))
       = Some (Unit.with_health (Unit.mk Attacker Virus 5)
                 (Z.min 9 (Unit.health (Unit.mk Attacker Virus 5)
                           + Unit.entry Unit.repair_table
                               (Unit.type (Unit.mk Attacker AI 9))
                               (Unit.type (Unit.mk Attacker Virus 5)))))
    /\ forall c, c <> CoordPair.dst (step 4 4 3 4) ->
                 cell g' c = cell (put initial (Coord.mk 3 4) (aU Virus 5)) c.
Proof.
  apply (repair_raises_health (put initial (Coord.mk 3 4) (aU Virus 5)) (step 4 4 3 4)
           (Unit.mk Attacker AI 9) (Unit.mk Attacker Virus 5)).
  - apply put_wf. exact initial_wf.
  - reflexivity.
  - reflexivity.
  - discriminate.
  - reflexivity.
  - simpl. lia.
Defined.

(** Resolution of a move of a unit on the board to a cell of the board
    never raises, whatever the two cells hold otherwise. *)
Lemma perform_move_for_AI_total (g : Game.t) (m : CoordPair.t) (p : Player)
    (u : Unit.t) :
  board_wf g ->
  cell g (CoordPair.src m) = Some u ->
  Game.is_valid_coord g (CoordPair.dst m) = true ->
  exists g' msg,
    Game.perform_move_for_AI g m p = Ret (g', (true, msg)) /\ board_wf g'.
Proof.
  intros Hwf Hsrc Hvd.
  pose proof (cell_Some_valid _ _ _ Hsrc) as Hvs.
  destruct (to_string_valid g _ Hvs) as [ss Hss].
  destruct (to_string_valid g _ Hvd) as [ds Hds].
  unfold Game.perform_move_for_AI. rewrite !get_cell, Hsrc by done. simpl.
  destruct (cell g (CoordPair.dst m)) as [t|] eqn:Hdst.
  - destruct (decide (CoordPair.dst m = CoordPair.src m)) as [Heq|Hne].
    + unfold Game.mutate. rewrite set_put by done. simpl.
      destruct (remove_dead_spec
                  (put g (CoordPair.src m) (Some (Unit.mod_health u (- Unit.health u))))
                  (CoordPair.src m)) as (g2 & -> & (Hwf2 & _) & _); [by apply put_wf|].
      simpl.
      destruct (blast_spec (Coord.iter_range (CoordPair.src m) 1) g2 (-2) Hwf2
                  (NoDup_iter_range (CoordPair.src m) 1)) as (g3 & -> & (Hwf3 & _) & _).
      simpl. rewrite Hss. simpl. by eexists _, _.
    + destruct (decide (Unit.player t = p)).
      * unfold Game.mutate. rewrite set_put by done. simpl. rewrite Hss, Hds. simpl.
        eexists _, _. split; [done|]. by apply put_wf.
      * unfold Game.mutate. rewrite set_put by done. simpl.
        rewrite set_put by (by apply put_wf). simpl.
        match goal with |- context [Game.remove_dead ?g0 (CoordPair.dst m)] =>
          destruct (remove_dead_spec g0 (CoordPair.dst m))
            as (g3 & -> & (Hwf3 & _) & _); [by do 2 apply put_wf|]
        end.
        simpl.
        destruct (remove_dead_spec g3 (CoordPair.src m) Hwf3)
          as (g4 & -> & (Hwf4 & _) & _).
        simpl. rewrite Hss, Hds. simpl. by eexists _, _.
  - rewrite set_put by done. simpl. rewrite set_put by (by apply put_wf). simpl.
    rewrite Hss, Hds. simpl. eexists _, _. split; [done|]. by do 2 apply put_wf.
Qed.

(** X21.  [perform_move] is [perform_move_for_AI] behind a guard.  On a
    [dim] x [dim] board and for two coordinates of the board it never
    raises: either [is_valid_move] accepts the move, and then
    [perform_move] and [perform_move_for_AI] for the player to move both
    return, with the same game, the same message and success reported; or
    [is_valid_move] rejects the move, and then [perform_move] reports
    failure and leaves the game as it was. *)
Theorem perform_move_guards_resolution (g : Game.t) (m : CoordPair.t) :
  board_wf g ->
  Game.is_valid_coord g (CoordPair.src m) = true ->
  Game.is_valid_coord g (CoordPair.dst m) = true ->
  Game.is_valid_move g m = Ret true
  /\ (exists g' msg,
        Game.perform_move g m = Ret (g', (true, msg))
        /\ Game.perform_move_for_AI g m (Game.next_player g) = Ret (g', (true, msg))
        /\ board_wf g')
  \/ Game.is_valid_move g m = Ret false
     /\ exists msg, Game.perform_move g m = Ret (g, (false, msg)).
Proof.
  intros Hwf Hvs Hvd.
  destruct (is_valid_move_total g m Hwf) as ([] & Hvalid).
  - left. split; [done|].
    destruct (accepted_interactive_source g m Hwf Hvalid) as (_ & _ & _ & u & Hu & _).
    destruct (perform_move_for_AI_total g m (Game.next_player g) u Hwf Hu Hvd)
      as (g' & msg & Hrun & Hwf').
    exists g', msg. split; [|done]. rewrite perform_move_as_AI by done. done.
  - right. split; [done|].
    destruct (to_string_valid g _ Hvs) as [ss Hss].
    destruct (to_string_valid g _ Hvd) as [ds Hds].
    unfold Game.perform_move. rewrite Hvalid. simpl. rewrite Hss, Hds. simpl.
    by eexists.
Qed.

Lemma perform_move_guards_resolution_witness :
  Game.is_valid_move initial (step 2 4 1 4) = Ret true
  /\ (exists g' msg,
        Game.perform_move initial (step 2 4 1 4) = Ret (g', (true, msg))
        /\ Game.perform_move_for_AI initial (step 2 4 1 4) (Game.next_player initial)
           = Ret (g', (true, msg))
        /\ board_wf g')
  \/ Game.is_valid_move initial (step 2 4 1 4) = Ret false
     /\ exists msg, Game.perform_move initial (step 2 4 1 4) = Ret (initial, (false, msg)).
Proof.
  apply (perform_move_guards_resolution initial (step 2 4 1 4)).
  - exact initial_wf.
  - reflexivity.
  - reflexivity.
Defined.

(** ** Cells *)

(** X22.  [set] followed by [get]: on a [dim] x [dim] board [set] never
    raises and keeps the shape of the board; reading the cell that was
    written gives what was written, reading any other cell gives what it
    held before.  Outside the board [set] changes nothing and [get]
    answers [None]. *)
Theorem get_after_set (g : Game.t) (c : Coord.t) (u : option Unit.t) :
  board_wf g ->
  exists g', Game.set g c u = Ret g'
    /\ board_wf g'
    /\ Game.get g' c = Ret (if Game.is_valid_coord g c then u else None)
    /\ (forall c', c' <> c -> Game.get g' c' = Game.get g c')
    /\ (Game.is_valid_coord g c = false -> g' = g).
Proof.
  intros Hwf. exists (put g c u).
  split; [by apply set_put|]. split; [by apply put_wf|]. split_and!.
  - rewrite get_cell by (by apply put_wf).
    destruct (Game.is_valid_coord g c) eqn:Hv.
    + by rewrite cell_put_eq.
    + rewrite cell_invalid; [done|]. by rewrite put_valid.
  - intros c' Hne. rewrite !get_cell by (try apply put_wf; done).
    by rewrite cell_put_ne.
  - intros Hv. unfold put. by rewrite Hv.
Qed.

Lemma get_after_set_witness :
  exists g', Game.set initial (Coord.mk 2 2) (aU Virus 3) = Ret g'
    /\ board_wf g'
    /\ Game.get g' (Coord.mk 2 2)
       = Ret (if Game.is_valid_coord initial (Coord.mk 2 2) then aU Virus 3 else None)
    /\ (forall c', c' <> Coord.mk 2 2 -> Game.get g' c' = Game.get initial c')
    /\ (Game.is_valid_coord initial (Coord.mk 2 2) = false -> g' = initial).
Proof. apply (get_after_set initial (Coord.mk 2 2) (aU Virus 3)). exact initial_wf. Defined.

(** X23.  [remove_dead] empties a cell exactly when it holds a unit whose
    health is not positive, and leaves every other cell alone.  It clears a
    has-AI flag exactly when the unit it removes is an AI, and then the
    flag of that unit's player; it never sets a flag. *)
Theorem remove_dead_clears_flag (g : Game.t) (c : Coord.t) :
  board_wf g ->
  exists g', Game.remove_dead g c = Ret g'
    /\ board_wf g'
    /\ cell g' c = match cell g c with
                   | Some u => if Unit.is_alive u then Some u else None
                   | None => None
                   end
    /\ (forall c', c' <> c -> cell g' c' = cell g c')
    /\ forall p,
         flag g' p
         = match cell g c with
           | Some u =>
               if negb (Unit.is_alive u) && bool_decide (Unit.type u = AI)
                  && bool_decide (Unit.player u = p)
               then false else flag g p
           | None => flag g p
           end.
Proof.
  intros Hwf.
  destruct (remove_dead_spec g c Hwf) as (g' & Hrun & (Hwf' & _) & Hc & Hother).
  exists g'. split; [done|]. split; [done|]. split; [done|]. split; [done|].
  revert Hrun. unfold Game.remove_dead. rewrite get_cell by done. simpl.
  destruct (cell g c) as [u|]; [|by intros [= <-]].
  destruct (Unit.is_alive u); simpl; [by intros [= <-]|].
  rewrite set_put by done. simpl.
  destruct (put_fields g c None) as (_ & _ & Hfa & Hfd).
  destruct (decide (Unit.type u = AI)) as [Hai|Hnai];
    [destruct (decide (Unit.player u = Attacker)) as [Hp|Hp]|]; intros [= <-] p.
  - rewrite bool_decide_eq_true_2 by done. rewrite Hp. by destruct p.
  - rewrite bool_decide_eq_true_2 by done.
    destruct (Unit.player u); [done|]. by destruct p.
  - rewrite bool_decide_eq_false_2 by done. by destruct p.
Qed.

Lemma remove_dead_clears_flag_witness :
  exists g', Game.remove_dead (put initial (Coord.mk 4 4) (aU AI 0)) (Coord.mk 4 4) = Ret g'
    /\ board_wf g'
    /\ cell g' (Coord.mk 4 4)
       = match cell (put initial (Coord.mk 4 4) (aU AI 0)) (Coord.mk 4 4) with
         | Some u => if Unit.is_alive u then Some u else None
         | None => None
         end
    /\ (forall c', c' <> Coord.mk 4 4 ->
                   cell g' c' = cell (put initial (Coord.mk 4 4) (aU AI 0)) c')
    /\ forall p,
         flag g' p
         = match cell (put initial (Coord.mk 4 4) (aU AI 0)) (Coord.mk 4 4) with
           | Some u =>
               if negb (Unit.is_alive u) && bool_decide (Unit.type u = AI)
                  && bool_decide (Unit.player u = p)
               then false else flag (put initial (Coord.mk 4 4) (aU AI 0)) p
           | None => flag (put initial (Coord.mk 4 4) (aU AI 0)) p
           end.
Proof.
  apply (remove_dead_clears_flag (put initial (Coord.mk 4 4) (aU AI 0)) (Coord.mk 4 4)).
  apply put_wf. exact initial_wf.
Defined.

(** X24.  [Game.mod_health] changes one cell: the unit there ends with its
    health changed by the delta and kept between 0 and 9, and is removed
    when that leaves 0; an empty cell stays empty.  Every other cell, the
    configuration, the player to move and the turn count are unchanged. *)
Theorem mod_health_strikes_one_cell (g : Game.t) (c : Coord.t) (delta : Z) :
  board_wf g ->
  exists g', Game.mod_health g c delta = Ret g'
    /\ board_wf g'
    /\ cell g' c
       = match cell g c with
         | Some u =>
             let h := Z.max 0 (Z.min 9 (Unit.health u + delta)) in
             if 0 <? h then Some (Unit.with_health u h) else None
         | None => None
         end
    /\ (forall c', c' <> c -> cell g' c' = cell g c')
    /\ Game.options g' = Game.options g
    /\ Game.next_player g' = Game.next_player g
    /\ Game.turns_played g' = Game.turns_played g.
Proof.
  intros Hwf.
  destruct (mod_health_spec g c delta Hwf) as (g' & Hrun & (Hwf' & Ho & Hn & Ht) & Hc & Hother).
  exists g'. split_and!; try done.
  rewrite Hc. unfold struck. destruct (cell g c) as [u|]; [|done].
  unfold Unit.mod_health, Unit.is_alive. cbv zeta.
  destruct (Z.ltb_spec (Unit.health u + delta) 0).
  - replace (Z.max 0 (Z.min 9 (Unit.health u + delta))) with 0 by lia. done.
  - destruct (Z.ltb_spec 9 (Unit.health u + delta)).
    + by replace (Z.max 0 (Z.min 9 (Unit.health u + delta))) with 9 by lia.
    + by replace (Z.max 0 (Z.min 9 (Unit.health u + delta)))
        with (Unit.health u + delta) by lia.
Qed.

Lemma mod_health_strikes_one_cell_witness :
  exists g', Game.mod_health initial (Coord.mk 3 3) (-2) = Ret g'
    /\ board_wf g'
    /\ cell g' (Coord.mk 3 3)
       = match cell initial (Coord.mk 3 3) with
         | Some u =>
             let h := Z.max 0 (Z.min 9 (Unit.health u + -2)) in
             if 0 <? h then Some (Unit.with_health u h) else None
         | None => None
         end
    /\ (forall c', c' <> Coord.mk 3 3 -> cell g' c' = cell initial c')
    /\ Game.options g' = Game.options initial
    /\ Game.next_player g' = Game.next_player initial
    /\ Game.turns_played g' = Game.turns_played initial.
Proof. apply (mod_health_strikes_one_cell initial (Coord.mk 3 3) (-2)). exact initial_wf. Defined.

(** X25.  [iter_rectangle] yields each coordinate of the rectangle between
    its two corners exactly once and nothing else (nothing at all when a
    corner is out of order); for the rectangle of [from_dim dim] these are
    the [dim] * [dim] coordinates of the board. *)
Theorem iter_rectangle_cells (p : CoordPair.t) (c : Coord.t) (dim : Z) :
  NoDup (CoordPair.iter_rectangle p)
  /\ (c ∈ CoordPair.iter_rectangle p <->
      Coord.row (CoordPair.src p) <= Coord.row c <= Coord.row (CoordPair.dst p)
      /\ Coord.col (CoordPair.src p) <= Coord.col c <= Coord.col (CoordPair.dst p))
  /\ length (CoordPair.iter_rectangle (CoordPair.from_dim dim))
     = (Z.to_nat dim * Z.to_nat dim)%nat.
Proof.
  split_and!.
  - unfold CoordPair.iter_rectangle, range.
    apply NoDup_bind; [| |apply NoDup_seqZ].
    + intros r1 r2 x _ _
        (k1 & ->%list_elem_of_singleton & _)%list_elem_of_bind
        (k2 & [= -> _]%list_elem_of_singleton & _)%list_elem_of_bind.
      done.
    + intros r _. apply NoDup_bind; [| |apply NoDup_seqZ].
      * by intros k1 k2 x _ _ ->%list_elem_of_singleton [= ->]%list_elem_of_singleton.
      * intros k _. apply NoDup_singleton.
  - unfold CoordPair.iter_rectangle, range. rewrite list_elem_of_bind. split.
    + intros (r & (k & ->%list_elem_of_singleton & Hk%elem_of_seqZ)%list_elem_of_bind
                & Hr%elem_of_seqZ).
      simpl. lia.
    + intros [Hr Hc]. exists (Coord.row c). split.
      * apply list_elem_of_bind. exists (Coord.col c). split.
        -- destruct c. by apply list_elem_of_singleton.
        -- apply elem_of_seqZ. lia.
      * apply elem_of_seqZ. lia.
  - unfold CoordPair.iter_rectangle, CoordPair.from_dim, range. simpl.
    rewrite (length_bind_const _ _ (Z.to_nat dim)).
    + rewrite length_seqZ. f_equal. lia.
    + intros r. rewrite (length_bind_const _ _ 1%nat) by done.
      rewrite length_seqZ. lia.
Qed.

(** ** Scores *)

(** X26.  On a [dim] x [dim] board the e0 score is at most 9999 per cell
    in absolute value; up to dimension 447 it therefore lies strictly
    between [MIN_HEURISTIC_SCORE] and [MAX_HEURISTIC_SCORE], the values the
    search starts from. *)
Theorem e0_between_sentinels (g : Game.t) :
  board_wf g ->
  Options.dim (Game.options g) <= 447 ->
  exists z, Game.compute_heuristic_e0 g = Ret z
    /\ Z.abs z <= 9999 * (Options.dim (Game.options g) * Options.dim (Game.options g))
    /\ MIN_HEURISTIC_SCORE < z < MAX_HEURISTIC_SCORE.
Proof.
  intros Hwf Hdim.
  destruct (compute_heuristic_e0_total g Hwf) as (z & Hz). exists z. split; [done|].
  apply e0_fold_bound in Hz. rewrite length_whole_board in Hz.
  unfold MIN_HEURISTIC_SCORE, MAX_HEURISTIC_SCORE.
  assert (Z.of_nat (Z.to_nat (Options.dim (Game.options g))
                    * Z.to_nat (Options.dim (Game.options g)))
          <= Options.dim (Game.options g) * Options.dim (Game.options g)) as Hsq by nia.
  assert (Options.dim (Game.options g) * Options.dim (Game.options g) <= 447 * 447
          \/ Options.dim (Game.options g) < 0) as [Hb|Hneg] by nia.
  - lia.
  - assert (Z.of_nat (Z.to_nat (Options.dim (Game.options g))
                      * Z.to_nat (Options.dim (Game.options g))) = 0) as H0 by lia.
    rewrite H0 in Hz. split; [nia|lia].
Qed.

Lemma e0_between_sentinels_witness :
  exists z, Game.compute_heuristic_e0 initial = Ret z
    /\ Z.abs z <= 9999 * (Options.dim (Game.options initial)
                          * Options.dim (Game.options initial))
    /\ MIN_HEURISTIC_SCORE < z < MAX_HEURISTIC_SCORE.
Proof.
  apply (e0_between_sentinels initial).
  - exact initial_wf.
  - vm_compute. discriminate.
Defined.

(** ** Direct indexing *)

Lemma py_index_outside {A : Type} (l : list A) (i : Z) :
  Z.of_nat (length l) <= i \/ i < - Z.of_nat (length l) ->
  py_index l i = Raise IndexError.
Proof.
  intros Hi. unfold py_index.
  destruct (Z.ltb_spec i 0).
  - destruct (Z.ltb_spec (i + Z.of_nat (length l)) 0); [done|lia].
  - destruct (Z.ltb_spec i 0); [lia|].
    destruct (Z.leb_spec (Z.of_nat (length l)) i); [done|lia].
Qed.

Lemma py_index_wraps {A : Type} (l : list A) (i : Z) :
  - Z.of_nat (length l) <= i < 0 -> py_index l i = py_index l (i + Z.of_nat (length l)).
Proof.
  intros Hi. unfold py_index.
  destruct (Z.ltb_spec i 0); [|lia].
  assert ((i + Z.of_nat (length l) <? 0) = false) as E by (apply Z.ltb_ge; lia).
  rewrite E. cbv iota. by rewrite E.
Qed.

(** X27.  [is_empty] indexes the board directly.  On a coordinate of the
    board it says whether [get] finds nothing there.  Outside the board,
    where [get] answers [None], it behaves differently: a row from [dim]
    upwards (or a column from [dim] upwards in a row of the board) raises
    [IndexError], and a negative row down to [-dim] is read from the other
    end of the board. *)
Theorem is_empty_indexes_directly (g : Game.t) (c : Coord.t) :
  board_wf g ->
  let dim := Options.dim (Game.options g) in
  (Game.is_valid_coord g c = true ->
   exists o, Game.get g c = Ret o
             /\ Game.is_empty g c
                = Ret (match o with None => true | Some _ => false end))
  /\ (dim <= Coord.row c \/ 0 <= Coord.row c < dim /\ dim <= Coord.col c ->
      Game.is_empty g c = Raise IndexError /\ Game.get g c = Ret None)
  /\ (- dim <= Coord.row c < 0 ->
      Game.is_empty g c = Game.is_empty g (Coord.mk (Coord.row c + dim) (Coord.col c))
      /\ Game.get g c = Ret None).
Proof.
  intros Hwf dim. pose proof Hwf as [Hlen Hrows]. split_and!.
  - intros Hv. exists (cell g c). split; [by apply get_cell|].
    unfold Game.is_empty, cell. rewrite Hv.
    destruct (wf_row g c Hwf Hv) as (r & Hrow & Hr).
    pose proof Hv as [? ?]%is_valid_coord_spec.
    destruct (py_index_lookup (Game.board g) (Coord.row c)) as (r' & Hr' & ->); [lia|].
    simpl. rewrite Hrow in Hr'. injection Hr' as <-. rewrite Hrow.
    destruct (py_index_lookup r (Coord.col c)) as (x & Hx & ->); [lia|].
    by rewrite Hx.
  - intros Hout. split.
    + unfold Game.is_empty. fold dim in Hlen.
      destruct Hout as [Hrow | [Hrow Hcol]].
      * rewrite py_index_outside; [done|].
        destruct (Z.le_gt_cases 0 (Coord.row c)); lia.
      * destruct (py_index_lookup (Game.board g) (Coord.row c)) as (r & Hr & ->); [lia|].
        simpl. rewrite Forall_lookup in Hrows. apply Hrows in Hr. fold dim in Hr.
        rewrite py_index_outside; [done|]. lia.
    + unfold Game.get.
      destruct (Game.is_valid_coord g c) eqn:Hv; [|done].
      apply is_valid_coord_spec in Hv. fold dim in Hv. lia.
  - intros Hneg. split.
    + unfold Game.is_empty. cbn [Coord.row Coord.col]. fold dim in Hlen.
      rewrite py_index_wraps by lia. do 2 f_equal. lia.
    + unfold Game.get.
      destruct (Game.is_valid_coord g c) eqn:Hv; [|done].
      apply is_valid_coord_spec in Hv. lia.
Qed.

Lemma is_empty_indexes_directly_witness :
  let dim := Options.dim (Game.options initial) in
  (Game.is_valid_coord initial (Coord.mk (-1) 4) = true ->
   exists o, Game.get initial (Coord.mk (-1) 4) = Ret o
             /\ Game.is_empty initial (Coord.mk (-1) 4)
                = Ret (match o with None => true | Some _ => false end))
  /\ (dim <= Coord.row (Coord.mk (-1) 4)
      \/ 0 <= Coord.row (Coord.mk (-1) 4) < dim /\ dim <= Coord.col (Coord.mk (-1) 4) ->
      Game.is_empty initial (Coord.mk (-1) 4) = Raise IndexError
      /\ Game.get initial (Coord.mk (-1) 4) = Ret None)
  /\ (- dim <= Coord.row (Coord.mk (-1) 4) < 0 ->
      Game.is_empty initial (Coord.mk (-1) 4)
      = Game.is_empty initial
          (Coord.mk (Coord.row (Coord.mk (-1) 4) + dim) (Coord.col (Coord.mk (-1) 4)))
      /\ Game.get initial (Coord.mk (-1) 4) = Ret None).
Proof. apply (is_empty_indexes_directly initial (Coord.mk (-1) 4)). exact initial_wf. Defined.

(** ** Shallow searches *)

Lemma Qle_bool_inject_Z (a b : Z) : Qle_bool (inject_Z a) (inject_Z b) = (a <=? b).
Proof. unfold Qle_bool. simpl. by rewrite !Z.mul_1_r. Qed.

(** Over leaves the pruning test of alpha-beta never fires, and its loop
    is the loop of plain minimax. *)
Lemma loops_agree_over_leaves (now : nat -> Q) (D : Z) (start_time : Q)
    (recur_m : Game.t -> Game.world -> result (Game.search_result * Game.world))
    (recur_ab : Game.t -> Q -> Q -> Game.world ->
                result (Game.search_result * Game.world))
    (g : Game.t) (p : Player) (l : list CoordPair.t) :
  position_ok g -> searchable D g ->
  Game.move_candidates_for_AI g p = Ret l ->
  (forall child alpha beta w,
      position_ok child -> searchable D child ->
      recur_ab child alpha beta w = recur_m child w
      /\ exists z mv w', recur_m child w = Ret (Some (inject_Z z, mv), w')
                         /\ plausible z) ->
  forall cands alpha beta best bm bc w,
    cands ⊆ l -> window_open p alpha beta -> best_so_far p best ->
    Game.alphabeta_loop now recur_ab g p start_time cands alpha beta best bm bc w
    = Game.minimax_loop now recur_m g p start_time cands best bm bc w.
Proof.
  intros (Hwf & Hh & Hf) Hs Hl Hrecur.
  induction cands as [|m cands IH]; intros alpha beta best bm bc w Hsub Hwin Hbest;
    [done|].
  assert (m ∈ l) as Hm by (apply Hsub; by left).
  assert (cands ⊆ l) as Hsub' by (intros x Hx; apply Hsub; by right).
  destruct (candidate_resolution g p l m Hwf Hh Hf Hl Hm)
    as (child & msg & Hrun & Hwf' & Hh' & Hf').
  pose proof (searchable_carried D g child (perform_move_for_AI_carried _ _ _ _ _ Hrun) Hs)
    as Hs'.
  destruct (Hrecur child alpha beta w) as (Hsame & z & mv & w1 & Hrec & Hz); try done.
  cbn [Game.alphabeta_loop Game.minimax_loop]. unfold Game.clone.
  rewrite Hrun. cbn [mbind result_bind]. rewrite Hsame, Hrec. cbn [mbind result_bind].
  destruct Hwin as (a & b & -> & -> & Hab & HbA & HaD).
  destruct Hbest as (zb & -> & HzA & HzD).
  destruct Hz as [Hlo Hhi].
  rewrite !Qlt_bool_inject_Z.
  destruct p; simpl.
  - (* Attacker: beta is the sentinel, alpha stays below it *)
    specialize (HbA eq_refl). specialize (HzA eq_refl). subst b.
    rewrite orb_false_r.
    destruct (Z.ltb_spec zb z).
    + rewrite Qlt_bool_inject_Z.
      destruct (Z.ltb_spec a z); rewrite Qle_bool_inject_Z.
      * destruct (Z.leb_spec MAX_HEURISTIC_SCORE z); [lia|].
        destruct (Game.cutoff now g start_time w1) as [[[] w2]|]; try done.
        simpl. apply IH; [done| |].
        -- exists z, MAX_HEURISTIC_SCORE. by split_and!.
        -- exists z. by split_and!.
      * destruct (Z.leb_spec MAX_HEURISTIC_SCORE a); [lia|].
        destruct (Game.cutoff now g start_time w1) as [[[] w2]|]; try done.
        simpl. apply IH; [done| |].
        -- exists a, MAX_HEURISTIC_SCORE. by split_and!.
        -- exists z. by split_and!.
    + rewrite Qlt_bool_inject_Z.
      destruct (Z.ltb_spec a zb); rewrite Qle_bool_inject_Z.
      * destruct (Z.leb_spec MAX_HEURISTIC_SCORE zb); [lia|].
        destruct (Game.cutoff now g start_time w1) as [[[] w2]|]; try done.
        simpl. apply IH; [done| |].
        -- exists zb, MAX_HEURISTIC_SCORE. by split_and!.
        -- exists zb. by split_and!.
      * destruct (Z.leb_spec MAX_HEURISTIC_SCORE a); [lia|].
        destruct (Game.cutoff now g start_time w1) as [[[] w2]|]; try done.
        simpl. apply IH; [done| |].
        -- exists a, MAX_HEURISTIC_SCORE. by split_and!.
        -- exists zb. by split_and!.
  - (* Defender: alpha is the sentinel, beta stays above it *)
    specialize (HaD eq_refl). specialize (HzD eq_refl). subst a.
    destruct (Z.ltb_spec z zb).
    + rewrite Qlt_bool_inject_Z.
      destruct (Z.ltb_spec z b); rewrite Qle_bool_inject_Z.
      * destruct (Z.leb_spec z MIN_HEURISTIC_SCORE); [lia|].
        destruct (Game.cutoff now g start_time w1) as [[[] w2]|]; try done.
        simpl. apply IH; [done| |].
        -- exists MIN_HEURISTIC_SCORE, z. by split_and!.
        -- exists z. by split_and!.
      * destruct (Z.leb_spec b MIN_HEURISTIC_SCORE); [lia|].
        destruct (Game.cutoff now g start_time w1) as [[[] w2]|]; try done.
        simpl. apply IH; [done| |].
        -- exists MIN_HEURISTIC_SCORE, b. by split_and!.
        -- exists z. by split_and!.
    + rewrite Qlt_bool_inject_Z.
      destruct (Z.ltb_spec zb b); rewrite Qle_bool_inject_Z.
      * destruct (Z.leb_spec zb MIN_HEURISTIC_SCORE); [lia|].
        destruct (Game.cutoff now g start_time w1) as [[[] w2]|]; try done.
        simpl. apply IH; [done| |].
        -- exists MIN_HEURISTIC_SCORE, zb. by split_and!.
        -- exists zb. by split_and!.
      * destruct (Z.leb_spec b MIN_HEURISTIC_SCORE); [lia|].
        destruct (Game.cutoff now g start_time w1) as [[[] w2]|]; try done.
        simpl. apply IH; [done| |].
        -- exists MIN_HEURISTIC_SCORE, b. by split_and!.
        -- exists zb. by split_and!.
Qed.

(** X28.  With a depth limit of 1 or 2 and heuristic e0, alpha-beta and
    plain minimax are the same function on every position that satisfies
    the invariants of play: called at the root with the two sentinel
    scores as window, [minimax_alphabeta] gives the result of [minimax]
    (score, move, statistics and clock readings alike), whatever the clock
    reads.  At these depths every child of the root is a leaf and the
    pruning test never fires. *)
Theorem shallow_alphabeta_is_minimax (now : nat -> Q) (fuel : nat) (g : Game.t)
    (D : Z) (p : Player) (start_time : Q) (w : Game.world) :
  position_ok g -> searchable D g -> 1 <= D <= 2 -> D <= Z.of_nat fuel ->
  Game.minimax_alphabeta now fuel g 1 p
    (inject_Z MIN_HEURISTIC_SCORE) (inject_Z MAX_HEURISTIC_SCORE) start_time w
  = Game.minimax now fuel g 1 p start_time w.
Proof.
  intros Hok Hs HD Hfuel. pose proof Hok as (Hwf & Hh & Hf).
  pose proof Hs as (Hmax & Htime & Hheur & Hdim).
  destruct fuel as [|fuel]; [done|].
  cbn [Game.minimax_alphabeta Game.minimax]. rewrite Hmax.
  destruct (bool_decide (Some 1 = Some D) || Game.is_finished g) eqn:Hstop; [done|].
  apply orb_false_iff in Hstop as [Hne%bool_decide_eq_false _].
  assert (D = 2) as -> by (destruct (decide (D = 1)) as [->|]; [done|lia]).
  destruct (candidates_characterised g p Hwf) as (l & Hl & _). rewrite Hl.
  cbn [mbind result_bind].
  destruct (0 <? Z.of_nat (length l)); [|done].
  rewrite (loops_agree_over_leaves now 2 start_time
             (fun g w => Game.minimax now fuel g (1 + 1) (Game.opponent p) start_time w)
             (fun g alpha beta w =>
                Game.minimax_alphabeta now fuel g (1 + 1) (Game.opponent p)
                  alpha beta start_time w)
             g p l); try done.
  - intros child alpha beta w0 (Hwf' & _) (Hmax' & _ & Hheur' & Hdim').
    destruct fuel as [|fuel]; [lia|].
    cbn [Game.minimax_alphabeta Game.minimax]. rewrite Hmax'.
    rewrite bool_decide_eq_true_2 by done. simpl.
    split; [done|].
    destruct (evaluate_plausible child Hwf' Hheur' Hdim') as (z & -> & Hz). simpl.
    by exists z, None, w0.
  - exists MIN_HEURISTIC_SCORE, MAX_HEURISTIC_SCORE. by split_and!.
  - unfold Game.worst_for. destruct p; simpl.
    + exists MIN_HEURISTIC_SCORE. by split_and!.
    + exists MAX_HEURISTIC_SCORE. by split_and!.
Qed.

Lemma shallow_alphabeta_is_minimax_witness :
  Game.minimax_alphabeta frozen_clock 2 shallow_opening 1 Attacker
    (inject_Z MIN_HEURISTIC_SCORE) (inject_Z MAX_HEURISTIC_SCORE) 0%Q fresh_world
  = Game.minimax frozen_clock 2 shallow_opening 1 Attacker 0%Q fresh_world.
Proof.
  apply (shallow_alphabeta_is_minimax frozen_clock 2 shallow_opening 2).
  - split_and!.
    + split; [done|]. repeat constructor.
    + apply healthyb_healthy. reflexivity.
    + split; intros _.
      * exists (Coord.mk 4 4), (Unit.mk Attacker AI 9). by split_and!.
      * exists (Coord.mk 0 0), (Unit.mk Defender AI 9). by split_and!.
  - split_and!; [reflexivity|discriminate|reflexivity|vm_compute; discriminate].
  - lia.
  - simpl. lia.
Defined.

(** ** Depth three *)

Lemma quiet_carried (now : nat -> Q) (start_time : Q) (g g' : Game.t) :
  carried g g' -> quiet now start_time g -> quiet now start_time g'.
Proof.
  intros (Ho & _) Hq w. destruct (Hq w) as (w' & Hw'). exists w'.
  unfold Game.cutoff in *. by rewrite Ho.
Qed.

Lemma worst_for_sentinel (p : Player) : Game.worst_for p = inject_Z (sentinel p).
Proof. by destruct p. Qed.

Lemma leaf_calls (now : nat -> Q) (start_time : Q) (fuel : nat) (D : Z) (q : Player) :
  over_leaves D
    (fun g w => Game.minimax now (S fuel) g D q start_time w)
    (fun g alpha beta w => Game.minimax_alphabeta now (S fuel) g D q alpha beta start_time w).
Proof.
  intros child Hwf (Hmax & _ & Hheur & Hdim).
  destruct (evaluate_plausible child Hwf Hheur Hdim) as (z & Hz & Hpl).
  exists z. split; [done|]. split; [done|].
  split; intros; cbn [Game.minimax Game.minimax_alphabeta]; rewrite Hmax;
    rewrite bool_decide_eq_true_2 by done; simpl; by rewrite Hz.
Qed.

Section AboveLeaves.

Variable now : nat -> Q.
Variable start_time : Q.
Variable D : Z.
Variable recur_m : Game.t -> Game.world -> result (Game.search_result * Game.world).
Variable recur_ab :
  Game.t -> Q -> Q -> Game.world -> result (Game.search_result * Game.world).
Variable g : Game.t.
Variable p : Player.
Variable l : list CoordPair.t.

Hypothesis Hok : position_ok g.
Hypothesis Hs : searchable D g.
Hypothesis Hquiet : quiet now start_time g.
Hypothesis Hl : Game.move_candidates_for_AI g p = Ret l.

(** One candidate of the node: the position it leads to. *)
Lemma candidate_child (m : CoordPair.t) :
  m ∈ l ->
  exists child msg,
    Game.perform_move_for_AI g m p = Ret (child, (true, msg))
    /\ position_ok child /\ searchable D child.
Proof.
  intros Hm. destruct Hok as (Hwf & Hh & Hf).
  destruct (candidate_resolution g p l m Hwf Hh Hf Hl Hm)
    as (child & msg & Hrun & Hwf' & Hh' & Hf').
  exists child, msg. split; [done|]. split; [done|].
  by apply (searchable_carried D g child (perform_move_for_AI_carried _ _ _ _ _ Hrun)).
Qed.

(** Plain minimax over leaves: the best score only moves the player's
    way, and [best_clone_game] keeps holding a position with that score. *)
Lemma minimax_loop_over_leaves :
  over_leaves D recur_m recur_ab ->
  forall cands zb bm bc w,
    cands ⊆ l -> linked p zb bc ->
    exists zm bm' bc' w',
      Game.minimax_loop now recur_m g p start_time cands (inject_Z zb) bm bc w
        = Ret (inject_Z zm, bm', bc', w')
      /\ linked p zm bc'
      /\ match p with Defender => zm <= zb | Attacker => zb <= zm end
      /\ (cands <> [] \/ bc <> None -> bc' <> None).
Proof.
  intros Hleaves.
  induction cands as [|m cands IH]; intros zb bm bc w Hsub Hlink.
  { exists zb, bm, bc, w. split_and!; [done|done|by destruct p|by intros [?|?]]. }
  assert (m ∈ l) as Hm by (apply Hsub; by left).
  assert (cands ⊆ l) as Hsub' by (intros x Hx; apply Hsub; by right).
  destruct (candidate_child m Hm) as (child & msg & Hrun & (Hwf' & _) & Hs').
  destruct (Hleaves child Hwf' Hs') as (z & Hz & Hev & Hrm & _).
  cbn [Game.minimax_loop]. unfold Game.clone. rewrite Hrun. cbn [mbind result_bind].
  rewrite Hrm. cbn [mbind result_bind]. rewrite !Qlt_bool_inject_Z.
  destruct (Hquiet w) as (w1 & Hcut).
  destruct p; simpl; rewrite ?orb_false_r.
  - destruct (Z.ltb_spec zb z); rewrite Hcut; simpl.
    + destruct (IH z (Some m) (Some child) w1) as (zm & bm' & bc' & w' & -> & ? & ? & Hbc);
        [done|done|].
      exists zm, bm', bc', w'. split_and!; [done|done|lia|]. intros _. apply Hbc. by right.
    + destruct (IH zb bm bc w1) as (zm & bm' & bc' & w' & -> & ? & ? & Hbc); [done|done|].
      exists zm, bm', bc', w'. split_and!; [done|done|lia|].
      intros [_|?]; apply Hbc; [|by right].
      right. destruct bc; [done|]. simpl in Hlink. destruct Hz. unfold sentinel in Hlink. lia.
  - destruct (Z.ltb_spec z zb); rewrite Hcut; simpl.
    + destruct (IH z (Some m) (Some child) w1) as (zm & bm' & bc' & w' & -> & ? & ? & Hbc);
        [done|done|].
      exists zm, bm', bc', w'. split_and!; [done|done|lia|]. intros _. apply Hbc. by right.
    + destruct (IH zb bm bc w1) as (zm & bm' & bc' & w' & -> & ? & ? & Hbc); [done|done|].
      exists zm, bm', bc', w'. split_and!; [done|done|lia|].
      intros [_|?]; apply Hbc; [|by right].
      right. destruct bc; [done|]. simpl in Hlink. destruct Hz. unfold sentinel in Hlink. lia.
Qed.

(** Alpha-beta against plain minimax over the same leaves: the two loops
    run in step until alpha-beta prunes, and then both scores are beyond
    the bound of the root. *)
Lemma loops_above_leaves (k : Z) :
  over_leaves D recur_m recur_ab ->
  forall cands zb bm bc wm wa alpha beta,
    cands ⊆ l -> linked p zb bc -> window_above_leaves p k zb alpha beta ->
    exists zm za bmm bma bcm bca wm' wa',
      Game.minimax_loop now recur_m g p start_time cands (inject_Z zb) bm bc wm
        = Ret (inject_Z zm, bmm, bcm, wm')
      /\ Game.alphabeta_loop now recur_ab g p start_time cands alpha beta
           (inject_Z zb) bm bc wa
         = Ret (inject_Z za, bma, bca, wa')
      /\ linked p zm bcm /\ linked p za bca
      /\ (cut_or_equal p k zm za \/ cands = [] /\ zm = zb /\ za = zb)
      /\ (cands <> [] \/ bc <> None -> bcm <> None /\ bca <> None).
Proof.
  intros Hleaves.
  induction cands as [|m cands IH]; intros zb bm bc wm wa alpha beta Hsub Hlink Hwin.
  { exists zb, zb, bm, bm, bc, bc, wm, wa.
    split_and!; try done; [by right|by intros [?|?]]. }
  assert (m ∈ l) as Hm by (apply Hsub; by left).
  assert (cands ⊆ l) as Hsub' by (intros x Hx; apply Hsub; by right).
  destruct (candidate_child m Hm) as (child & msg & Hrun & (Hwf' & _) & Hs').
  destruct (Hleaves child Hwf' Hs') as (z & Hz & Hev & Hrm & Hra).
  cbn [Game.minimax_loop Game.alphabeta_loop]. unfold Game.clone.
  rewrite Hrun. cbn [mbind result_bind].
  rewrite Hrm, Hra. cbn [mbind result_bind]. rewrite !Qlt_bool_inject_Z.
  destruct (Hquiet wm) as (wm1 & Hcutm). destruct (Hquiet wa) as (wa1 & Hcuta).
  assert (bc <> None \/ inject_Z zb = Game.worst_for p) as Hbc0.
  { destruct bc; [by left|]. right. simpl in Hlink. subst zb. by destruct p. }
  destruct Hz as [Hlo Hhi].
  pose proof (minimax_loop_over_leaves Hleaves cands) as Hcont.
  destruct p; simpl in Hwin |- *; rewrite ?orb_false_r;
    destruct Hwin as (-> & -> & Hk).
  - (* Attacker above the leaves: beta is the bound of the root *)
    destruct (Z.ltb_spec zb z) as [Himp|Hnot].
    + rewrite Qlt_bool_inject_Z. destruct (Z.ltb_spec zb z); [|lia].
      rewrite Qle_bool_inject_Z, Hcutm. simpl.
      destruct (Z.leb_spec k z) as [Hcut|Hgo].
      * (* pruned: minimax goes on and ends at or above the bound *)
        destruct (Hcont z (Some m) (Some child) wm1)
          as (zm & bmm & bcm & wm' & -> & Hlm & Hge & Hbcm); [done|done|].
        exists zm, z, bmm, (Some m), bcm, (Some child), wm', wa.
        split_and!; try done.
        -- left. left. lia.
        -- intros _. split; [|done]. apply Hbcm. by right.
      * rewrite Hcuta. simpl.
        destruct (IH z (Some m) (Some child) wm1 wa1 (inject_Z z) (inject_Z k))
          as (zm & za & bmm & bma & bcm & bca & wm' & wa' & -> & -> & ? & ? & Hrel & Hbc);
          [done|done|done|].
        exists zm, za, bmm, bma, bcm, bca, wm', wa'. split_and!; try done.
        -- left. destruct Hrel as [?|(_ & -> & ->)]; [done|]. right. lia.
        -- intros _. apply Hbc. by right.
    + rewrite Qlt_bool_inject_Z. destruct (Z.ltb_spec zb zb); [lia|].
      rewrite Qle_bool_inject_Z, Hcutm. simpl.
      destruct (Z.leb_spec k zb); [lia|]. rewrite Hcuta. simpl.
      assert (bc <> None) as Hbc1.
      { destruct Hbc0 as [?|Heq]; [done|]. unfold Game.worst_for in Heq. simpl in Heq.
        injection Heq as ->. unfold MIN_HEURISTIC_SCORE in *. lia. }
      destruct (IH zb bm bc wm1 wa1 (inject_Z zb) (inject_Z k))
        as (zm & za & bmm & bma & bcm & bca & wm' & wa' & -> & -> & ? & ? & Hrel & Hbc);
        [done|done|done|].
      exists zm, za, bmm, bma, bcm, bca, wm', wa'. split_and!; try done.
      -- left. destruct Hrel as [?|(_ & -> & ->)]; [done|]. right. lia.
      -- intros _. apply Hbc. by right.
  - (* Defender above the leaves: alpha is the bound of the root *)
    destruct (Z.ltb_spec z zb) as [Himp|Hnot].
    + rewrite Qlt_bool_inject_Z. destruct (Z.ltb_spec z zb); [|lia].
      rewrite Qle_bool_inject_Z, Hcutm. simpl.
      destruct (Z.leb_spec z k) as [Hcut|Hgo].
      * destruct (Hcont z (Some m) (Some child) wm1)
          as (zm & bmm & bcm & wm' & -> & Hlm & Hge & Hbcm); [done|done|].
        exists zm, z, bmm, (Some m), bcm, (Some child), wm', wa.
        split_and!; try done.
        -- left. left. lia.
        -- intros _. split; [|done]. apply Hbcm. by right.
      * rewrite Hcuta. simpl.
        destruct (IH z (Some m) (Some child) wm1 wa1 (inject_Z k) (inject_Z z))
          as (zm & za & bmm & bma & bcm & bca & wm' & wa' & -> & -> & ? & ? & Hrel & Hbc);
          [done|done|done|].
        exists zm, za, bmm, bma, bcm, bca, wm', wa'. split_and!; try done.
        -- left. destruct Hrel as [?|(_ & -> & ->)]; [done|]. right. lia.
        -- intros _. apply Hbc. by right.
    + rewrite Qlt_bool_inject_Z. destruct (Z.ltb_spec zb zb); [lia|].
      rewrite Qle_bool_inject_Z, Hcutm. simpl.
      destruct (Z.leb_spec zb k); [lia|]. rewrite Hcuta. simpl.
      assert (bc <> None) as Hbc1.
      { destruct Hbc0 as [?|Heq]; [done|]. unfold Game.worst_for in Heq. simpl in Heq.
        injection Heq as ->. unfold MAX_HEURISTIC_SCORE in *. lia. }
      destruct (IH zb bm bc wm1 wa1 (inject_Z k) (inject_Z zb))
        as (zm & za & bmm & bma & bcm & bca & wm' & wa' & -> & -> & ? & ? & Hrel & Hbc);
        [done|done|done|].
      exists zm, za, bmm, bma, bcm, bca, wm', wa'. split_and!; try done.
      -- left. destruct Hrel as [?|(_ & -> & ->)]; [done|]. right. lia.
      -- intros _. apply Hbc. by right.
Qed.

End AboveLeaves.

(** A node one level above the leaves, under depth limit 3. *)
Lemma nodes_above_leaves (now : nat -> Q) (start_time : Q) (fuel : nat) (o : Player) :
  over_nodes now start_time 3 o
    (fun g w => Game.minimax now (S (S fuel)) g 2 o start_time w)
    (fun g alpha beta w =>
       Game.minimax_alphabeta now (S (S fuel)) g 2 o alpha beta start_time w).
Proof.
  intros child k alpha beta wm wa Hok Hs Hq Hwin.
  pose proof Hok as (Hwf & Hh & Hf). pose proof Hs as (Hmax & Htime & Hheur & Hdim).
  remember (S fuel) as f eqn:Hfuel.
  cbn [Game.minimax Game.minimax_alphabeta]. rewrite Hmax. subst f.
  rewrite bool_decide_eq_false_2 by done. rewrite orb_false_l.
  destruct (Game.is_finished child) eqn:Hfin.
  { destruct (evaluate_plausible child Hwf Hheur Hdim) as (z & -> & Hz). simpl.
    exists z, z, None, None, wm, wa. split_and!; try done.
    destruct o; simpl; destruct (Z.le_gt_cases z k), (Z.le_gt_cases k z); lia. }
  assert (Game.has_winner child = None) as Hwinner.
  { unfold Game.is_finished in Hfin. by destruct (Game.has_winner child). }
  destruct (candidates_characterised child o Hwf) as (l & Hl & _). rewrite Hl.
  cbn [mbind result_bind].
  pose proof (candidates_nonempty child o l Hwf Hf Hwinner Hl) as Hnil.
  assert (0 < Z.of_nat (length l)) as Hlen by (destruct l; [done|simpl; lia]).
  destruct (Z.ltb_spec 0 (Z.of_nat (length l))); [|lia].
  try change (2 + 1) with 3. rewrite worst_for_sentinel.
  destruct (loops_above_leaves now start_time 3 _ _ child o l Hok Hs Hq Hl k
              (leaf_calls now start_time fuel 3 (Game.opponent o))
              l (sentinel o) None None
              (Game.count_evaluations wm 2 (Z.of_nat (length l)))
              (Game.count_evaluations wa 2 (Z.of_nat (length l)))
              alpha beta)
    as (zm & za & bmm & bma & bcm & bca & wm' & wa' & -> & -> & Hlm & Hla & Hrel & Hbc);
    [done|done|done|].
  cbn [mbind result_bind].
  destruct Hbc as [Hbcm Hbca]; [by left|].
  destruct bcm as [cm|]; [|done]. destruct bca as [ca|]; [|done].
  destruct Hlm as [-> Hzm]. destruct Hla as [-> Hza]. simpl.
  exists zm, za, bmm, bma, wm', wa'. split_and!; try done.
  by destruct Hrel as [?|(-> & _)].
Qed.

(** The root above such nodes: the two loops make the same choices. *)
Lemma loops_at_root (now : nat -> Q) (start_time : Q) (D : Z)
    (recur_m : Game.t -> Game.world -> result (Game.search_result * Game.world))
    (recur_ab : Game.t -> Q -> Q -> Game.world ->
                result (Game.search_result * Game.world))
    (g : Game.t) (p : Player) (l : list CoordPair.t) :
  position_ok g -> searchable D g -> quiet now start_time g ->
  Game.move_candidates_for_AI g p = Ret l ->
  over_nodes now start_time D (Game.opponent p) recur_m recur_ab ->
  forall cands zb bm bc wm wa alpha beta,
    cands ⊆ l -> window_at_root p zb alpha beta ->
    exists z bm' bc' wm' wa',
      Game.minimax_loop now recur_m g p start_time cands (inject_Z zb) bm bc wm
        = Ret (inject_Z z, bm', bc', wm')
      /\ Game.alphabeta_loop now recur_ab g p start_time cands alpha beta
           (inject_Z zb) bm bc wa
         = Ret (inject_Z z, bm', bc', wa').
Proof.
  intros Hok Hs Hquiet Hl Hnodes.
  induction cands as [|m cands IH]; intros zb bm bc wm wa alpha beta Hsub Hwin.
  { by exists zb, bm, bc, wm, wa. }
  assert (m ∈ l) as Hm by (apply Hsub; by left).
  assert (cands ⊆ l) as Hsub' by (intros x Hx; apply Hsub; by right).
  destruct (candidate_child D g p l Hok Hs Hl m Hm) as (child & msg & Hrun & Hok' & Hs').
  pose proof (quiet_carried now start_time g child
                (perform_move_for_AI_carried _ _ _ _ _ Hrun) Hquiet) as Hq'.
  assert (window_above_leaves (Game.opponent p) zb (sentinel (Game.opponent p)) alpha beta)
    as Hwin'.
  { destruct p; simpl in Hwin |- *; by destruct Hwin as (-> & -> & ?). }
  destruct (Hnodes child zb alpha beta wm wa Hok' Hs' Hq' Hwin')
    as (zm & za & mm & ma & wm1 & wa1 & Hrm & Hra & [Hlom Hhim] & [Hloa Hhia] & Hrel).
  cbn [Game.minimax_loop Game.alphabeta_loop]. unfold Game.clone.
  rewrite Hrun. cbn [mbind result_bind].
  rewrite Hrm, Hra. cbn [mbind result_bind]. rewrite !Qlt_bool_inject_Z.
  destruct (Hquiet wm1) as (wm2 & Hcutm). destruct (Hquiet wa1) as (wa2 & Hcuta).
  destruct p; simpl in Hwin, Hrel |- *; rewrite ?orb_false_r;
    destruct Hwin as (-> & -> & Hzb).
  - destruct Hrel as [[Hm1 Ha1] | [Hm1 ->]].
    + destruct (Z.ltb_spec zb zm); [lia|]. destruct (Z.ltb_spec zb za); [lia|].
      rewrite Qlt_bool_inject_Z. destruct (Z.ltb_spec zb zb); [lia|].
      rewrite Qle_bool_inject_Z. destruct (Z.leb_spec MAX_HEURISTIC_SCORE zb); [lia|].
      rewrite Hcutm, Hcuta. simpl. by apply IH.
    + destruct (Z.ltb_spec zb zm); [|lia].
      rewrite Qlt_bool_inject_Z. destruct (Z.ltb_spec zb zm); [|lia].
      rewrite Qle_bool_inject_Z. destruct (Z.leb_spec MAX_HEURISTIC_SCORE zm); [lia|].
      rewrite Hcutm, Hcuta. simpl. by apply IH.
  - destruct Hrel as [[Hm1 Ha1] | [Hm1 ->]].
    + destruct (Z.ltb_spec zm zb); [lia|]. destruct (Z.ltb_spec za zb); [lia|].
      rewrite Qlt_bool_inject_Z. destruct (Z.ltb_spec zb zb); [lia|].
      rewrite Qle_bool_inject_Z. destruct (Z.leb_spec zb MIN_HEURISTIC_SCORE); [lia|].
      rewrite Hcutm, Hcuta. simpl. by apply IH.
    + destruct (Z.ltb_spec zm zb); [|lia].
      rewrite Qlt_bool_inject_Z. destruct (Z.ltb_spec zm zb); [|lia].
      rewrite Qle_bool_inject_Z. destruct (Z.leb_spec zm MIN_HEURISTIC_SCORE); [lia|].
      rewrite Hcutm, Hcuta. simpl. by apply IH.
Qed.

(** X29.  With a depth limit of 3 and heuristic e0, alpha-beta returns
    what plain minimax returns, score and move, on every position that
    satisfies the invariants of play, as long as the clock never reaches
    the time cutoff: below the root every value handed upward is the score
    of a leaf, and a pruned node hands up a score the root does not
    prefer. *)
Theorem depth_three_alphabeta_is_minimax (now : nat -> Q) (fuel : nat) (g : Game.t)
    (p : Player) (start_time : Q) (w : Game.world) :
  position_ok g -> searchable 3 g -> quiet now start_time g ->
  3 <= Z.of_nat fuel ->
  answer (Game.minimax_alphabeta now fuel g 1 p
            (inject_Z MIN_HEURISTIC_SCORE) (inject_Z MAX_HEURISTIC_SCORE) start_time w)
  = answer (Game.minimax now fuel g 1 p start_time w).
Proof.
  intros Hok Hs Hquiet Hfuel. pose proof Hok as (Hwf & Hh & Hf).
  pose proof Hs as (Hmax & Htime & Hheur & Hdim).
  destruct fuel as [|[|[|fuel]]]; try lia.
  remember (S (S fuel)) as f eqn:Hf2.
  cbn [Game.minimax_alphabeta Game.minimax]. rewrite Hmax. subst f.
  rewrite bool_decide_eq_false_2 by done. rewrite orb_false_l.
  destruct (Game.is_finished g); [done|].
  destruct (candidates_characterised g p Hwf) as (l & Hl & _). rewrite Hl.
  cbn [mbind result_bind].
  destruct (0 <? Z.of_nat (length l)); [|done].
  try change (1 + 1) with 2. rewrite worst_for_sentinel.
  destruct (loops_at_root now start_time 3 _ _ g p l Hok Hs Hquiet Hl
              (nodes_above_leaves now start_time fuel (Game.opponent p))
              l (sentinel p) None None
              (Game.count_evaluations w 1 (Z.of_nat (length l)))
              (Game.count_evaluations w 1 (Z.of_nat (length l)))
              (inject_Z MIN_HEURISTIC_SCORE) (inject_Z MAX_HEURISTIC_SCORE))
    as (z & bm' & bc' & wm' & wa' & -> & ->); [done| |].
  { by destruct p. }
  cbn [mbind result_bind]. destruct bc' as [child|]; [|done].
  by destruct (Game.evaluate child).
Qed.

Lemma depth_three_alphabeta_is_minimax_witness :
  answer (Game.minimax_alphabeta frozen_clock 3 depth_three_opening 1 Attacker
            (inject_Z MIN_HEURISTIC_SCORE) (inject_Z MAX_HEURISTIC_SCORE) 0%Q fresh_world)
  = answer (Game.minimax frozen_clock 3 depth_three_opening 1 Attacker 0%Q fresh_world).
Proof.
  apply (depth_three_alphabeta_is_minimax frozen_clock 3 depth_three_opening).
  - split_and!.
    + split; [done|]. repeat constructor.
    + apply healthyb_healthy. reflexivity.
    + split; intros _.
      * exists (Coord.mk 4 4), (Unit.mk Attacker AI 9). by split_and!.
      * exists (Coord.mk 0 0), (Unit.mk Defender AI 9). by split_and!.
  - split_and!; [reflexivity|discriminate|reflexivity|vm_compute; discriminate].
  - intros w. eexists. reflexivity.
  - simpl. lia.
Defined.

(** ** The engagement test of the interactive predicate *)

#[local] Opaque gen_contains Coord.iter_adjacent.

Lemma is_valid_move_onto_empty (g : Game.t) (m : CoordPair.t) (u : Unit.t) :
  board_wf g ->
  cell g (CoordPair.src m) = Some u ->
  Game.next_player g = Unit.player u ->
  CoordPair.dst m ∈ Coord.iter_adjacent (CoordPair.src m) ->
  Game.is_valid_coord g (CoordPair.dst m) = true ->
  cell g (CoordPair.dst m) = None ->
  Unit.type u <> Tech -> Unit.type u <> Virus ->
  exists legal : bool,
    Game.is_valid_move g m = Ret legal
    /\ (legal = true <->
        Game.advances u m = true
        /\ forall c a, c ∈ later_neighbours m -> cell g c = Some a ->
                       Unit.player a = Unit.player u).
Proof.
  intros Hwf Hsrc Hturn Hadj Hvd Hdst HTech HVirus.
  pose proof (cell_Some_valid _ _ _ Hsrc) as Hvs.
  pose proof (adjacent_ne _ _ Hadj) as Hne.
  unfold Game.is_valid_move, later_neighbours.
  rewrite Hvs, Hvd, !get_cell, Hsrc by done. simpl.
  destruct (decide (Unit.player u <> Game.next_player g)); [congruence|].
  destruct (decide (CoordPair.src m = CoordPair.dst m)); [done|].
  apply gen_contains_found in Hadj.
  destruct (gen_contains _ _) as [found rest]. simpl in Hadj. subst found. simpl.
  rewrite Hdst. rewrite !bool_decide_eq_false_2 by done. simpl.
  destruct (engaged_spec g u rest Hwf) as (e & -> & He). simpl.
  destruct e.
  - exists false. split; [done|]. split; [done|]. intros [_ Hall].
    destruct He as [(c & a & Hin & Hc & Hpl) _]; [done|].
    destruct Hpl. by eapply Hall.
  - exists (Game.advances u m). split; [done|]. split.
    + intros Hadv. split; [done|]. intros c a Hin Hc.
      destruct (decide (Unit.player a = Unit.player u)) as [|Hpl]; [done|].
      assert (false = true) as Habs; [|done]. apply He. by exists c, a.
    + by intros [? _].
Qed.

#[local] Transparent gen_contains Coord.iter_adjacent.

(** X30.  For a unit other than Tech or Virus stepping onto an empty
    neighbouring cell, [is_valid_move] tests the advance direction and, for
    enemies, only the neighbours that [iter_adjacent] lists after the
    destination (the order is up, left, down, right): after a step up these
    are left, down and right; after a step left, down and right; after a
    step down, right; after a step right, none. *)
Theorem is_valid_move_checks_later_neighbours (g : Game.t) (m : CoordPair.t)
    (u : Unit.t) :
  board_wf g ->
  cell g (CoordPair.src m) = Some u ->
  Game.next_player g = Unit.player u ->
  CoordPair.dst m ∈ Coord.iter_adjacent (CoordPair.src m) ->
  Game.is_valid_coord g (CoordPair.dst m) = true ->
  cell g (CoordPair.dst m) = None ->
  Unit.type u <> Tech -> Unit.type u <> Virus ->
  let r := Coord.row (CoordPair.src m) in
  let c := Coord.col (CoordPair.src m) in
  (exists legal : bool,
      Game.is_valid_move g m = Ret legal
      /\ (legal = true <->
          Game.advances u m = true
          /\ forall c' a, c' ∈ later_neighbours m -> cell g c' = Some a ->
                          Unit.player a = Unit.player u))
  /\ (CoordPair.dst m = Coord.mk (r - 1) c ->
      later_neighbours m = [Coord.mk r (c - 1); Coord.mk (r + 1) c; Coord.mk r (c + 1)])
  /\ (CoordPair.dst m = Coord.mk r (c - 1) ->
      later_neighbours m = [Coord.mk (r + 1) c; Coord.mk r (c + 1)])
  /\ (CoordPair.dst m = Coord.mk (r + 1) c -> later_neighbours m = [Coord.mk r (c + 1)])
  /\ (CoordPair.dst m = Coord.mk r (c + 1) -> later_neighbours m = []).
Proof.
  intros Hwf Hsrc Hturn Hadj Hvd Hdst HTech HVirus r c.
  split; [by apply is_valid_move_onto_empty|].
  unfold later_neighbours, Coord.iter_adjacent. fold r c.
  split_and!; intros ->; simpl;
    repeat (first [ rewrite decide_True by done
                  | rewrite decide_False by (intros [=]; lia) ]; simpl); done.
Qed.

Lemma is_valid_move_checks_later_neighbours_witness :
  let m := step 1 1 1 2 in
  let u := Unit.mk Defender Program 9 in
  let r := Coord.row (CoordPair.src m) in
  let c := Coord.col (CoordPair.src m) in
  (exists legal : bool,
      Game.is_valid_move engaged_position m = Ret legal
      /\ (legal = true <->
          Game.advances u m = true
          /\ forall c' a, c' ∈ later_neighbours m -> cell engaged_position c' = Some a ->
                          Unit.player a = Unit.player u))
  /\ (CoordPair.dst m = Coord.mk (r - 1) c ->
      later_neighbours m = [Coord.mk r (c - 1); Coord.mk (r + 1) c; Coord.mk r (c + 1)])
  /\ (CoordPair.dst m = Coord.mk r (c - 1) ->
      later_neighbours m = [Coord.mk (r + 1) c; Coord.mk r (c + 1)])
  /\ (CoordPair.dst m = Coord.mk (r + 1) c -> later_neighbours m = [Coord.mk r (c + 1)])
  /\ (CoordPair.dst m = Coord.mk r (c + 1) -> later_neighbours m = []).
Proof.
  apply (is_valid_move_checks_later_neighbours engaged_position (step 1 1 1 2)
           (Unit.mk Defender Program 9)).
  - split; [done|]. repeat constructor.
  - reflexivity.
  - reflexivity.
  - apply elem_of_iter_adjacent. by right; right; right.
  - reflexivity.
  - reflexivity.
  - discriminate.
  - discriminate.
Defined.
